(** * SimpleVector: a growable array over an owned heap buffer

    Shallow embedding of [array_ptr.h] and of the two [SimpleVector]
    headers of the repository ([simple_vector.h] and its near-duplicate),
    followed by the properties of the specification.

    Modelling conventions.
    - A heap block is the list of its slots.  An [ArrayPtr] is [None]
      (the null pointer) or [Some b], the block it owns.  [ArrayPtr] is
      move-only, so a block never has two owners and is stored by value
      in the field that owns it.
    - An iterator into a vector is the offset from [begin()].
    - Reading or writing a slot outside the block, and an iterator range
      whose end lies before its start, is undefined behaviour: the
      operation yields [Undefined].
    - [size_t] values are natural numbers.  Allocation is taken to
      succeed; a block that was allocated has far fewer than [2^63]
      slots, so [capacity_ * 2] does not wrap.  An [int] has 32 bits:
      the offset that [Insert] and [Erase] keep in an [int] is the
      position modulo [2^32], negative from [2^31] on.
    - [PushBack] and [Insert] take the value by reference.  The object
      referred to is one outside the vector's block or a slot of that
      block ([v.PushBack(v[0])]); it is read when the code reads it,
      and a reference to a slot dangles once the block has been
      replaced.
    - Objects live in a store indexed by their name, so that a member
      function called with an argument that is the object itself
      ([v = v], [v = std::move(v)], [v.swap(v)]) is modelled with the
      aliasing it has in the code.
    - [ArrayPtr] alone is stated a second time on a heap with addresses
      (module [Heap]), where it can be followed which object holds a
      block and whether [delete[]] has ended it. *)

From stdpp Require Import base tactics option list numbers.

Set Default Proof Using "Type".

(** ** Element types *)

(** What the containers require of the template parameter [Type]:
    value-initialisation [Type{}], the state a moved-from object is left
    in, [operator==] and [operator<]. *)
Class Element (T : Type) := {
  value_init : T;
  moved_from : T → T;
  elem_eq :: EqDecision T;
  elem_lt : T → T → bool
}.

(** [int]: moving is copying. *)
#[export] Instance int_Element : Element Z := {|
  value_init := 0%Z;
  moved_from := id;
  elem_lt := Z.ltb
|}.

(** ** Outcomes *)

Inductive res (A : Type) : Type :=
  | Ok (a : A)
  | OutOfRange            (* std::out_of_range was thrown *)
  | Undefined.            (* undefined behaviour *)
Arguments Ok {A} a.
Arguments OutOfRange {A}.
Arguments Undefined {A}.

#[export] Instance res_ret : MRet res := @Ok.
#[export] Instance res_bind : MBind res := λ A B f m,
  match m with
  | Ok a => f a
  | OutOfRange => OutOfRange
  | Undefined => Undefined
  end.

(** ** array_ptr.h *)

Module ArrayPtr.
(** [raw_ptr_] *)
Definition t (T : Type) : Type := option (list T).

Section array_ptr.
Context `{Element T}.
Local Abbreviation t := (t T).

(** [raw_ptr_[index]] as an rvalue *)
Definition load (p : t) (index : nat) : res T :=
  match p with
  | Some b => match b !! index with Some x => Ok x | None => Undefined end
  | None => Undefined
  end.

(** [raw_ptr_[index] = x] *)
Definition store (p : t) (index : nat) (x : T) : res t :=
  match p with
  | Some b =>
      if decide (index < length b) then Ok (Some (<[index:=x]> b))
      else Undefined
  | None => Undefined
  end.

(** [ArrayPtr() = default] *)
Definition null : t := None.

(** [explicit ArrayPtr(size_t size)] *)
Definition make (size : nat) : t :=
  if decide (size = 0) then None
  else Some (replicate size value_init).

(** [std::fill(first, last, value)] on the slots [first .. first+n) *)
Fixpoint fill (p : t) (first n : nat) (value : T) : res t :=
  match n with
  | 0 => Ok p
  | S n => p ← store p first value; fill p (S first) n value
  end.

(** [explicit ArrayPtr(size_t size, const Type& value)]; [new Type[size]]
    leaves the slots of a scalar type unset, and every one of them is
    assigned by the [std::fill] that follows. *)
Definition make_fill (size : nat) (value : T) : res t :=
  if decide (size = 0) then Ok None
  else fill (Some (replicate size value_init)) 0 size value.

(** the loop of [ArrayPtr(std::initializer_list<Type> init)] *)
Fixpoint assign_from (p : t) (counter : nat) (init : list T) : res t :=
  match init with
  | [] => Ok p
  | x :: init => p ← store p counter x; assign_from p (S counter) init
  end.

(** [ArrayPtr(std::initializer_list<Type> init)]: [new Type[0]] is a
    non-null, empty block. *)
Definition make_init (init : list T) : res t :=
  assign_from (Some (replicate (length init) value_init)) 0 init.

(** [Release()]: the handle and the emptied object *)
Definition Release (p : t) : t * t := (p, None).

(** [operator bool] *)
Definition to_bool (p : t) : bool := bool_decide (p ≠ None).

(** [Get()] *)
Definition Get (p : t) : t := p.

(** [swap(other)] *)
Definition swap (p other : t) : t * t := (other, p).

(** the number of slots behind the pointer *)
Definition slots (p : t) : list T := default [] p.
End array_ptr.
End ArrayPtr.

(** ** [int] offsets *)

(** [int] has 32 bits. *)
Definition INT_MAX : Z := (2 ^ 31 - 1)%Z.

(** The conversion of an integer to [int] keeps it modulo [2^32]. *)
Definition to_int (z : Z) : Z := ((z + 2 ^ 31) `mod` 2 ^ 32 - 2 ^ 31)%Z.

(** [first + offset] on an iterator, for an [int] offset.  An iterator
    before the start of the block is undefined; one past its end is met
    by the range it delimits. *)
Definition advance (first : nat) (offset : Z) : res nat :=
  if decide (0 ≤ Z.of_nat first + offset)%Z
  then Ok (Z.to_nat (Z.of_nat first + offset))
  else Undefined.

(** ** Algorithms of the standard library, as the headers call them *)

Section algorithms.
Context `{Element T}.
Local Abbreviation buf := (ArrayPtr.t T).

(** [last - first] iterations; a range that runs backwards is undefined *)
Definition distance (first last : nat) : res nat :=
  if decide (first ≤ last) then Ok (last - first) else Undefined.

(** [std::copy(first, last, d_first)] from one block into another *)
Fixpoint std_copy (src : buf) (first n : nat) (dst : buf)
    (d_first : nat) : res buf :=
  match n with
  | 0 => Ok dst
  | S n =>
      x ← ArrayPtr.load src first;
      dst ← ArrayPtr.store dst d_first x;
      std_copy src (S first) n dst (S d_first)
  end.

(** [std::copy] over [std::move_iterator]s from one block into another:
    each element is move-assigned, which leaves its source moved-from.
    Yields the source and the destination. *)
Fixpoint std_copy_move (src : buf) (first n : nat)
    (dst : buf) (d_first : nat) : res (buf * buf) :=
  match n with
  | 0 => Ok (src, dst)
  | S n =>
      x ← ArrayPtr.load src first;
      dst ← ArrayPtr.store dst d_first x;
      src ← ArrayPtr.store src first (moved_from x);
      std_copy_move src (S first) n dst (S d_first)
  end.

(** [std::move(first, last, d_first)] inside one block, [d_first] before
    [first]: each step move-assigns the slot at [first] to the slot at
    [d_first] and advances both *)
Fixpoint std_move (p : buf) (first n d_first : nat)
    : res buf :=
  match n with
  | 0 => Ok p
  | S n =>
      x ← ArrayPtr.load p first;
      p ← ArrayPtr.store p d_first x;
      p ← ArrayPtr.store p first (moved_from x);
      std_move p (S first) n (S d_first)
  end.

(** [std::move_backward(first, last, d_last)] inside one block, [d_last]
    after [last]: each step steps both back and move-assigns the slot at
    [last] to the slot at [d_last] *)
Fixpoint std_move_backward (p : buf) (n last d_last : nat)
    : res buf :=
  match n with
  | 0 => Ok p
  | S n =>
      match last, d_last with
      | S last, S d_last =>
          x ← ArrayPtr.load p last;
          p ← ArrayPtr.store p d_last x;
          p ← ArrayPtr.store p last (moved_from x);
          std_move_backward p n last d_last
      | _, _ => Undefined
      end
  end.

(** [std::copy] and [std::copy_backward] called on [std::move_iterator]s:
    dereferencing the iterator gives an rvalue, so the assignment in the
    loop is the move assignment of [std::move] and [std::move_backward]. *)
Definition std_copy_mi := std_move.
Definition std_copy_backward_mi := std_move_backward.

(** [std::equal(first1, last1, first2, last2)] *)
Definition std_equal (l1 l2 : list T) : bool := bool_decide (l1 = l2).

(** [std::lexicographical_compare(first1, last1, first2, last2)] *)
Fixpoint std_lexicographical_compare (l1 l2 : list T) : bool :=
  match l1, l2 with
  | _, [] => false
  | [], _ :: _ => true
  | x :: l1, y :: l2 =>
      if elem_lt x y then true
      else if elem_lt y x then false
      else std_lexicographical_compare l1 l2
  end.
End algorithms.

(** ** The vector object *)

(** The three data members, declared alike in both headers. *)
Record SimpleVector (T : Type) : Type := {
  data_ : ArrayPtr.t T;
  size_ : nat;
  capacity_ : nat
}.
Arguments data_ {T} _.
Arguments size_ {T} _.
Arguments capacity_ {T} _.

(** [ReserveProxyObj] and the free function [Reserve] that makes one *)
Record ReserveProxyObj : Type := { value : nat }.
Definition Reserve_proxy (capacity_to_reserve : nat) : ReserveProxyObj :=
  {| value := capacity_to_reserve |}.

(** *** Arguments passed by reference *)

(** The two overloads of [PushBack] and of [Insert]. *)
Inductive overload : Type :=
  | by_const_ref          (* f(const Type& value) *)
  | by_rvalue_ref.        (* f(Type&& value) *)

(** What the reference [value] designates when the call is made. *)
Inductive reference (T : Type) : Type :=
  | Outside (x : T)       (* an object outside the block, holding [x] *)
  | Slot (index : nat).   (* a slot of the vector's block: [v[index]] *)
Arguments Outside {T} x.
Arguments Slot {T} index.

(** *** Members whose text is the same in both headers *)

Section members.
Context `{Element T}.
Local Abbreviation vec := (SimpleVector T).

(** [SimpleVector() noexcept = default] *)
Definition empty : vec :=
  {| data_ := ArrayPtr.null; size_ := 0; capacity_ := 0 |}.

(** [explicit SimpleVector(size_t size)] *)
Definition of_size (size : nat) : vec :=
  let temp := ArrayPtr.make size in
  {| data_ := temp; size_ := size; capacity_ := size |}.

Definition GetSize (v : vec) : nat := size_ v.
Definition GetCapacity (v : vec) : nat := capacity_ v.
Definition IsEmpty (v : vec) : bool := bool_decide (size_ v = 0).

(** [begin()] and [end()] as offsets into [data_] *)
Definition begin (v : vec) : nat := 0.
Definition end_ (v : vec) : nat := size_ v.

(** [operator[](index)] *)
Definition subscript (v : vec) (index : nat) : res T :=
  ArrayPtr.load (data_ v) index.

(** [At(index)] *)
Definition At (v : vec) (index : nat) : res T :=
  if decide (size_ v ≤ index) then OutOfRange
  else ArrayPtr.load (data_ v) index.

(** Reading [value].  [deleted] tells whether the block the vector had
    when the call was made has been deleted since; a reference to one
    of its slots dangles then.  Otherwise that block is [d]. *)
Definition deref (deleted : bool) (d : ArrayPtr.t T) (value : reference T)
    : res T :=
  match value with
  | Outside x => Ok x
  | Slot index => if deleted then Undefined else ArrayPtr.load d index
  end.

(** [data_[index] = value] in the overload that takes [const Type&] and
    [data_[index] = std::move(value)] in the one that takes [Type&&].
    The move assignment leaves its source moved-from: a slot of the
    block when [value] refers to one, else an object of the caller's. *)
Definition assign (o : overload) (deleted : bool) (d : ArrayPtr.t T)
    (index : nat) (value : reference T) : res (ArrayPtr.t T) :=
  x ← deref deleted d value;
  d ← ArrayPtr.store d index x;
  match o, value with
  | by_rvalue_ref, Slot source => ArrayPtr.store d source (moved_from x)
  | _, _ => Ok d
  end.

(** [Clear()] *)
Definition Clear (v : vec) : vec :=
  {| data_ := data_ v; size_ := 0; capacity_ := capacity_ v |}.

(** [PopBack()] *)
Definition PopBack (v : vec) : vec :=
  {| data_ := data_ v;
     size_ := if decide (0 < size_ v) then size_ v - 1 else 0;
     capacity_ := capacity_ v |}.

(** The elements the iterators [begin() .. end()] range over.  Outside
    the invariant the range may leave the block; the slots that exist
    are listed. *)
Definition elements (v : vec) : list T :=
  take (size_ v) (ArrayPtr.slots (data_ v)).

(** [operator==] and [operator<], and the four derived from them *)
Definition eq_op (lhs rhs : vec) : bool :=
  std_equal (elements lhs) (elements rhs).
Definition ne_op (lhs rhs : vec) : bool := negb (eq_op lhs rhs).
Definition lt_op (lhs rhs : vec) : bool :=
  std_lexicographical_compare (elements lhs) (elements rhs).
Definition gt_op (lhs rhs : vec) : bool := lt_op rhs lhs.
Definition le_op (lhs rhs : vec) : bool := negb (gt_op lhs rhs).
Definition ge_op (lhs rhs : vec) : bool := negb (gt_op rhs lhs).
End members.

(** *** simple_vector.h *)

Module simple_vector_h.
Section members.
Context `{Element T}.
Local Abbreviation vec := (SimpleVector T).

(** [Reserve(new_capacity)] *)
Definition Reserve (v : vec) (new_capacity : nat) : res vec :=
  if decide (capacity_ v ≠ 0 ∧ new_capacity ≤ capacity_ v) then Ok v
  else
    let new_capacity := new_capacity `max` 1 in
    let temp := ArrayPtr.make new_capacity in
    '(_, temp) ← std_copy_move (data_ v) (begin v)
                   (end_ v - begin v) temp 0;
    Ok {| data_ := temp; size_ := size_ v; capacity_ := new_capacity |}.

(** [SimpleVector(const ReserveProxyObj& reserve_obj)] *)
Definition of_reserve (reserve_obj : ReserveProxyObj) : res vec :=
  let capacity := value reserve_obj in
  if decide (capacity = 0) then Ok empty
  else Reserve empty capacity.

(** [SimpleVector(size_t size, const Type& value)] *)
Definition of_fill (size : nat) (x : T) : res vec :=
  let v := of_size size in
  d ← ArrayPtr.fill (data_ v) (begin v) (end_ v - begin v) x;
  Ok {| data_ := d; size_ := size_ v; capacity_ := capacity_ v |}.

(** [SimpleVector(std::initializer_list<Type> init)] *)
Definition of_list (init : list T) : res vec :=
  let v := of_size (length init) in
  d ← std_copy (Some init) 0 (length init) (data_ v) (begin v);
  Ok {| data_ := d; size_ := size_ v; capacity_ := capacity_ v |}.

(** [Resize(new_size)] *)
Definition Resize (v : vec) (new_size : nat) : res vec :=
  if decide (size_ v < new_size ∧ new_size ≤ capacity_ v) then
    n ← distance (end_ v) (begin v + new_size);
    d ← ArrayPtr.fill (data_ v) (end_ v) n value_init;
    Ok {| data_ := d; size_ := new_size; capacity_ := capacity_ v |}
  else
    v ← Reserve v new_size;
    Ok {| data_ := data_ v; size_ := new_size;
          capacity_ := capacity_ v |}.

(** Whether [Reserve(new_capacity)] goes past its guard.  It then
    replaces the block, and the block the vector had is deleted with
    [temp]. *)
Definition Reserve_replaces (v : vec) (new_capacity : nat) : bool :=
  bool_decide (¬ (capacity_ v ≠ 0 ∧ new_capacity ≤ capacity_ v)).

(** [PushBack(const Type& value)] and [PushBack(Type&& value)].  [value]
    is read after [Reserve]. *)
Definition PushBack (o : overload) (v : vec) (value : reference T)
    : res vec :=
  '(v, deleted) ←
    (if decide (size_ v = capacity_ v) then
       v' ← Reserve v (capacity_ v * 2);
       Ok (v', Reserve_replaces v (capacity_ v * 2))
     else Ok (v, false));
  d ← assign o deleted (data_ v) (size_ v) value;
  Ok {| data_ := d; size_ := S (size_ v); capacity_ := capacity_ v |}.

(** [Insert(pos, const Type& value)] and [Insert(pos, Type&& value)];
    yields the vector and the returned iterator.  [value] is read after
    [Reserve] and after the shift. *)
Definition Insert (o : overload) (v : vec) (pos : nat)
    (value : reference T) : res (vec * nat) :=
  let offset := to_int (Z.of_nat pos - Z.of_nat (begin v)) in
  true_position ← advance (begin v) offset;
  '(v, deleted, true_position) ←
    (if decide (size_ v = capacity_ v) then
       v' ← Reserve v (capacity_ v * 2);
       true_position ← advance (begin v') offset;
       Ok (v', Reserve_replaces v (capacity_ v * 2), true_position)
     else Ok (v, false, true_position));
  n ← distance true_position (end_ v);
  d ← std_move_backward (data_ v) n (end_ v) (end_ v + 1);
  d ← assign o deleted d true_position value;
  Ok ({| data_ := d; size_ := S (size_ v); capacity_ := capacity_ v |},
      true_position).

(** [Erase(pos)]; yields the vector and the returned iterator.  The
    decrement of [size_] follows a range check that fails on an empty
    vector, so it does not wrap. *)
Definition Erase (v : vec) (pos : nat) : res (vec * nat) :=
  let offset := to_int (Z.of_nat pos - Z.of_nat (begin v)) in
  true_position ← advance (begin v) offset;
  n ← distance (true_position + 1) (end_ v);
  d ← std_move (data_ v) (true_position + 1) n true_position;
  Ok ({| data_ := d; size_ := size_ v - 1; capacity_ := capacity_ v |},
      true_position).
End members.
End simple_vector_h.

(** *** The second header *)

Module part_000.
Section members.
Context `{Element T}.
Local Abbreviation vec := (SimpleVector T).

(** [Reserve(new_capacity)] *)
Definition Reserve (v : vec) (new_capacity : nat) : res vec :=
  if decide (new_capacity ≤ capacity_ v) then Ok v
  else
    let temp := ArrayPtr.make new_capacity in
    '(_, temp) ← std_copy_move (data_ v) (begin v)
                   (end_ v - begin v) temp 0;
    Ok {| data_ := temp; size_ := size_ v; capacity_ := new_capacity |}.

(** [Expand(new_capacity)] *)
Definition Expand (v : vec) (new_capacity : nat) : res vec :=
  Reserve v (if decide (0 < new_capacity) then new_capacity else 1).

(** [SimpleVector(const ReserveProxyObj& reserve_obj)] *)
Definition of_reserve (reserve_obj : ReserveProxyObj) : res vec :=
  let capacity := value reserve_obj in
  if decide (capacity = 0) then Ok empty
  else Reserve empty capacity.

(** [SimpleVector(size_t size, const Type& value)] *)
Definition of_fill (size : nat) (x : T) : res vec :=
  temp ← ArrayPtr.make_fill size x;
  Ok {| data_ := temp; size_ := size; capacity_ := size |}.

(** [SimpleVector(std::initializer_list<Type> init)] *)
Definition of_list (init : list T) : res vec :=
  temp ← ArrayPtr.make_init init;
  Ok {| data_ := temp; size_ := length init; capacity_ := length init |}.

(** [Resize(new_size)] *)
Definition Resize (v : vec) (new_size : nat) : res vec :=
  if decide (new_size ≤ size_ v) then
    Ok {| data_ := data_ v; size_ := new_size; capacity_ := capacity_ v |}
  else if decide (new_size ≤ capacity_ v) then
    n ← distance (end_ v) (begin v + new_size);
    d ← ArrayPtr.fill (data_ v) (end_ v) n value_init;
    Ok {| data_ := d; size_ := new_size; capacity_ := capacity_ v |}
  else
    v ← Expand v new_size;
    Ok {| data_ := data_ v; size_ := new_size;
          capacity_ := capacity_ v |}.

(** Whether [Reserve(new_capacity)], and [Expand(new_capacity)], go
    past the guard of [Reserve].  The block is replaced then, and the
    block the vector had is deleted with [temp]. *)
Definition Reserve_replaces (v : vec) (new_capacity : nat) : bool :=
  bool_decide (¬ new_capacity ≤ capacity_ v).
Definition Expand_replaces (v : vec) (new_capacity : nat) : bool :=
  Reserve_replaces v (if decide (0 < new_capacity) then new_capacity else 1).

(** [PushBack(const Type& value)] and [PushBack(Type&& value)].  [value]
    is read after [Expand]. *)
Definition PushBack (o : overload) (v : vec) (value : reference T)
    : res vec :=
  '(v, deleted) ←
    (if decide (size_ v = capacity_ v) then
       v' ← Expand v (capacity_ v * 2);
       Ok (v', Expand_replaces v (capacity_ v * 2))
     else Ok (v, false));
  d ← assign o deleted (data_ v) (size_ v) value;
  Ok {| data_ := d; size_ := S (size_ v); capacity_ := capacity_ v |}.

(** [Insert(pos, const Type& value)] and [Insert(pos, Type&& value)].
    [value] is read after [Expand] and after the shift. *)
Definition Insert (o : overload) (v : vec) (pos : nat)
    (value : reference T) : res (vec * nat) :=
  let offset := to_int (Z.of_nat pos - Z.of_nat (begin v)) in
  true_position ← advance (begin v) offset;
  '(v, deleted, true_position) ←
    (if decide (size_ v = capacity_ v) then
       v' ← Expand v (capacity_ v * 2);
       true_position ← advance (begin v') offset;
       Ok (v', Expand_replaces v (capacity_ v * 2), true_position)
     else Ok (v, false, true_position));
  n ← distance true_position (end_ v);
  d ← std_copy_backward_mi (data_ v) n (end_ v) (end_ v + 1);
  d ← assign o deleted d true_position value;
  returned ← advance (begin v) offset;
  Ok ({| data_ := d; size_ := S (size_ v); capacity_ := capacity_ v |},
      returned).

(** [Erase(pos)] *)
Definition Erase (v : vec) (pos : nat) : res (vec * nat) :=
  let offset := to_int (Z.of_nat pos - Z.of_nat (begin v)) in
  true_position ← advance (begin v) offset;
  n ← distance (true_position + 1) (end_ v);
  d ← std_copy_mi (data_ v) (true_position + 1) n true_position;
  returned ← advance (begin v) offset;
  Ok ({| data_ := d; size_ := size_ v - 1; capacity_ := capacity_ v |},
      returned).
End members.
End part_000.

(** *** Members that take another vector by reference

    [CopyAndSwap], [MoveFrom] and [swap] read and write two objects that
    may be one and the same.  They are stated on a store of objects, each
    field access in the order the code makes it.  Their text is the same
    in both headers. *)

Section objects.
Context `{Element T}.
Local Abbreviation vec := (SimpleVector T).
Local Abbreviation objects := (list (SimpleVector T)).

(** the object a reference designates *)
Definition get (name : nat) (σ : objects) : res vec :=
  match σ !! name with Some v => Ok v | None => Undefined end.

Definition set_data_ (name : nat) (d : ArrayPtr.t T) (σ : objects)
    : res objects :=
  v ← get name σ;
  Ok (<[name:={| data_ := d; size_ := size_ v;
                 capacity_ := capacity_ v |}]> σ).

Definition set_size_ (name : nat) (n : nat) (σ : objects) : res objects :=
  v ← get name σ;
  Ok (<[name:={| data_ := data_ v; size_ := n;
                 capacity_ := capacity_ v |}]> σ).

Definition set_capacity_ (name : nat) (n : nat) (σ : objects)
    : res objects :=
  v ← get name σ;
  Ok (<[name:={| data_ := data_ v; size_ := size_ v;
                 capacity_ := n |}]> σ).

(** a member function that touches its own object only *)
Definition call (this : nat) (f : vec → res vec) (σ : objects)
    : res objects :=
  v ← get this σ; v ← f v; Ok (<[this:=v]> σ).

(** [CopyAndSwap(other)]; the old block leaves with [temp] *)
Definition CopyAndSwap (this other : nat) (σ : objects) : res objects :=
  o ← get other σ;
  let size := size_ o in
  let temp := ArrayPtr.make size in
  temp ← std_copy (data_ o) (begin o) (end_ o - begin o) temp 0;
  me ← get this σ;
  let '(d, temp) := ArrayPtr.swap (data_ me) temp in
  σ ← set_data_ this d σ;
  σ ← set_capacity_ this size σ;
  set_size_ this size σ.

(** [MoveFrom(other)].  [data_ = std::move(other.data_)] is
    [ArrayPtr::MoveFrom], an exchange like the two that follow it:
    read the field of [other], overwrite it, assign what was read. *)
Definition MoveFrom (this other : nat) (σ : objects) : res objects :=
  o ← get other σ;
  let old := data_ o in
  σ ← set_data_ other ArrayPtr.null σ;
  σ ← set_data_ this old σ;
  o ← get other σ;
  let old := size_ o in
  σ ← set_size_ other 0 σ;
  σ ← set_size_ this old σ;
  o ← get other σ;
  let old := capacity_ o in
  σ ← set_capacity_ other 0 σ;
  set_capacity_ this old σ.

(** [swap(other)]: three [std::swap]s, each through a temporary *)
Definition swap (this other : nat) (σ : objects) : res objects :=
  me ← get this σ;
  let tmp := data_ me in
  o ← get other σ;
  σ ← set_data_ this (data_ o) σ;
  σ ← set_data_ other tmp σ;
  me ← get this σ;
  let tmp := size_ me in
  o ← get other σ;
  σ ← set_size_ this (size_ o) σ;
  σ ← set_size_ other tmp σ;
  me ← get this σ;
  let tmp := capacity_ me in
  o ← get other σ;
  σ ← set_capacity_ this (capacity_ o) σ;
  set_capacity_ other tmp σ.

(** [SimpleVector(const SimpleVector& other)]: the new object gets the
    next free name, which is returned with the store. *)
Definition copy_construct (other : nat) (σ : objects)
    : res (objects * nat) :=
  let this := length σ in
  σ ← CopyAndSwap this other (σ ++ [empty]);
  Ok (σ, this).

(** [SimpleVector(SimpleVector&& other)] *)
Definition move_construct (other : nat) (σ : objects)
    : res (objects * nat) :=
  let this := length σ in
  σ ← MoveFrom this other (σ ++ [empty]);
  Ok (σ, this).

(** [operator=(const SimpleVector& other)] *)
Definition copy_assign (this other : nat) (σ : objects) : res objects :=
  CopyAndSwap this other σ.

(** [operator=(SimpleVector&& other)] *)
Definition move_assign (this other : nat) (σ : objects) : res objects :=
  MoveFrom this other σ.
End objects.

(** ** The class invariant *)

Section invariant.
Context `{Element T}.

(** [0 ≤ size_ ≤ capacity_], and [data_] owns exactly [capacity_] slots
    (none when it is null). *)
Definition wf (v : SimpleVector T) : Prop :=
  size_ v ≤ capacity_ v ∧ length (ArrayPtr.slots (data_ v)) = capacity_ v.

#[export] Instance wf_dec v : Decision (wf v).
Proof. unfold wf. apply _. Defined.

(** A reference that can still be read when the call assigns from it:
    to an object outside the block, or to a slot of a block that has
    room, and so is not replaced. *)
Definition stays_valid (v : SimpleVector T) (value : reference T) : Prop :=
  match value with
  | Outside _ => True
  | Slot index => size_ v < capacity_ v ∧ index < capacity_ v
  end.
End invariant.

(** ** Calling code *)

(** Which of the two headers the calling code includes. *)
Inductive header : Type :=
  | simple_vector        (* simple_vector.h *)
  | second_header.       (* its near-duplicate *)

#[export] Instance header_eq_dec : EqDecision header.
Proof. solve_decision. Defined.

(** The members that differ between the headers, by header. *)
Module Call.
Section call.
Context `{Element T}.
Local Abbreviation vec := (SimpleVector T).

Definition of_reserve (h : header) : ReserveProxyObj → res vec :=
  match h with
  | simple_vector => simple_vector_h.of_reserve
  | second_header => part_000.of_reserve
  end.
Definition of_fill (h : header) : nat → T → res vec :=
  match h with
  | simple_vector => simple_vector_h.of_fill
  | second_header => part_000.of_fill
  end.
Definition of_list (h : header) : list T → res vec :=
  match h with
  | simple_vector => simple_vector_h.of_list
  | second_header => part_000.of_list
  end.
Definition Reserve (h : header) : vec → nat → res vec :=
  match h with
  | simple_vector => simple_vector_h.Reserve
  | second_header => part_000.Reserve
  end.
Definition Resize (h : header) : vec → nat → res vec :=
  match h with
  | simple_vector => simple_vector_h.Resize
  | second_header => part_000.Resize
  end.
Definition PushBack (h : header)
    : overload → vec → reference T → res vec :=
  match h with
  | simple_vector => simple_vector_h.PushBack
  | second_header => part_000.PushBack
  end.
Definition Insert (h : header)
    : overload → vec → nat → reference T → res (vec * nat) :=
  match h with
  | simple_vector => simple_vector_h.Insert
  | second_header => part_000.Insert
  end.
Definition Erase (h : header) : vec → nat → res (vec * nat) :=
  match h with
  | simple_vector => simple_vector_h.Erase
  | second_header => part_000.Erase
  end.

(** [for (const Type& x : xs) v.PushBack(x);] for a container [xs] other
    than [v] *)
Fixpoint push_back_each (h : header) (v : vec) (xs : list T) : res vec :=
  match xs with
  | [] => Ok v
  | x :: xs =>
      v ← PushBack h by_const_ref v (Outside x); push_back_each h v xs
  end.
End call.
End Call.

(** ** Programs

    A sequence of calls of the public interface on a store of vectors,
    under one header or the other, with what each call returns and what
    [GetSize], [GetCapacity] and the iterator range show of every vector
    after it.  The values a program passes to [PushBack] and [Insert]
    are objects of its own, not elements of a vector. *)

Inductive comparison_op : Type :=
  op_eq | op_ne | op_lt | op_gt | op_le | op_ge.

Inductive statement (T : Type) : Type :=
  | New                                   (* SimpleVector<T> v; *)
  | NewReserve (n : nat)                  (* SimpleVector<T> v(Reserve(n)); *)
  | NewSize (n : nat)                     (* SimpleVector<T> v(n); *)
  | NewFill (n : nat) (x : T)             (* SimpleVector<T> v(n, x); *)
  | NewList (init : list T)               (* SimpleVector<T> v{...}; *)
  | NewCopy (other : nat)                 (* SimpleVector<T> v(other); *)
  | NewMove (other : nat)                 (* ... v(std::move(other)); *)
  | CopyAssign (this other : nat)         (* this = other; *)
  | MoveAssign (this other : nat)         (* this = std::move(other); *)
  | Swap (this other : nat)               (* this.swap(other); *)
  | DoReserve (this n : nat)
  | DoResize (this n : nat)
  | DoPushBack (this : nat) (x : T)
  | DoInsert (this pos : nat) (x : T)     (* this.Insert(begin() + pos, x); *)
  | DoErase (this pos : nat)              (* this.Erase(begin() + pos); *)
  | DoClear (this : nat)
  | DoPopBack (this : nat)
  | DoAt (this index : nat)               (* try { this.At(index); } *)
  | DoSubscript (this index : nat)        (* this[index]; *)
  | DoIsEmpty (this : nat)
  | DoCompare (c : comparison_op) (lhs rhs : nat).
Arguments New {T}.
Arguments NewReserve {T} n.
Arguments NewSize {T} n.
Arguments NewFill {T} n x.
Arguments NewList {T} init.
Arguments NewCopy {T} other.
Arguments NewMove {T} other.
Arguments CopyAssign {T} this other.
Arguments MoveAssign {T} this other.
Arguments Swap {T} this other.
Arguments DoReserve {T} this n.
Arguments DoResize {T} this n.
Arguments DoPushBack {T} this x.
Arguments DoInsert {T} this pos x.
Arguments DoErase {T} this pos.
Arguments DoClear {T} this.
Arguments DoPopBack {T} this.
Arguments DoAt {T} this index.
Arguments DoSubscript {T} this index.
Arguments DoIsEmpty {T} this.
Arguments DoCompare {T} c lhs rhs.

(** what a call hands back to the program *)
Inductive outcome (T : Type) : Type :=
  | Returned
  | ReturnedElement (x : T)
  | ReturnedIterator (pos : nat)
  | ReturnedBool (b : bool)
  | Threw.                                (* std::out_of_range, caught *)
Arguments Returned {T}.
Arguments ReturnedElement {T} x.
Arguments ReturnedIterator {T} pos.
Arguments ReturnedBool {T} b.
Arguments Threw {T}.

(** what the queries show of one vector *)
Record observation (T : Type) : Type := {
  seen_size : nat;
  seen_capacity : nat;
  seen_elements : list T
}.
Arguments seen_size {T} _.
Arguments seen_capacity {T} _.
Arguments seen_elements {T} _.

Section programs.
Context `{Element T}.
Local Abbreviation vec := (SimpleVector T).
Local Abbreviation objects := (list (SimpleVector T)).

Definition compare (c : comparison_op) (lhs rhs : vec) : bool :=
  match c with
  | op_eq => eq_op lhs rhs
  | op_ne => ne_op lhs rhs
  | op_lt => lt_op lhs rhs
  | op_gt => gt_op lhs rhs
  | op_le => le_op lhs rhs
  | op_ge => ge_op lhs rhs
  end.

Definition declare (v : res vec) (σ : objects)
    : res (objects * outcome T) :=
  v ← v; Ok (σ ++ [v], Returned).

Definition call_void (this : nat) (f : vec → res vec) (σ : objects)
    : res (objects * outcome T) :=
  σ ← call this f σ; Ok (σ, Returned).

Definition call_iterator (this : nat) (f : vec → res (vec * nat))
    (σ : objects) : res (objects * outcome T) :=
  v ← get this σ;
  '(v, pos) ← f v;
  Ok (<[this:=v]> σ, ReturnedIterator pos).

Definition read (m : res T) (σ : objects) : res (objects * outcome T) :=
  match m with
  | Ok x => Ok (σ, ReturnedElement x)
  | OutOfRange => Ok (σ, Threw)
  | Undefined => Undefined
  end.

Definition exec (h : header) (st : statement T) (σ : objects)
    : res (objects * outcome T) :=
  match st with
  | New => declare (Ok empty) σ
  | NewReserve n => declare (Call.of_reserve h (Reserve_proxy n)) σ
  | NewSize n => declare (Ok (of_size n)) σ
  | NewFill n x => declare (Call.of_fill h n x) σ
  | NewList init => declare (Call.of_list h init) σ
  | NewCopy other => '(σ, _) ← copy_construct other σ; Ok (σ, Returned)
  | NewMove other => '(σ, _) ← move_construct other σ; Ok (σ, Returned)
  | CopyAssign this other =>
      σ ← copy_assign this other σ; Ok (σ, Returned)
  | MoveAssign this other =>
      σ ← move_assign this other σ; Ok (σ, Returned)
  | Swap this other => σ ← swap this other σ; Ok (σ, Returned)
  | DoReserve this n => call_void this (λ v, Call.Reserve h v n) σ
  | DoResize this n => call_void this (λ v, Call.Resize h v n) σ
  | DoPushBack this x =>
      call_void this (λ v, Call.PushBack h by_const_ref v (Outside x)) σ
  | DoInsert this pos x =>
      call_iterator this
        (λ v, Call.Insert h by_const_ref v pos (Outside x)) σ
  | DoErase this pos => call_iterator this (λ v, Call.Erase h v pos) σ
  | DoClear this => call_void this (λ v, Ok (Clear v)) σ
  | DoPopBack this => call_void this (λ v, Ok (PopBack v)) σ
  | DoAt this index => v ← get this σ; read (At v index) σ
  | DoSubscript this index => v ← get this σ; read (subscript v index) σ
  | DoIsEmpty this => v ← get this σ; Ok (σ, ReturnedBool (IsEmpty v))
  | DoCompare c lhs rhs =>
      a ← get lhs σ; b ← get rhs σ; Ok (σ, ReturnedBool (compare c a b))
  end.

Definition observe (v : vec) : observation T :=
  {| seen_size := GetSize v; seen_capacity := GetCapacity v;
     seen_elements := elements v |}.

(** the outcome of each statement and the vectors as they are after it *)
Fixpoint run (h : header) (prog : list (statement T)) (σ : objects)
    : res (list (outcome T * list (observation T))) :=
  match prog with
  | [] => Ok []
  | st :: prog =>
      '(σ, o) ← exec h st σ;
      t ← run h prog σ;
      Ok ((o, observe <$> σ) :: t)
  end.

(** Two observations that differ at most in a capacity of 1 against 0. *)
Definition same_but_capacity (a b : observation T) : Prop :=
  seen_size a = seen_size b
  ∧ seen_elements a = seen_elements b
  ∧ (seen_capacity a = seen_capacity b
     ∨ seen_capacity a = 1 ∧ seen_capacity b = 0).

Definition same_step (a b : outcome T * list (observation T)) : Prop :=
  a.1 = b.1 ∧ Forall2 same_but_capacity a.2 b.2.

(** ** Two vectors that went through the same calls, one under each
    header *)

(** Two pointers to blocks with the same slots: equal, or one null and
    the other to a block of no slots. *)
Definition same_slots (p q : ArrayPtr.t T) : Prop :=
  ArrayPtr.slots p = ArrayPtr.slots q.

(** the same in every slot *)
Definition sync (a b : vec) : Prop :=
  size_ a = size_ b ∧ capacity_ a = capacity_ b
  ∧ same_slots (data_ a) (data_ b).

(** simple_vector.h has allocated its first slot, the other has not *)
Definition ahead (a b : vec) : Prop :=
  a = {| data_ := Some [value_init]; size_ := 0; capacity_ := 1 |}
  ∧ size_ b = 0 ∧ capacity_ b = 0.

Definition sim (a b : vec) : Prop :=
  wf a ∧ wf b ∧ (sync a b ∨ ahead a b).

(** [operator[]] is the one call that tells the two apart by its
    behaviour being defined or not: it may read the slot that
    simple_vector.h has allocated ahead. *)
Definition is_subscript (st : statement T) : bool :=
  match st with DoSubscript _ _ => true | _ => false end.
End programs.

(** Two outcomes of the same kind, with related results. *)
Definition res_rel {A B : Type} (R : A → B → Prop)
    (m1 : res A) (m2 : res B) : Prop :=
  match m1, m2 with
  | Ok a, Ok b => R a b
  | OutOfRange, OutOfRange => True
  | Undefined, Undefined => True
  | _, _ => False
  end.

(** ** Element types whose [operator<] is a strict total order *)

(** What [std::lexicographical_compare] needs of [operator<] for the six
    comparisons of two vectors to fit together: no two elements are each
    less than the other, less-than is transitive, and two elements
    neither of which is less than the other are equal. *)
Record strict_total_order (T : Type) `{Element T} : Prop := {
  lt_asym : ∀ x y : T, elem_lt x y = true → elem_lt y x = false;
  lt_trans : ∀ x y z : T,
    elem_lt x y = true → elem_lt y z = true → elem_lt x z = true;
  lt_connex : ∀ x y : T, elem_lt x y = false → elem_lt y x = false → x = y
}.

(** ** array_ptr.h with addresses

    The blocks of [ArrayPtr] above are values, which is all the vector
    needs.  To follow which object holds which block, and which blocks
    [delete[]] has ended, the members of [ArrayPtr] are stated here on a
    heap: [new[]] makes a block at a fresh address, [delete[]] ends the
    block at an address, and an [ArrayPtr] object is its one field
    [raw_ptr_], null or an address.  Objects are named by the order of
    their declarations. *)

Module Heap.
Inductive block (T : Type) : Type :=
  | Live (slots : list T)       (* made by new[], not deleted yet *)
  | Freed.                      (* ended by delete[] *)
Arguments Live {T} slots.
Arguments Freed {T}.

(** [Type*]: null or the address of a block *)
Abbreviation pointer := (option nat).

Record state (T : Type) : Type := {
  blocks : list (block T);      (* the heap, by address *)
  raw_ptr_ : list pointer       (* the field of each object, by name *)
}.
Arguments blocks {T} _.
Arguments raw_ptr_ {T} _.

Section heap.
Context `{Element T}.
Local Abbreviation heap := (list (block T)).
Local Abbreviation state := (state T).

Definition is_live (m : heap) (a : nat) : bool :=
  match m !! a with Some (Live _) => true | _ => false end.

(** [new Type[n]], with the slots as the constructor leaves them *)
Definition new_array (slots : list T) (m : heap) : heap * pointer :=
  (m ++ [Live slots], Some (length m)).

(** [delete[] p]: nothing for a null pointer; undefined for an address
    that is not a live block *)
Definition delete_array (p : pointer) (m : heap) : res heap :=
  match p with
  | None => Ok m
  | Some a => if is_live m a then Ok (<[a:=Freed]> m) else Undefined
  end.

(** a new object whose field is [p] *)
Definition declare (p : pointer) (s : state) : state :=
  {| blocks := blocks s; raw_ptr_ := raw_ptr_ s ++ [p] |}.

(** a new object for what a constructor of [ArrayPtr] above has built:
    null, or a new block with those slots *)
Definition place (p : ArrayPtr.t T) (s : state) : state :=
  match p with
  | None => declare None s
  | Some slots =>
      let '(m, a) := new_array slots (blocks s) in
      declare a {| blocks := m; raw_ptr_ := raw_ptr_ s |}
  end.

(** the five constructors *)
Definition ArrayPtr_default (s : state) : state := declare None s.
Definition ArrayPtr_size (size : nat) (s : state) : state :=
  place (ArrayPtr.make size) s.
Definition ArrayPtr_fill (size : nat) (value : T) (s : state) : res state :=
  p ← ArrayPtr.make_fill size value; Ok (place p s).
Definition ArrayPtr_init (init : list T) (s : state) : res state :=
  p ← ArrayPtr.make_init init; Ok (place p s).
Definition ArrayPtr_raw (raw_ptr : pointer) (s : state) : state :=
  declare raw_ptr s.

(** reading and writing the field of an object *)
Definition get (name : nat) (s : state) : res pointer :=
  match raw_ptr_ s !! name with Some p => Ok p | None => Undefined end.
Definition set (name : nat) (p : pointer) (s : state) : res state :=
  if decide (name < length (raw_ptr_ s)) then
    Ok {| blocks := blocks s; raw_ptr_ := <[name:=p]> (raw_ptr_ s) |}
  else Undefined.

(** [MoveFrom(other)]: [raw_ptr_ = std::exchange(other.raw_ptr_, nullptr)] *)
Definition MoveFrom (this other : nat) (s : state) : res state :=
  old ← get other s;
  s ← set other None s;
  set this old s.

(** [ArrayPtr(ArrayPtr&& other)]; the member initialiser makes the field
    null first *)
Definition move_construct (other : nat) (s : state) : res state :=
  MoveFrom (length (raw_ptr_ s)) other (declare None s).

(** [operator=(ArrayPtr&& other)] *)
Definition move_assign (this other : nat) (s : state) : res state :=
  MoveFrom this other s.

(** [~ArrayPtr()] *)
Definition destroy (this : nat) (s : state) : res state :=
  p ← get this s;
  m ← delete_array p (blocks s);
  Ok {| blocks := m; raw_ptr_ := raw_ptr_ s |}.

(** [Release()] *)
Definition Release (this : nat) (s : state) : res (pointer * state) :=
  ptr ← get this s;
  s ← set this None s;
  Ok (ptr, s).

(** [operator bool] and [Get()] *)
Definition to_bool (this : nat) (s : state) : res bool :=
  p ← get this s; Ok (bool_decide (p ≠ None)).
Definition Get (this : nat) (s : state) : res pointer := get this s.

(** [swap(other)]: [std::swap] of the two fields through a temporary *)
Definition swap (this other : nat) (s : state) : res state :=
  tmp ← get this s;
  o ← get other s;
  s ← set this o s;
  set other tmp s.

(** The end of the scope of the first [n] objects: their destructors
    run, the last declared first. *)
Fixpoint destroy_first (n : nat) (s : state) : res state :=
  match n with
  | 0 => Ok s
  | S n => s ← destroy n s; destroy_first n s
  end.
Definition leave_scope (s : state) : res state :=
  destroy_first (length (raw_ptr_ s)) s.

(** The end of an inner scope that declared one object: the object
    declared last is destroyed and is no more. *)
Definition leave_last (s : state) : res state :=
  let last := length (raw_ptr_ s) - 1 in
  s ← destroy last s;
  Ok {| blocks := blocks s; raw_ptr_ := take last (raw_ptr_ s) |}.

(** the addresses the objects hold *)
Definition owned (s : state) : list nat := omap id (raw_ptr_ s).

(** Every block that an object holds is live and held by that object
    alone. *)
Definition sound (s : state) : Prop :=
  NoDup (owned s) ∧ Forall (λ a, is_live (blocks s) a = true) (owned s).

(** a live block that no object holds *)
Definition leaked (s : state) (a : nat) : Prop :=
  is_live (blocks s) a = true ∧ a ∉ owned s.

#[global] Instance sound_dec s : Decision (sound s).
Proof. unfold sound. apply _. Defined.
#[global] Instance leaked_dec s a : Decision (leaked s a).
Proof. unfold leaked. apply _. Defined.
End heap.
End Heap.

(** ** Sample objects *)

(** [SimpleVector<int>] after [PushBack(1)], [PushBack(2)], [PushBack(3)] *)
Definition v123 : SimpleVector Z :=
  {| data_ := Some [1; 2; 3; 0]%Z; size_ := 3; capacity_ := 4 |}.

(** a full vector *)
Definition v12 : SimpleVector Z :=
  {| data_ := Some [1; 2]%Z; size_ := 2; capacity_ := 2 |}.

(** a program that meets the one difference between the headers, and what
    it shows under the second header *)
Definition sample_program : list (statement Z) :=
  [New; DoReserve 0 0; DoPushBack 0 5%Z; DoAt 0 1; DoAt 0 0; NewCopy 0;
   DoInsert 1 0 7%Z; DoCompare op_lt 0 1; MoveAssign 0 0; CopyAssign 1 1;
   Swap 0 1; NewMove 0; DoErase 2 1; DoResize 2 4; DoSubscript 2 3].

Definition sample_trace : list (outcome Z * list (observation Z)) :=
  Eval vm_compute in
    match run second_header sample_program [] with
    | Ok t => t
    | _ => []
    end.

(** [v123] after [v.Insert(v.begin(), v[2])] *)
Definition v2123 : SimpleVector Z :=
  {| data_ := Some [2; 1; 2; 3]%Z; size_ := 4; capacity_ := 4 |}.

(** [SimpleVector<int>] of [2^31 + 6] elements, and the position
    [begin() + 2^31 + 5] in it *)
Definition long_vector : SimpleVector Z := of_size (2 ^ 31 + 6).
Definition far_position : nat := 2 ^ 31 + 5.

(** [v123] in a buffer without spare capacity *)
Definition v123_tight : SimpleVector Z :=
  {| data_ := Some [1; 2; 3]%Z; size_ := 3; capacity_ := 3 |}.

(** two [ArrayPtr<int>] that hold a block each, and a null one *)
Definition three_pointers : Heap.state Z :=
  {| Heap.blocks := [Heap.Live [1; 2]%Z; Heap.Live [3]%Z];
     Heap.raw_ptr_ := [Some 0; Some 1; None] |}.

(** * Properties *)

(** ** The loops *)

Section algorithm_facts.
Context `{Element T}.
Implicit Types (b sb db : list T) (p : ArrayPtr.t T) (x : T).

Lemma load_Some b i x : b !! i = Some x → ArrayPtr.load (Some b) i = Ok x.
Proof. intros Hx. unfold ArrayPtr.load. by rewrite Hx. Qed.

Lemma store_Some b i x :
  i < length b → ArrayPtr.store (Some b) i x = Ok (Some (<[i:=x]> b)).
Proof. intros Hi. unfold ArrayPtr.store. by rewrite decide_True. Qed.

Lemma fill_Some n : ∀ b first x,
  first + n ≤ length b →
  ArrayPtr.fill (Some b) first n x
  = Ok (Some (take first b ++ replicate n x ++ drop (first + n) b)).
Proof.
  induction n as [|n IH]; intros b first x Hlen; cbn [ArrayPtr.fill].
  - cbn [replicate app]. by rewrite Nat.add_0_r, take_drop.
  - rewrite store_Some by lia. cbn [mbind res_bind].
    rewrite IH by (rewrite length_insert; lia).
    do 2 f_equal.
    rewrite (take_S_r _ _ x) by (apply list_lookup_insert_eq; lia).
    rewrite take_insert_ge, drop_insert_lt by lia.
    rewrite <- app_assoc. cbn [replicate app].
    by replace (S first + n) with (first + S n) by lia.
Qed.

Lemma std_copy_Some n : ∀ sb first db d_first,
  first + n ≤ length sb → d_first + n ≤ length db →
  std_copy (Some sb) first n (Some db) d_first
  = Ok (Some (take d_first db ++ take n (drop first sb)
              ++ drop (d_first + n) db)).
Proof.
  induction n as [|n IH]; intros sb first db d_first Hs Hd;
    cbn [std_copy].
  - rewrite firstn_O. cbn [app]. by rewrite Nat.add_0_r, take_drop.
  - destruct (lookup_lt_is_Some_2 sb first) as [y Hy]; [lia|].
    rewrite (load_Some _ _ _ Hy). cbn [mbind res_bind].
    rewrite store_Some by lia. cbn [mbind res_bind].
    rewrite IH by (rewrite ?length_insert; lia).
    do 2 f_equal.
    rewrite (take_S_r _ _ y) by (apply list_lookup_insert_eq; lia).
    rewrite take_insert_ge, drop_insert_lt by lia.
    rewrite (drop_S _ _ _ Hy), <- app_assoc, firstn_cons. cbn [app].
    by replace (S d_first + n) with (d_first + S n) by lia.
Qed.

Lemma std_copy_move_Some n : ∀ sb first db d_first,
  first + n ≤ length sb → d_first + n ≤ length db →
  ∃ sb', std_copy_move (Some sb) first n (Some db) d_first
  = Ok (Some sb', Some (take d_first db ++ take n (drop first sb)
                        ++ drop (d_first + n) db)).
Proof.
  induction n as [|n IH]; intros sb first db d_first Hs Hd;
    cbn [std_copy_move].
  - exists sb. rewrite firstn_O. cbn [app]. by rewrite Nat.add_0_r, take_drop.
  - destruct (lookup_lt_is_Some_2 sb first) as [y Hy]; [lia|].
    rewrite (load_Some _ _ _ Hy). cbn [mbind res_bind].
    rewrite !store_Some by lia. cbn [mbind res_bind].
    destruct (IH (<[first:=moved_from y]> sb) (S first)
                (<[d_first:=y]> db) (S d_first)) as [sb' ->];
      [rewrite length_insert; lia ..|].
    exists sb'. do 3 f_equal.
    rewrite (take_S_r _ _ y) by (apply list_lookup_insert_eq; lia).
    rewrite take_insert_ge, !drop_insert_lt by lia.
    rewrite (drop_S _ _ _ Hy), <- app_assoc, firstn_cons. cbn [app].
    by replace (S d_first + n) with (d_first + S n) by lia.
Qed.

(** Shifting left by one inside a block: what [Erase] runs. *)
Lemma std_move_left n : ∀ b d,
  S d + n ≤ length b →
  ∃ b', std_move (Some b) (S d) n d = Ok (Some b')
    ∧ length b' = length b
    ∧ (∀ i, i < d → b' !! i = b !! i)
    ∧ (∀ i, d ≤ i < d + n → b' !! i = b !! S i)
    ∧ (∀ i, d + n < i → b' !! i = b !! i).
Proof.
  induction n as [|n IH]; intros b d Hlen; cbn [std_move].
  - exists b. repeat split; auto. intros; lia.
  - destruct (lookup_lt_is_Some_2 b (S d)) as [y Hy]; [lia|].
    rewrite (load_Some _ _ _ Hy). cbn [mbind res_bind].
    rewrite store_Some by lia. cbn [mbind res_bind].
    rewrite store_Some by (rewrite length_insert; lia).
    cbn [mbind res_bind].
    destruct (IH (<[S d:=moved_from y]> (<[d:=y]> b)) (S d))
      as (b' & -> & Hl & Hlo & Hmid & Hhi);
      [rewrite !length_insert; lia|].
    rewrite !length_insert in Hl.
    exists b'. split_and!; [done|done|..].
    + intros i Hi. rewrite Hlo by lia.
      by rewrite !list_lookup_insert_ne by lia.
    + intros i Hi. destruct (decide (i = d)) as [->|].
      * rewrite Hlo by lia. rewrite list_lookup_insert_ne by lia.
        rewrite list_lookup_insert_eq by lia. done.
      * rewrite Hmid by lia. by rewrite !list_lookup_insert_ne by lia.
    + intros i Hi. rewrite Hhi by lia.
      by rewrite !list_lookup_insert_ne by lia.
Qed.

(** Shifting right by one inside a block: what [Insert] runs. *)
Lemma std_move_backward_right n : ∀ b last,
  n ≤ last → last < length b →
  ∃ b', std_move_backward (Some b) n last (S last) = Ok (Some b')
    ∧ length b' = length b
    ∧ (∀ i, i < last - n → b' !! i = b !! i)
    ∧ (∀ i, last - n ≤ i < last → b' !! S i = b !! i)
    ∧ (∀ i, last < i → b' !! i = b !! i).
Proof.
  induction n as [|n IH]; intros b last Hn Hlen; cbn [std_move_backward].
  - exists b. repeat split; auto. intros; lia.
  - destruct last as [|last]; [lia|].
    destruct (lookup_lt_is_Some_2 b last) as [y Hy]; [lia|].
    rewrite (load_Some _ _ _ Hy). cbn [mbind res_bind].
    rewrite store_Some by lia. cbn [mbind res_bind].
    rewrite store_Some by (rewrite length_insert; lia).
    cbn [mbind res_bind].
    destruct (IH (<[last:=moved_from y]> (<[S last:=y]> b)) last)
      as (b' & -> & Hl & Hlo & Hmid & Hhi);
      [lia|rewrite !length_insert; lia|].
    rewrite !length_insert in Hl.
    exists b'. split_and!; [done|done|..].
    + intros i Hi. rewrite Hlo by lia.
      by rewrite !list_lookup_insert_ne by lia.
    + intros i Hi. destruct (decide (i = last)) as [->|].
      * rewrite Hhi by lia. rewrite list_lookup_insert_ne by lia.
        rewrite list_lookup_insert_eq by lia. done.
      * rewrite Hmid by lia. by rewrite !list_lookup_insert_ne by lia.
    + intros i Hi. rewrite Hhi by lia.
      by rewrite !list_lookup_insert_ne by lia.
Qed.
End algorithm_facts.

(** ** Offsets and references *)

Section argument_facts.
Context `{Element T}.
Implicit Types (v : SimpleVector T) (x : T) (d : ArrayPtr.t T).

(** A position that an [int] holds is the position the code works at. *)
Lemma advance_in_int v p :
  (Z.of_nat p ≤ INT_MAX)%Z →
  advance (begin v) (to_int (Z.of_nat p - Z.of_nat (begin v))) = Ok p.
Proof.
  intros Hp. unfold advance, to_int, begin, INT_MAX in *.
  rewrite Z.sub_0_r, Z.add_0_l.
  replace ((Z.of_nat p + 2 ^ 31) `mod` 2 ^ 32 - 2 ^ 31)%Z with (Z.of_nat p).
  - rewrite decide_True by lia. by rewrite Nat2Z.id.
  - rewrite Z.mod_small; lia.
Qed.

(** From [2^31] on the [int] is negative, up to [2^32]. *)
Lemma advance_past_int v p :
  (INT_MAX < Z.of_nat p < 2 ^ 32)%Z →
  advance (begin v) (to_int (Z.of_nat p - Z.of_nat (begin v))) = Undefined.
Proof.
  intros Hp. unfold advance, to_int, begin, INT_MAX in *.
  rewrite Z.sub_0_r, Z.add_0_l.
  replace ((Z.of_nat p + 2 ^ 31) `mod` 2 ^ 32)%Z
    with (Z.of_nat p - 2 ^ 31)%Z.
  - by rewrite decide_False by lia.
  - apply (Z.mod_unique _ _ 1); lia.
Qed.

(** The iterator does not depend on the vector: [begin()] is the
    offset 0. *)
Lemma advance_begin v v' offset :
  advance (begin v') offset = advance (begin v) offset.
Proof. done. Qed.

Lemma assign_Outside o deleted d i x :
  assign o deleted d i (Outside x) = ArrayPtr.store d i x.
Proof.
  unfold assign. cbn [deref mbind res_bind].
  by destruct o, (ArrayPtr.store d i x).
Qed.

(** An element of the vector passed by const reference is read as it is
    when the block has not been replaced. *)
Lemma assign_Slot d i source x :
  ArrayPtr.load d source = Ok x →
  assign by_const_ref false d i (Slot source) = ArrayPtr.store d i x.
Proof.
  intros Hx. unfold assign. cbn [deref]. rewrite Hx. cbn [mbind res_bind].
  by destruct (ArrayPtr.store d i x).
Qed.

Lemma assign_dangling o d i source :
  assign o true d i (Slot source) = Undefined.
Proof. done. Qed.
End argument_facts.

(** ** One vector *)

Section vector_facts.
Context `{Element T}.
Implicit Types (v : SimpleVector T) (b : list T) (x : T).

Lemma wf_block v b : wf v → data_ v = Some b → length b = capacity_ v.
Proof. intros [_ Hlen] Hd. by rewrite Hd in Hlen. Qed.

Lemma wf_null v : wf v → data_ v = None → size_ v = 0 ∧ capacity_ v = 0.
Proof. intros [Hle Hlen] Hd. rewrite Hd in Hlen. simpl in Hlen. lia. Qed.

Lemma length_elements v : wf v → length (elements v) = size_ v.
Proof. intros [Hle Hlen]. unfold elements. rewrite length_take. lia. Qed.

Lemma elements_lookup v i :
  i < size_ v → elements v !! i = ArrayPtr.slots (data_ v) !! i.
Proof. intros Hi. unfold elements. by rewrite lookup_take_lt. Qed.

Lemma wf_empty : wf (empty (T:=T)).
Proof. by split. Qed.

Lemma wf_of_size n : wf (of_size (T:=T) n).
Proof.
  split; [done|]. unfold of_size, ArrayPtr.make. simpl.
  case_decide; simpl; [done|]. by rewrite length_replicate.
Qed.

Lemma assign_from_Some (init : list T) : ∀ b counter,
  counter + length init ≤ length b →
  ArrayPtr.assign_from (Some b) counter init
  = Ok (Some (take counter b ++ init ++ drop (counter + length init) b)).
Proof.
  induction init as [|x init IH]; intros b counter Hlen;
    cbn [ArrayPtr.assign_from].
  - cbn [app length]. by rewrite Nat.add_0_r, take_drop.
  - cbn [length] in Hlen. rewrite store_Some by lia.
    cbn [mbind res_bind]. rewrite IH by (rewrite length_insert; lia).
    do 2 f_equal.
    rewrite (take_S_r _ _ x) by (apply list_lookup_insert_eq; lia).
    rewrite take_insert_ge, drop_insert_lt by lia.
    rewrite <- app_assoc. cbn [app length].
    by replace (S counter + length init)
      with (counter + S (length init)) by lia.
Qed.

(** The block a reallocation to [N] slots leaves behind. *)
Lemma reallocate v N :
  wf v → size_ v ≤ N → N ≠ 0 →
  ('(_, temp) ← std_copy_move (data_ v) (begin v) (end_ v - begin v)
                  (ArrayPtr.make N) 0;
   Ok {| data_ := temp; size_ := size_ v; capacity_ := N |})
  = Ok {| data_ := Some (elements v ++ replicate (N - size_ v) value_init);
          size_ := size_ v; capacity_ := N |}.
Proof.
  intros Hwf HN HN0. unfold ArrayPtr.make, begin, end_.
  rewrite decide_False by done. rewrite Nat.sub_0_r.
  destruct (data_ v) as [b|] eqn:Hd.
  - pose proof (wf_block _ _ Hwf Hd) as Hb. destruct Hwf as [Hle _].
    destruct (std_copy_move_Some (size_ v) b 0
                (replicate N value_init) 0) as [b' ->];
      [lia|rewrite length_replicate; lia|].
    cbn [mbind res_bind]. unfold elements. rewrite Hd. simpl.
    by rewrite drop_replicate.
  - destruct (wf_null _ Hwf Hd) as [Hs _]. unfold elements.
    rewrite Hs, Hd. simpl. by rewrite Nat.sub_0_r.
Qed.

Lemma wf_reallocated v N :
  wf v → size_ v ≤ N →
  wf {| data_ := Some (elements v ++ replicate (N - size_ v) value_init);
        size_ := size_ v; capacity_ := N |}.
Proof.
  intros Hwf HN. split; simpl; [done|].
  rewrite length_app, length_replicate, length_elements by done. lia.
Qed.

Lemma elements_reallocated v l N :
  wf v →
  elements {| data_ := Some (elements v ++ l);
              size_ := size_ v; capacity_ := N |} = elements v.
Proof.
  intros Hwf. unfold elements at 1. simpl.
  by rewrite take_app_length' by (by rewrite length_elements).
Qed.

(** The last steps of [PushBack], once there is room. *)
Lemma push_back_tail v x :
  wf v → size_ v < capacity_ v →
  ∃ d, ArrayPtr.store (data_ v) (size_ v) x = Ok d
    ∧ wf {| data_ := d; size_ := S (size_ v); capacity_ := capacity_ v |}
    ∧ elements {| data_ := d; size_ := S (size_ v);
                  capacity_ := capacity_ v |} = elements v ++ [x].
Proof.
  intros Hwf Hlt. destruct (data_ v) as [b|] eqn:Hd.
  - pose proof (wf_block _ _ Hwf Hd) as Hb.
    rewrite store_Some by lia. eexists; split; [done|]. split.
    + split; simpl; [lia|]. by rewrite length_insert.
    + unfold elements. simpl. rewrite Hd. simpl.
      rewrite (take_S_r _ _ x) by (apply list_lookup_insert_eq; lia).
      by rewrite take_insert_ge by lia.
  - destruct (wf_null _ Hwf Hd). lia.
Qed.

(** The last steps of [Insert], once there is room. *)
Lemma insert_tail v p x :
  wf v → size_ v < capacity_ v → p ≤ size_ v →
  ∃ d1 d,
    std_move_backward (data_ v) (size_ v - p) (size_ v) (S (size_ v))
    = Ok d1
    ∧ ArrayPtr.store d1 p x = Ok d
    ∧ wf {| data_ := d; size_ := S (size_ v); capacity_ := capacity_ v |}
    ∧ elements {| data_ := d; size_ := S (size_ v);
                  capacity_ := capacity_ v |}
      = take p (elements v) ++ x :: drop p (elements v).
Proof.
  intros Hwf Hlt Hp. destruct (data_ v) as [b|] eqn:Hd.
  2:{ destruct (wf_null _ Hwf Hd). lia. }
  pose proof (wf_block _ _ Hwf Hd) as Hb.
  destruct (std_move_backward_right (size_ v - p) b (size_ v))
    as (b' & Hrun & Hl & Hlo & Hmid & Hhi); [lia..|].
  exists (Some b'), (Some (<[p:=x]> b')).
  split; [done|]. split; [by rewrite store_Some by lia|]. split.
  - split; simpl; [lia|]. rewrite length_insert. lia.
  - unfold elements. simpl. rewrite Hd. simpl.
    apply list_eq. intros i.
    destruct (decide (i < S (size_ v))) as [Hi|Hi].
    + rewrite lookup_take_lt by done.
      destruct (decide (i < p)) as [Hip|Hip].
      * rewrite list_lookup_insert_ne by lia.
        rewrite lookup_app_l by (rewrite !length_take; lia).
        rewrite !lookup_take_lt by lia. apply Hlo. lia.
      * rewrite lookup_app_r by (rewrite !length_take; lia).
        rewrite !length_take.
        replace (p `min` (size_ v `min` length b)) with p by lia.
        destruct (decide (i = p)) as [->|Hne].
        -- rewrite list_lookup_insert_eq by lia.
           by rewrite Nat.sub_diag.
        -- rewrite list_lookup_insert_ne by lia.
           destruct i as [|i]; [lia|].
           replace (S i - p) with (S (i - p)) by lia. simpl.
           rewrite lookup_drop, lookup_take_lt by lia.
           rewrite Hmid by lia. f_equal. lia.
    + rewrite lookup_take_ge by lia. symmetry.
      apply lookup_ge_None_2. rewrite length_app. simpl.
      rewrite length_take, length_drop, length_take. lia.
Qed.

(** The steps of [Erase]. *)
Lemma erase_tail v p :
  wf v → p < size_ v →
  ∃ d, std_move (data_ v) (S p) (size_ v - S p) p = Ok d
    ∧ wf {| data_ := d; size_ := size_ v - 1; capacity_ := capacity_ v |}
    ∧ elements {| data_ := d; size_ := size_ v - 1;
                  capacity_ := capacity_ v |} = delete p (elements v).
Proof.
  intros Hwf Hp. destruct (data_ v) as [b|] eqn:Hd.
  2:{ destruct (wf_null _ Hwf Hd). lia. }
  pose proof (wf_block _ _ Hwf Hd) as Hb. destruct Hwf as [Hle _].
  destruct (std_move_left (size_ v - S p) b p)
    as (b' & Hrun & Hl & Hlo & Hmid & Hhi); [lia|].
  rewrite Hrun.
  eexists; split; [done|]. split.
  - split; simpl; lia.
  - unfold elements. simpl. rewrite Hd. simpl.
    apply list_eq. intros i.
    destruct (decide (i < size_ v - 1)) as [Hi|Hi].
    + rewrite lookup_take_lt by done.
      destruct (decide (i < p)) as [Hip|Hip].
      * rewrite list_lookup_delete_lt by done.
        rewrite lookup_take_lt by lia. apply Hlo. lia.
      * rewrite list_lookup_delete_ge by lia.
        rewrite lookup_take_lt by lia. apply Hmid. lia.
    + rewrite lookup_take_ge by lia. symmetry.
      apply lookup_ge_None_2. rewrite length_delete.
      * rewrite length_take. lia.
      * apply lookup_lt_is_Some_2. rewrite length_take. lia.
Qed.

(** [std::fill] of the tail, as both [Resize]s run it. *)
Lemma resize_fill v n :
  wf v → size_ v ≤ n ≤ capacity_ v →
  ∃ d, ArrayPtr.fill (data_ v) (size_ v) (n - size_ v) value_init = Ok d
    ∧ wf {| data_ := d; size_ := n; capacity_ := capacity_ v |}
    ∧ elements {| data_ := d; size_ := n; capacity_ := capacity_ v |}
      = elements v ++ replicate (n - size_ v) value_init
    ∧ drop n (ArrayPtr.slots d) = drop n (ArrayPtr.slots (data_ v)).
Proof.
  intros Hwf Hn. destruct (data_ v) as [b|] eqn:Hd.
  - pose proof (wf_block _ _ Hwf Hd) as Hb.
    rewrite fill_Some by lia. eexists; split; [done|]. split.
    + split; simpl; [lia|].
      rewrite !length_app, length_take, length_replicate, length_drop.
      lia.
    + split.
      * unfold elements. simpl. rewrite Hd. simpl.
        rewrite take_app_ge by (rewrite length_take; lia).
        rewrite length_take_le by lia. f_equal.
        rewrite take_app_length'; [done|by rewrite length_replicate].
      * simpl. rewrite app_assoc, drop_app_length'.
        -- f_equal. lia.
        -- rewrite length_app, length_take, length_replicate. lia.
  - destruct (wf_null _ Hwf Hd) as [Hs Hc].
    replace n with 0 by lia. rewrite Hs. simpl.
    eexists; split; [done|]. split.
    + split; simpl; lia.
    + split; [|done]. unfold elements. rewrite Hd. by destruct (size_ v).
Qed.
End vector_facts.

(** ** simple_vector.h, member by member *)

Section simple_vector_h_facts.
Context `{Element T}.
Implicit Types (v : SimpleVector T) (x : T) (o : overload).
Import simple_vector_h.

Lemma sv_Reserve_keep v n :
  capacity_ v ≠ 0 → n ≤ capacity_ v → Reserve v n = Ok v.
Proof. intros. unfold Reserve. by rewrite decide_True. Qed.

Lemma sv_Reserve_grow v n :
  wf v → ¬ (capacity_ v ≠ 0 ∧ n ≤ capacity_ v) →
  Reserve v n
  = Ok {| data_ := Some (elements v
                         ++ replicate (n `max` 1 - size_ v) value_init);
          size_ := size_ v; capacity_ := n `max` 1 |}.
Proof.
  intros Hwf Hg. unfold Reserve. rewrite decide_False by done.
  apply reallocate; [done| |lia]. destruct Hwf. lia.
Qed.

Lemma sv_Reserve_spec v n :
  wf v →
  ∃ v', Reserve v n = Ok v' ∧ wf v' ∧ size_ v' = size_ v
    ∧ elements v' = elements v
    ∧ capacity_ v' = (if decide (capacity_ v ≠ 0 ∧ n ≤ capacity_ v)
                      then capacity_ v else n `max` 1).
Proof.
  intros Hwf. case_decide as Hg.
  - exists v. by rewrite sv_Reserve_keep by tauto.
  - rewrite sv_Reserve_grow by done. eexists; split; [done|].
    split_and!; [|done| |done].
    + apply wf_reallocated; [done|]. destruct Hwf. lia.
    + by apply elements_reallocated.
Qed.

(** Making room for one more element, as [PushBack] does: the block is
    replaced exactly when the vector is full. *)
Lemma sv_room v :
  wf v →
  ∃ v', (if decide (size_ v = capacity_ v) then
           v' ← Reserve v (capacity_ v * 2);
           Ok (v', Reserve_replaces v (capacity_ v * 2))
         else Ok (v, false))
        = Ok (v', bool_decide (size_ v = capacity_ v))
    ∧ wf v' ∧ size_ v' = size_ v ∧ elements v' = elements v
    ∧ size_ v' < capacity_ v'
    ∧ capacity_ v' = (if decide (size_ v = capacity_ v)
                      then 1 `max` (capacity_ v * 2) else capacity_ v)
    ∧ (size_ v ≠ capacity_ v → v' = v).
Proof.
  intros Hwf. case_decide as Hfull.
  - destruct (sv_Reserve_spec v (capacity_ v * 2) Hwf)
      as (v' & -> & Hwf' & Hs & He & Hc).
    rewrite decide_False in Hc by lia. cbn [mbind res_bind].
    exists v'. unfold Reserve_replaces.
    rewrite !bool_decide_eq_true_2 by (done || lia).
    split_and!; [done..| | |done]; lia.
  - exists v. destruct Hwf as [Hle ?].
    rewrite bool_decide_eq_false_2 by done. split_and!; try done. lia.
Qed.

(** The same as [Insert] does it, with the position computed anew. *)
Lemma sv_room_at v offset p :
  wf v → advance (begin v) offset = Ok p →
  ∃ v', (if decide (size_ v = capacity_ v) then
           v' ← Reserve v (capacity_ v * 2);
           true_position ← advance (begin v') offset;
           Ok (v', Reserve_replaces v (capacity_ v * 2), true_position)
         else Ok (v, false, p))
        = Ok (v', bool_decide (size_ v = capacity_ v), p)
    ∧ wf v' ∧ size_ v' = size_ v ∧ elements v' = elements v
    ∧ size_ v' < capacity_ v'
    ∧ capacity_ v' = (if decide (size_ v = capacity_ v)
                      then 1 `max` (capacity_ v * 2) else capacity_ v)
    ∧ (size_ v ≠ capacity_ v → v' = v).
Proof.
  intros Hwf Hadv.
  destruct (sv_room v Hwf) as (v' & Hrun & Hrest). exists v'.
  split; [|done]. case_decide as Hfull; [|by injection Hrun as -> <-].
  destruct (Reserve v (capacity_ v * 2)) as [v1| |]; [|done..].
  cbn [mbind res_bind] in *. injection Hrun as -> ->.
  change (begin v') with (begin v). rewrite Hadv. done.
Qed.

Lemma sv_PushBack_spec o v x :
  wf v →
  ∃ v', PushBack o v (Outside x) = Ok v' ∧ wf v'
    ∧ elements v' = elements v ++ [x]
    ∧ size_ v' = S (size_ v)
    ∧ capacity_ v' = (if decide (size_ v = capacity_ v)
                      then 1 `max` (capacity_ v * 2) else capacity_ v).
Proof.
  intros Hwf. unfold PushBack.
  destruct (sv_room v Hwf) as (v1 & -> & Hwf1 & Hs & He & Hlt & Hc & _).
  cbn [mbind res_bind]. rewrite assign_Outside.
  destruct (push_back_tail v1 x Hwf1 Hlt) as (d & -> & Hwf' & He').
  cbn [mbind res_bind]. eexists; split; [done|].
  split_and!; simpl; [done| |lia|done]. by rewrite He', He.
Qed.

Lemma sv_Insert_spec o v p x :
  wf v → p ≤ size_ v → (Z.of_nat p ≤ INT_MAX)%Z →
  ∃ v', Insert o v p (Outside x) = Ok (v', p) ∧ wf v'
    ∧ elements v' = take p (elements v) ++ x :: drop p (elements v)
    ∧ size_ v' = S (size_ v)
    ∧ capacity_ v' = (if decide (size_ v = capacity_ v)
                      then 1 `max` (capacity_ v * 2) else capacity_ v).
Proof.
  intros Hwf Hp Hint. unfold Insert.
  pose proof (advance_in_int v p Hint) as Hadv. rewrite Hadv.
  cbn [mbind res_bind].
  destruct (sv_room_at v _ p Hwf Hadv)
    as (v1 & -> & Hwf1 & Hs & He & Hlt & Hc & _).
  cbn [mbind res_bind]. unfold end_, distance.
  rewrite Nat.add_1_r.
  rewrite decide_True by lia. cbn [mbind res_bind].
  destruct (insert_tail v1 p x Hwf1 Hlt)
    as (d1 & d & -> & Hst & Hwf' & He'); [lia|].
  cbn [mbind res_bind]. rewrite assign_Outside, Hst. cbn [mbind res_bind].
  eexists; split; [done|].
  split_and!; simpl; [done| |lia|done]. by rewrite He', He.
Qed.

Lemma sv_Erase_spec v p :
  wf v → p < size_ v → (Z.of_nat p ≤ INT_MAX)%Z →
  ∃ v', Erase v p = Ok (v', p) ∧ wf v'
    ∧ elements v' = delete p (elements v)
    ∧ size_ v' = size_ v - 1
    ∧ capacity_ v' = capacity_ v.
Proof.
  intros Hwf Hp Hint. unfold Erase.
  rewrite (advance_in_int v p Hint). cbn [mbind res_bind].
  unfold end_, distance. rewrite Nat.add_1_r.
  rewrite decide_True by lia. cbn [mbind res_bind].
  destruct (erase_tail v p Hwf Hp) as (d & -> & Hwf' & He').
  cbn [mbind res_bind].
  eexists; split; [done|]. by split_and!.
Qed.

Lemma sv_Resize_spec v n :
  wf v →
  ∃ v', Resize v n = Ok v' ∧ wf v' ∧ size_ v' = n
    ∧ elements v'
      = take n (elements v) ++ replicate (n - size_ v) value_init
    ∧ capacity_ v' = (if decide (n ≤ capacity_ v)
                      then if decide (capacity_ v = 0) then 1
                           else capacity_ v
                      else n)
    ∧ (n ≤ capacity_ v → capacity_ v ≠ 0 →
       drop n (ArrayPtr.slots (data_ v'))
       = drop n (ArrayPtr.slots (data_ v)))
    ∧ (n ≤ size_ v → capacity_ v ≠ 0 → data_ v' = data_ v).
Proof.
  intros Hwf. pose proof Hwf as [Hle Hlen]. unfold Resize.
  case_decide as Hfill.
  - unfold begin, end_, distance. cbn [Nat.add].
    rewrite decide_True by lia. cbn [mbind res_bind].
    destruct (resize_fill v n Hwf) as (d & -> & Hwf' & He & Hdrop);
      [lia|]. cbn [mbind res_bind].
    eexists; split; [done|]. split_and!; simpl; try done; [| |lia].
    + rewrite He. f_equal. rewrite take_ge; [done|].
      rewrite length_elements by done. lia.
    + rewrite decide_True by lia. by rewrite decide_False by lia.
  - destruct (decide (capacity_ v ≠ 0 ∧ n ≤ capacity_ v)) as [Hk|Hg].
    + rewrite sv_Reserve_keep by tauto. cbn [mbind res_bind].
      eexists; split; [done|]. split_and!; simpl; try done.
      * split; simpl; [lia|done].
      * unfold elements. simpl.
        replace (n - size_ v) with 0 by lia.
        rewrite take_take, app_nil_r. f_equal. lia.
      * rewrite decide_True by lia. by rewrite decide_False by lia.
    + rewrite sv_Reserve_grow by done. cbn [mbind res_bind].
      eexists; split; [done|]. split_and!; simpl; try done; try lia.
      * split; simpl; [lia|].
        rewrite length_app, length_replicate, length_elements by done.
        lia.
      * unfold elements at 1. simpl.
        rewrite take_app, take_replicate, length_elements by done.
        do 2 f_equal. lia.
      * repeat case_decide; lia.
Qed.

Lemma sv_of_reserve_spec n :
  ∃ v, of_reserve (Reserve_proxy n) = Ok v ∧ wf v
    ∧ size_ v = 0 ∧ capacity_ v = n.
Proof.
  unfold of_reserve. simpl. case_decide as Hn.
  - exists empty. subst. by split_and!; [|apply wf_empty|..].
  - rewrite sv_Reserve_grow; [|apply wf_empty|simpl; lia].
    eexists; split; [done|]. split_and!; simpl; [|done|lia].
    apply (wf_reallocated empty); [apply wf_empty|simpl; lia].
Qed.

Lemma sv_of_fill_spec n x :
  ∃ v, of_fill n x = Ok v ∧ wf v ∧ elements v = replicate n x
    ∧ size_ v = n ∧ capacity_ v = n.
Proof.
  unfold of_fill, of_size, ArrayPtr.make, begin, end_. simpl.
  rewrite Nat.sub_0_r. case_decide as Hn.
  - subst. simpl. eexists; split; [done|]. by split_and!.
  - rewrite fill_Some by (by rewrite length_replicate).
    cbn [mbind res_bind]. eexists; split; [done|].
    rewrite drop_ge by (by rewrite length_replicate).
    split_and!; simpl; try done.
    + split; simpl; [done|]. by rewrite app_nil_r, length_replicate.
    + unfold elements. simpl.
      by rewrite app_nil_r, take_ge by (by rewrite length_replicate).
Qed.

Lemma sv_of_list_spec (init : list T) :
  ∃ v, of_list init = Ok v ∧ wf v ∧ elements v = init
    ∧ size_ v = length init ∧ capacity_ v = length init.
Proof.
  unfold of_list, of_size, ArrayPtr.make, begin. simpl.
  case_decide as Hn.
  - destruct init; [|done]. simpl. eexists; split; [done|].
    by split_and!.
  - rewrite std_copy_Some by (by rewrite ?length_replicate).
    cbn [mbind res_bind]. eexists; split; [done|].
    rewrite (drop_ge (replicate _ _)) by (by rewrite length_replicate).
    rewrite drop_0, firstn_all. simpl. rewrite app_nil_r.
    split_and!; simpl; try done.
    unfold elements. simpl. by rewrite firstn_all.
Qed.
End simple_vector_h_facts.

(** ** The second header, member by member *)

Section part_000_facts.
Context `{Element T}.
Implicit Types (v : SimpleVector T) (x : T) (o : overload).
Import part_000.

Lemma p0_Reserve_keep v n : n ≤ capacity_ v → Reserve v n = Ok v.
Proof. intros. unfold Reserve. by rewrite decide_True. Qed.

Lemma p0_Reserve_grow v n :
  wf v → capacity_ v < n →
  Reserve v n
  = Ok {| data_ := Some (elements v
                         ++ replicate (n - size_ v) value_init);
          size_ := size_ v; capacity_ := n |}.
Proof.
  intros Hwf Hg. unfold Reserve. rewrite decide_False by lia.
  apply reallocate; [done| |lia]. destruct Hwf. lia.
Qed.

Lemma p0_Reserve_spec v n :
  wf v →
  ∃ v', Reserve v n = Ok v' ∧ wf v' ∧ size_ v' = size_ v
    ∧ elements v' = elements v
    ∧ capacity_ v' = (if decide (n ≤ capacity_ v)
                      then capacity_ v else n).
Proof.
  intros Hwf. case_decide as Hg.
  - exists v. by rewrite p0_Reserve_keep.
  - rewrite p0_Reserve_grow by (done || lia). eexists; split; [done|].
    split_and!; [|done| |done].
    + apply wf_reallocated; [done|]. destruct Hwf. lia.
    + by apply elements_reallocated.
Qed.

(** Making room for one more element, as [PushBack] does: the block is
    replaced exactly when the vector is full. *)
Lemma p0_room v :
  wf v →
  ∃ v', (if decide (size_ v = capacity_ v) then
           v' ← Expand v (capacity_ v * 2);
           Ok (v', Expand_replaces v (capacity_ v * 2))
         else Ok (v, false))
        = Ok (v', bool_decide (size_ v = capacity_ v))
    ∧ wf v' ∧ size_ v' = size_ v ∧ elements v' = elements v
    ∧ size_ v' < capacity_ v'
    ∧ capacity_ v' = (if decide (size_ v = capacity_ v)
                      then 1 `max` (capacity_ v * 2) else capacity_ v)
    ∧ (size_ v ≠ capacity_ v → v' = v).
Proof.
  intros Hwf. case_decide as Hfull.
  - unfold Expand, Expand_replaces, Reserve_replaces.
    destruct (p0_Reserve_spec v
                (if decide (0 < capacity_ v * 2) then capacity_ v * 2
                 else 1) Hwf)
      as (v' & -> & Hwf' & Hs & He & Hc).
    cbn [mbind res_bind]. exists v'.
    rewrite (bool_decide_eq_true_2 (size_ v = _)) by done.
    rewrite bool_decide_eq_true_2
      by (destruct (decide (0 < capacity_ v * 2)); lia).
    split_and!; [done..| | |done]; repeat case_decide; lia.
  - exists v. destruct Hwf as [Hle ?].
    rewrite bool_decide_eq_false_2 by done. split_and!; try done. lia.
Qed.

(** The same as [Insert] does it, with the position computed anew. *)
Lemma p0_room_at v offset p :
  wf v → advance (begin v) offset = Ok p →
  ∃ v', (if decide (size_ v = capacity_ v) then
           v' ← Expand v (capacity_ v * 2);
           true_position ← advance (begin v') offset;
           Ok (v', Expand_replaces v (capacity_ v * 2), true_position)
         else Ok (v, false, p))
        = Ok (v', bool_decide (size_ v = capacity_ v), p)
    ∧ wf v' ∧ size_ v' = size_ v ∧ elements v' = elements v
    ∧ size_ v' < capacity_ v'
    ∧ capacity_ v' = (if decide (size_ v = capacity_ v)
                      then 1 `max` (capacity_ v * 2) else capacity_ v)
    ∧ (size_ v ≠ capacity_ v → v' = v).
Proof.
  intros Hwf Hadv.
  destruct (p0_room v Hwf) as (v' & Hrun & Hrest). exists v'.
  split; [|done]. case_decide as Hfull; [|by injection Hrun as -> <-].
  destruct (Expand v (capacity_ v * 2)) as [v1| |]; [|done..].
  cbn [mbind res_bind] in *. injection Hrun as -> ->.
  change (begin v') with (begin v). rewrite Hadv. done.
Qed.

Lemma p0_PushBack_spec o v x :
  wf v →
  ∃ v', PushBack o v (Outside x) = Ok v' ∧ wf v'
    ∧ elements v' = elements v ++ [x]
    ∧ size_ v' = S (size_ v)
    ∧ capacity_ v' = (if decide (size_ v = capacity_ v)
                      then 1 `max` (capacity_ v * 2) else capacity_ v).
Proof.
  intros Hwf. unfold PushBack.
  destruct (p0_room v Hwf) as (v1 & -> & Hwf1 & Hs & He & Hlt & Hc & _).
  cbn [mbind res_bind]. rewrite assign_Outside.
  destruct (push_back_tail v1 x Hwf1 Hlt) as (d & -> & Hwf' & He').
  cbn [mbind res_bind]. eexists; split; [done|].
  split_and!; simpl; [done| |lia|done]. by rewrite He', He.
Qed.

Lemma p0_Insert_spec o v p x :
  wf v → p ≤ size_ v → (Z.of_nat p ≤ INT_MAX)%Z →
  ∃ v', Insert o v p (Outside x) = Ok (v', p) ∧ wf v'
    ∧ elements v' = take p (elements v) ++ x :: drop p (elements v)
    ∧ size_ v' = S (size_ v)
    ∧ capacity_ v' = (if decide (size_ v = capacity_ v)
                      then 1 `max` (capacity_ v * 2) else capacity_ v).
Proof.
  intros Hwf Hp Hint. unfold Insert, std_copy_backward_mi.
  pose proof (advance_in_int v p Hint) as Hadv. rewrite Hadv.
  cbn [mbind res_bind].
  destruct (p0_room_at v _ p Hwf Hadv)
    as (v1 & -> & Hwf1 & Hs & He & Hlt & Hc & _).
  cbn [mbind res_bind]. unfold end_, distance.
  rewrite Nat.add_1_r.
  rewrite decide_True by lia. cbn [mbind res_bind].
  destruct (insert_tail v1 p x Hwf1 Hlt)
    as (d1 & d & -> & Hst & Hwf' & He'); [lia|].
  cbn [mbind res_bind]. rewrite assign_Outside, Hst. cbn [mbind res_bind].
  change (begin v1) with (begin v). rewrite Hadv. cbn [mbind res_bind].
  eexists; split; [done|].
  split_and!; simpl; [done| |lia|done]. by rewrite He', He.
Qed.

Lemma p0_Erase_spec v p :
  wf v → p < size_ v → (Z.of_nat p ≤ INT_MAX)%Z →
  ∃ v', Erase v p = Ok (v', p) ∧ wf v'
    ∧ elements v' = delete p (elements v)
    ∧ size_ v' = size_ v - 1
    ∧ capacity_ v' = capacity_ v.
Proof.
  intros Hwf Hp Hint. unfold Erase, std_copy_mi.
  pose proof (advance_in_int v p Hint) as Hadv. rewrite !Hadv.
  cbn [mbind res_bind].
  unfold end_, distance. rewrite Nat.add_1_r.
  rewrite decide_True by lia. cbn [mbind res_bind].
  destruct (erase_tail v p Hwf Hp) as (d & -> & Hwf' & He').
  cbn [mbind res_bind].
  eexists; split; [done|]. by split_and!.
Qed.

Lemma p0_Resize_spec v n :
  wf v →
  ∃ v', Resize v n = Ok v' ∧ wf v' ∧ size_ v' = n
    ∧ elements v'
      = take n (elements v) ++ replicate (n - size_ v) value_init
    ∧ capacity_ v' = (if decide (n ≤ capacity_ v) then capacity_ v
                      else n)
    ∧ (n ≤ capacity_ v →
       drop n (ArrayPtr.slots (data_ v'))
       = drop n (ArrayPtr.slots (data_ v)))
    ∧ (n ≤ size_ v → data_ v' = data_ v).
Proof.
  intros Hwf. pose proof Hwf as [Hle Hlen]. unfold Resize.
  case_decide as Htrunc; [|case_decide as Hfill].
  - eexists; split; [done|]. split_and!; simpl; try done.
    + split; simpl; [lia|done].
    + unfold elements. simpl.
      replace (n - size_ v) with 0 by lia.
      rewrite take_take, app_nil_r. f_equal. lia.
    + by rewrite decide_True by lia.
  - unfold begin, end_, distance. cbn [Nat.add].
    rewrite decide_True by lia. cbn [mbind res_bind].
    destruct (resize_fill v n Hwf) as (d & -> & Hwf' & He & Hdrop);
      [lia|]. cbn [mbind res_bind].
    eexists; split; [done|].
    split_and!; simpl; try done; try (intros; lia).
    + rewrite He. f_equal. rewrite take_ge; [done|].
      rewrite length_elements by done. lia.
  - unfold Expand. rewrite decide_True by lia.
    rewrite p0_Reserve_grow by (done || lia). cbn [mbind res_bind].
    eexists; split; [done|]. split_and!; simpl; try done; try lia.
    + split; simpl; [lia|].
      rewrite length_app, length_replicate, length_elements by done.
      lia.
    + unfold elements at 1. simpl.
      rewrite take_app, take_replicate, length_elements by done.
      do 2 f_equal. lia.
Qed.

Lemma p0_of_reserve_spec n :
  ∃ v, of_reserve (Reserve_proxy n) = Ok v ∧ wf v
    ∧ size_ v = 0 ∧ capacity_ v = n.
Proof.
  unfold of_reserve. simpl. case_decide as Hn.
  - exists empty. subst. by split_and!; [|apply wf_empty|..].
  - rewrite p0_Reserve_grow; [|apply wf_empty|simpl; lia].
    eexists; split; [done|]. split_and!; simpl; [|done..].
    apply (wf_reallocated empty); [apply wf_empty|simpl; lia].
Qed.

Lemma p0_of_fill_spec n x :
  ∃ v, of_fill n x = Ok v ∧ wf v ∧ elements v = replicate n x
    ∧ size_ v = n ∧ capacity_ v = n.
Proof.
  unfold of_fill, ArrayPtr.make_fill. case_decide as Hn.
  - subst. cbn [mbind res_bind]. eexists; split; [done|].
    by split_and!.
  - rewrite fill_Some by (by rewrite length_replicate).
    cbn [mbind res_bind]. eexists; split; [done|].
    rewrite drop_ge by (by rewrite length_replicate).
    split_and!; simpl; try done.
    + split; simpl; [done|]. by rewrite app_nil_r, length_replicate.
    + unfold elements. simpl.
      by rewrite app_nil_r, take_ge by (by rewrite length_replicate).
Qed.

Lemma p0_of_list_spec (init : list T) :
  ∃ v, of_list init = Ok v ∧ wf v ∧ elements v = init
    ∧ size_ v = length init ∧ capacity_ v = length init.
Proof.
  unfold of_list, ArrayPtr.make_init.
  rewrite assign_from_Some by (by rewrite length_replicate).
  cbn [mbind res_bind]. eexists; split; [done|].
  rewrite drop_ge by (by rewrite length_replicate).
  simpl. rewrite app_nil_r.
  split_and!; simpl; try done.
  unfold elements. simpl. by rewrite firstn_all.
Qed.
End part_000_facts.

(** ** A value that is no element of the vector

    With such a value the two overloads do the same to the vector: it
    makes room, shifts, and stores the value, at the position that the
    [int] offset leaves. *)

Section outside_facts.
Context `{Element T}.
Implicit Types (v : SimpleVector T) (x : T) (o : overload).

Lemma sv_PushBack_Outside o v x :
  simple_vector_h.PushBack o v (Outside x)
  = (v ← (if decide (size_ v = capacity_ v)
          then simple_vector_h.Reserve v (capacity_ v * 2) else Ok v);
     d ← ArrayPtr.store (data_ v) (size_ v) x;
     Ok {| data_ := d; size_ := S (size_ v); capacity_ := capacity_ v |}).
Proof.
  unfold simple_vector_h.PushBack. case_decide.
  - destruct (simple_vector_h.Reserve v _) as [v'| |]; [|done..].
    cbn [mbind res_bind]. by rewrite assign_Outside.
  - cbn [mbind res_bind]. by rewrite assign_Outside.
Qed.

Lemma p0_PushBack_Outside o v x :
  part_000.PushBack o v (Outside x)
  = (v ← (if decide (size_ v = capacity_ v)
          then part_000.Expand v (capacity_ v * 2) else Ok v);
     d ← ArrayPtr.store (data_ v) (size_ v) x;
     Ok {| data_ := d; size_ := S (size_ v); capacity_ := capacity_ v |}).
Proof.
  unfold part_000.PushBack. case_decide.
  - destruct (part_000.Expand v _) as [v'| |]; [|done..].
    cbn [mbind res_bind]. by rewrite assign_Outside.
  - cbn [mbind res_bind]. by rewrite assign_Outside.
Qed.

Lemma sv_Insert_Outside o v pos x :
  simple_vector_h.Insert o v pos (Outside x)
  = (p ← advance (begin v) (to_int (Z.of_nat pos - Z.of_nat (begin v)));
     v ← (if decide (size_ v = capacity_ v)
          then simple_vector_h.Reserve v (capacity_ v * 2) else Ok v);
     n ← distance p (end_ v);
     d ← std_move_backward (data_ v) n (end_ v) (end_ v + 1);
     d ← ArrayPtr.store d p x;
     Ok ({| data_ := d; size_ := S (size_ v); capacity_ := capacity_ v |},
         p)).
Proof.
  unfold simple_vector_h.Insert.
  destruct (advance (begin v) _) as [p| |] eqn:Hadv; [|done..].
  cbn [mbind res_bind]. case_decide.
  - destruct (simple_vector_h.Reserve v _) as [v'| |]; [|done..].
    cbn [mbind res_bind]. change (begin v') with (begin v).
    rewrite Hadv. cbn [mbind res_bind].
    destruct (distance p (end_ v')) as [n| |]; [|done..].
    cbn [mbind res_bind].
    destruct (std_move_backward _ _ _ _) as [d| |]; [|done..].
    cbn [mbind res_bind]. by rewrite assign_Outside.
  - cbn [mbind res_bind].
    destruct (distance p (end_ v)) as [n| |]; [|done..].
    cbn [mbind res_bind].
    destruct (std_move_backward _ _ _ _) as [d| |]; [|done..].
    cbn [mbind res_bind]. by rewrite assign_Outside.
Qed.

Lemma p0_Insert_Outside o v pos x :
  part_000.Insert o v pos (Outside x)
  = (p ← advance (begin v) (to_int (Z.of_nat pos - Z.of_nat (begin v)));
     v ← (if decide (size_ v = capacity_ v)
          then part_000.Expand v (capacity_ v * 2) else Ok v);
     n ← distance p (end_ v);
     d ← std_copy_backward_mi (data_ v) n (end_ v) (end_ v + 1);
     d ← ArrayPtr.store d p x;
     Ok ({| data_ := d; size_ := S (size_ v); capacity_ := capacity_ v |},
         p)).
Proof.
  unfold part_000.Insert.
  destruct (advance (begin v) _) as [p| |] eqn:Hadv; [|done..].
  cbn [mbind res_bind]. case_decide.
  - destruct (part_000.Expand v _) as [v'| |]; [|done..].
    cbn [mbind res_bind]. change (begin v') with (begin v).
    rewrite Hadv. cbn [mbind res_bind].
    destruct (distance p (end_ v')) as [n| |]; [|done..].
    cbn [mbind res_bind].
    destruct (std_copy_backward_mi _ _ _ _) as [d| |]; [|done..].
    cbn [mbind res_bind]. rewrite assign_Outside.
    destruct (ArrayPtr.store d p x) as [d'| |]; [|done..].
    cbn [mbind res_bind]. change (begin v') with (begin v).
    by rewrite Hadv.
  - cbn [mbind res_bind].
    destruct (distance p (end_ v)) as [n| |]; [|done..].
    cbn [mbind res_bind].
    destruct (std_copy_backward_mi _ _ _ _) as [d| |]; [|done..].
    cbn [mbind res_bind]. rewrite assign_Outside.
    destruct (ArrayPtr.store d p x) as [d'| |]; [|done..].
    cbn [mbind res_bind]. by rewrite ?Hadv.
Qed.

Lemma sv_Erase_at v pos :
  simple_vector_h.Erase v pos
  = (p ← advance (begin v) (to_int (Z.of_nat pos - Z.of_nat (begin v)));
     n ← distance (p + 1) (end_ v);
     d ← std_move (data_ v) (p + 1) n p;
     Ok ({| data_ := d; size_ := size_ v - 1; capacity_ := capacity_ v |},
         p)).
Proof. done. Qed.

Lemma p0_Erase_at v pos :
  part_000.Erase v pos
  = (p ← advance (begin v) (to_int (Z.of_nat pos - Z.of_nat (begin v)));
     n ← distance (p + 1) (end_ v);
     d ← std_copy_mi (data_ v) (p + 1) n p;
     Ok ({| data_ := d; size_ := size_ v - 1; capacity_ := capacity_ v |},
         p)).
Proof.
  unfold part_000.Erase.
  destruct (advance (begin v) _) as [p| |] eqn:Hadv; [|done..].
  cbn [mbind res_bind].
  destruct (distance (p + 1) (end_ v)) as [n| |]; [|done..].
  cbn [mbind res_bind].
  by destruct (std_copy_mi _ _ _ _) as [d| |].
Qed.
End outside_facts.

(** ** Two vectors *)

Section objects_access.
Context `{Element T}.
Implicit Types (v a b c : SimpleVector T) (σ : list (SimpleVector T)).

Lemma get_Some σ name v : σ !! name = Some v → get name σ = Ok v.
Proof. intros Hv. unfold get. by rewrite Hv. Qed.

Lemma set_data_Some σ name v d :
  σ !! name = Some v →
  set_data_ name d σ
  = Ok (<[name:={| data_ := d; size_ := size_ v;
                   capacity_ := capacity_ v |}]> σ).
Proof. intros Hv. unfold set_data_. by rewrite (get_Some _ _ _ Hv). Qed.

Lemma set_size_Some σ name v n :
  σ !! name = Some v →
  set_size_ name n σ
  = Ok (<[name:={| data_ := data_ v; size_ := n;
                   capacity_ := capacity_ v |}]> σ).
Proof. intros Hv. unfold set_size_. by rewrite (get_Some _ _ _ Hv). Qed.

Lemma set_capacity_Some σ name v n :
  σ !! name = Some v →
  set_capacity_ name n σ
  = Ok (<[name:={| data_ := data_ v; size_ := size_ v;
                   capacity_ := n |}]> σ).
Proof.
  intros Hv. unfold set_capacity_. by rewrite (get_Some _ _ _ Hv).
Qed.
End objects_access.

(** Running a sequence of field reads and writes: each step looks its
    object up in the store the steps before have left. *)
Ltac lookup_now :=
  repeat first
    [ rewrite list_lookup_insert_eq by (rewrite ?length_insert; lia)
    | rewrite list_lookup_insert_ne by done ];
  first [ eassumption | reflexivity ].
Ltac run_fields :=
  repeat (first
    [ erewrite get_Some by lookup_now
    | erewrite set_data_Some by lookup_now
    | erewrite set_size_Some by lookup_now
    | erewrite set_capacity_Some by lookup_now ];
    cbn [mbind res_bind data_ size_ capacity_]).


Section objects_facts.
Context `{Element T}.
Implicit Types (v a b c : SimpleVector T) (σ : list (SimpleVector T)).

Lemma MoveFrom_spec this other σ a b :
  σ !! this = Some a → σ !! other = Some b →
  ∃ σ', MoveFrom this other σ = Ok σ'
    ∧ length σ' = length σ
    ∧ σ' !! this = Some b
    ∧ (this ≠ other → σ' !! other = Some empty)
    ∧ (∀ k, k ≠ this → k ≠ other → σ' !! k = σ !! k).
Proof.
  intros Ha Hb. pose proof (lookup_lt_Some _ _ _ Ha).
  pose proof (lookup_lt_Some _ _ _ Hb). unfold MoveFrom.
  destruct (decide (this = other)) as [->|Hne].
  - run_fields. eexists; split; [done|].
    rewrite !list_insert_insert_eq, !length_insert.
    split_and!; [done| |done|].
    + rewrite list_lookup_insert_eq by done. rewrite Ha in Hb.
      by destruct b; simplify_eq.
    + intros k ? ?. by rewrite list_lookup_insert_ne.
  - run_fields. eexists; split; [done|].
    rewrite !length_insert. split_and!; [done| | |].
    + rewrite list_lookup_insert_eq by (rewrite ?length_insert; lia).
      by destruct b.
    + intros _. rewrite list_lookup_insert_ne by done.
      by rewrite list_lookup_insert_eq by (rewrite ?length_insert; lia).
    + intros k ? ?. by rewrite !list_lookup_insert_ne.
Qed.

Lemma swap_spec this other σ a b :
  σ !! this = Some a → σ !! other = Some b →
  ∃ σ', swap this other σ = Ok σ'
    ∧ length σ' = length σ
    ∧ σ' !! this = Some b
    ∧ σ' !! other = Some a
    ∧ (∀ k, k ≠ this → k ≠ other → σ' !! k = σ !! k).
Proof.
  intros Ha Hb. pose proof (lookup_lt_Some _ _ _ Ha).
  pose proof (lookup_lt_Some _ _ _ Hb). unfold swap.
  destruct (decide (this = other)) as [->|Hne].
  - run_fields. eexists; split; [done|].
    rewrite !list_insert_insert_eq, !length_insert.
    rewrite list_lookup_insert_eq by done. rewrite Ha in Hb.
    split_and!; [done|by destruct b; simplify_eq..|].
    intros k ? ?. by rewrite list_lookup_insert_ne.
  - run_fields. eexists; split; [done|].
    rewrite !length_insert. split_and!; [done| | |].
    + rewrite list_lookup_insert_ne by done.
      rewrite list_lookup_insert_eq by (rewrite ?length_insert; lia).
      by destruct b.
    + rewrite list_lookup_insert_eq by (rewrite ?length_insert; lia).
      by destruct a.
    + intros k ? ?. by rewrite !list_lookup_insert_ne.
Qed.

(** The copy [CopyAndSwap] makes of [other] before it swaps. *)
Lemma copy_of b :
  wf b →
  std_copy (data_ b) (begin b) (end_ b - begin b)
    (ArrayPtr.make (size_ b)) 0
  = Ok (if decide (size_ b = 0) then None else Some (elements b)).
Proof.
  intros Hwf. unfold begin, end_, ArrayPtr.make. rewrite Nat.sub_0_r.
  case_decide as Hs; [by rewrite Hs|].
  destruct (data_ b) as [bb|] eqn:Hd.
  - pose proof (wf_block _ _ Hwf Hd). destruct Hwf as [Hle _].
    rewrite std_copy_Some by (rewrite ?length_replicate; lia).
    rewrite (drop_ge (replicate _ _)) by (rewrite length_replicate; lia).
    unfold elements. rewrite Hd. simpl. by rewrite app_nil_r.
  - destruct (wf_null _ Hwf Hd). lia.
Qed.

Lemma CopyAndSwap_spec this other σ a b :
  σ !! this = Some a → σ !! other = Some b → wf b →
  ∃ σ' c, CopyAndSwap this other σ = Ok σ'
    ∧ length σ' = length σ
    ∧ σ' !! this = Some c
    ∧ wf c ∧ elements c = elements b
    ∧ size_ c = size_ b ∧ capacity_ c = size_ b
    ∧ (this ≠ other → σ' !! other = Some b)
    ∧ (∀ k, k ≠ this → k ≠ other → σ' !! k = σ !! k).
Proof.
  intros Ha Hb Hwf. pose proof (lookup_lt_Some _ _ _ Ha).
  pose proof (lookup_lt_Some _ _ _ Hb). unfold CopyAndSwap.
  rewrite (get_Some _ _ _ Hb). cbn [mbind res_bind].
  rewrite copy_of by done. cbn [mbind res_bind].
  rewrite (get_Some _ _ _ Ha). cbn [mbind res_bind ArrayPtr.swap].
  run_fields. do 2 eexists; split; [done|].
  rewrite !list_insert_insert_eq, !length_insert.
  split; [done|].
  split; [by rewrite list_lookup_insert_eq by done|].
  split_and!; simpl; try done.
  - split; simpl; [done|].
    case_decide as Hs; simpl; [done|]. by apply length_elements.
  - unfold elements at 1. simpl.
    case_decide as Hs; simpl.
    + unfold elements. by rewrite Hs.
    + by rewrite take_ge by (by rewrite length_elements).
  - intros Hne. by rewrite list_lookup_insert_ne.
  - intros k ? ?. by rewrite list_lookup_insert_ne.
Qed.

Lemma move_construct_spec other σ b :
  σ !! other = Some b →
  ∃ σ', move_construct other σ = Ok (σ', length σ)
    ∧ length σ' = S (length σ)
    ∧ σ' !! length σ = Some b
    ∧ σ' !! other = Some empty
    ∧ (∀ k, k ≠ length σ → k ≠ other → σ' !! k = σ !! k).
Proof.
  intros Hb. pose proof (lookup_lt_Some _ _ _ Hb) as Hlt.
  unfold move_construct.
  destruct (MoveFrom_spec (length σ) other (σ ++ [empty]) empty b)
    as (σ' & -> & Hlen & Hthis & Hother & Hrest).
  { by rewrite lookup_app_r, Nat.sub_diag. }
  { by rewrite lookup_app_l. }
  cbn [mbind res_bind]. eexists; split; [done|].
  rewrite length_app in Hlen. simpl in Hlen.
  split_and!; [lia|done|apply Hother; lia|].
  intros k ? ?. rewrite Hrest by done.
  destruct (decide (k < length σ)); [by rewrite lookup_app_l|].
  rewrite !lookup_ge_None_2; [done|lia|rewrite length_app; simpl; lia].
Qed.

Lemma copy_construct_spec other σ b :
  σ !! other = Some b → wf b →
  ∃ σ' c, copy_construct other σ = Ok (σ', length σ)
    ∧ length σ' = S (length σ)
    ∧ σ' !! length σ = Some c
    ∧ wf c ∧ elements c = elements b
    ∧ size_ c = size_ b ∧ capacity_ c = size_ b
    ∧ σ' !! other = Some b
    ∧ (∀ k, k ≠ length σ → k ≠ other → σ' !! k = σ !! k).
Proof.
  intros Hb Hwf. pose proof (lookup_lt_Some _ _ _ Hb) as Hlt.
  unfold copy_construct.
  destruct (CopyAndSwap_spec (length σ) other (σ ++ [empty]) empty b)
    as (σ' & c & -> & Hlen & Hthis & Hwfc & He & Hs & Hc & Hother & Hrest);
    [by rewrite lookup_app_r, Nat.sub_diag|by rewrite lookup_app_l|done|].
  cbn [mbind res_bind]. do 2 eexists; split; [done|].
  rewrite length_app in Hlen. simpl in Hlen.
  split_and!; try done; [lia| |].
  - apply Hother. lia.
  - intros k ? ?. rewrite Hrest by done.
    destruct (decide (k < length σ)); [by rewrite lookup_app_l|].
    rewrite !lookup_ge_None_2; [done|lia|rewrite length_app; simpl; lia].
Qed.
End objects_facts.

(** ** Either header *)

Section either_header.
Context `{Element T}.
Implicit Types (v : SimpleVector T) (x : T) (h : header) (o : overload).

Lemma Reserve_spec h v n :
  wf v →
  ∃ v', Call.Reserve h v n = Ok v' ∧ wf v' ∧ size_ v' = size_ v
    ∧ elements v' = elements v
    ∧ capacity_ v' = (if decide (n ≤ capacity_ v)
                      then if decide (h = simple_vector ∧ capacity_ v = 0)
                           then 1 else capacity_ v
                      else n).
Proof.
  intros Hwf. destruct h; cbn [Call.Reserve].
  - destruct (sv_Reserve_spec v n Hwf) as (v' & ? & ? & ? & ? & Hc).
    exists v'. split_and!; try done. rewrite Hc.
    repeat case_decide; try lia; tauto.
  - destruct (p0_Reserve_spec v n Hwf) as (v' & ? & ? & ? & ? & Hc).
    exists v'. split_and!; try done;
      rewrite Hc; repeat case_decide; naive_solver.
Qed.

Lemma Resize_spec h v n :
  wf v →
  ∃ v', Call.Resize h v n = Ok v' ∧ wf v' ∧ size_ v' = n
    ∧ elements v'
      = take n (elements v) ++ replicate (n - size_ v) value_init
    ∧ capacity_ v' = (if decide (n ≤ capacity_ v)
                      then if decide (h = simple_vector ∧ capacity_ v = 0)
                           then 1 else capacity_ v
                      else n)
    ∧ (n ≤ capacity_ v → h = second_header ∨ capacity_ v ≠ 0 →
       drop n (ArrayPtr.slots (data_ v'))
       = drop n (ArrayPtr.slots (data_ v)))
    ∧ (n ≤ size_ v → h = second_header ∨ capacity_ v ≠ 0 →
       data_ v' = data_ v).
Proof.
  intros Hwf. destruct h; cbn [Call.Resize].
  - destruct (sv_Resize_spec v n Hwf)
      as (v' & ? & ? & ? & ? & Hc & Hdrop & Hkeep).
    exists v'. split_and!; try done.
    + rewrite Hc. repeat case_decide; try lia; tauto.
    + intros ? [?|?]; [done|]. by apply Hdrop.
    + intros ? [?|?]; [done|]. by apply Hkeep.
  - destruct (p0_Resize_spec v n Hwf)
      as (v' & ? & ? & ? & ? & Hc & Hdrop & Hkeep).
    exists v'. split_and!; try done; try (by auto);
      rewrite Hc; repeat case_decide; naive_solver.
Qed.

Lemma PushBack_spec h o v x :
  wf v →
  ∃ v', Call.PushBack h o v (Outside x) = Ok v' ∧ wf v'
    ∧ elements v' = elements v ++ [x]
    ∧ size_ v' = S (size_ v)
    ∧ capacity_ v' = (if decide (size_ v = capacity_ v)
                      then 1 `max` (capacity_ v * 2) else capacity_ v).
Proof.
  destruct h; [apply sv_PushBack_spec | apply p0_PushBack_spec].
Qed.

Lemma Insert_spec h o v p x :
  wf v → p ≤ size_ v → (Z.of_nat p ≤ INT_MAX)%Z →
  ∃ v', Call.Insert h o v p (Outside x) = Ok (v', p) ∧ wf v'
    ∧ elements v' = take p (elements v) ++ x :: drop p (elements v)
    ∧ size_ v' = S (size_ v)
    ∧ capacity_ v' = (if decide (size_ v = capacity_ v)
                      then 1 `max` (capacity_ v * 2) else capacity_ v).
Proof.
  destruct h; [apply sv_Insert_spec | apply p0_Insert_spec].
Qed.

Lemma Erase_spec h v p :
  wf v → p < size_ v → (Z.of_nat p ≤ INT_MAX)%Z →
  ∃ v', Call.Erase h v p = Ok (v', p) ∧ wf v'
    ∧ elements v' = delete p (elements v)
    ∧ size_ v' = size_ v - 1
    ∧ capacity_ v' = capacity_ v.
Proof.
  destruct h; [apply sv_Erase_spec | apply p0_Erase_spec].
Qed.

Lemma of_reserve_spec h n :
  ∃ v, Call.of_reserve h (Reserve_proxy n) = Ok v ∧ wf v
    ∧ size_ v = 0 ∧ capacity_ v = n.
Proof.
  destruct h; [apply sv_of_reserve_spec | apply p0_of_reserve_spec].
Qed.

Lemma of_fill_spec h n x :
  ∃ v, Call.of_fill h n x = Ok v ∧ wf v ∧ elements v = replicate n x
    ∧ size_ v = n ∧ capacity_ v = n.
Proof. destruct h; [apply sv_of_fill_spec | apply p0_of_fill_spec]. Qed.

Lemma of_list_spec h (init : list T) :
  ∃ v, Call.of_list h init = Ok v ∧ wf v ∧ elements v = init
    ∧ size_ v = length init ∧ capacity_ v = length init.
Proof. destruct h; [apply sv_of_list_spec | apply p0_of_list_spec]. Qed.

Lemma wf_PopBack v : wf v → wf (PopBack v).
Proof. intros [? ?]. split; simpl; [case_decide; lia|done]. Qed.

Lemma wf_Clear v : wf v → wf (Clear v).
Proof. intros [? ?]. split; simpl; [lia|done]. Qed.

(** The capacity that [n] pushes into an empty vector leave:
    0, 1, 2, 4, 4, 8, ... *)
Lemma doubling_step n :
  (if decide (S n = 0) then 0 else 2 ^ Nat.log2_up (S n))
  = (if decide (n = if decide (n = 0) then 0 else 2 ^ Nat.log2_up n)
     then 1 `max` ((if decide (n = 0) then 0 else 2 ^ Nat.log2_up n) * 2)
     else if decide (n = 0) then 0 else 2 ^ Nat.log2_up n).
Proof.
  rewrite decide_False by lia.
  destruct (decide (n = 0)) as [->|Hn]; [done|].
  assert (n ≤ 2 ^ Nat.log2_up n) as Hup.
  { destruct (decide (n = 1)) as [->|]; [done|].
    apply Nat.log2_up_spec. lia. }
  pose proof (Nat.log2_up_eq_succ_iff_pow2 n ltac:(lia)) as Hpow.
  case_decide as Hfull.
  - assert (Nat.log2_up (S n) = S (Nat.log2_up n)) as ->.
    { apply Hpow. eauto. }
    rewrite Nat.pow_succ_r'. lia.
  - destruct (Nat.log2_up_succ_or n) as [Hs|Hs]; [|by rewrite Hs].
    apply Hpow in Hs as [b ->].
    rewrite Nat.log2_up_pow2 in Hfull by lia. done.
Qed.

Lemma push_back_each_spec h xs : ∀ v,
  wf v →
  capacity_ v = (if decide (size_ v = 0) then 0
                 else 2 ^ Nat.log2_up (size_ v)) →
  ∃ v', Call.push_back_each h v xs = Ok v' ∧ wf v'
    ∧ elements v' = elements v ++ xs
    ∧ size_ v' = size_ v + length xs
    ∧ capacity_ v' = (if decide (size_ v + length xs = 0) then 0
                      else 2 ^ Nat.log2_up (size_ v + length xs)).
Proof.
  induction xs as [|x xs IH]; intros v Hwf Hcap;
    cbn [Call.push_back_each].
  - exists v. rewrite app_nil_r, Nat.add_0_r. by split_and!.
  - destruct (PushBack_spec h by_const_ref v x Hwf)
      as (v1 & -> & Hwf1 & He1 & Hs1 & Hc1).
    cbn [mbind res_bind].
    destruct (IH v1 Hwf1) as (v' & -> & Hwf' & He' & Hs' & Hc').
    { rewrite Hc1, Hs1, Hcap. symmetry. apply doubling_step. }
    exists v'. split; [done|]. split; [done|].
    rewrite He', He1, Hs', Hc', Hs1, <- app_assoc. cbn [length].
    split; [done|]. split; [lia|].
    by replace (S (size_ v) + length xs)
      with (size_ v + S (length xs)) by lia.
Qed.

(** A store in which at most two objects changed, both into objects
    that satisfy the invariant. *)
Lemma Forall_wf_two (σ σ' : list (SimpleVector T)) this other c d :
  Forall wf σ →
  σ' !! this = Some c → wf c →
  (this ≠ other → σ' !! other = Some d) → wf d →
  (∀ k, k ≠ this → k ≠ other → σ' !! k = σ !! k) →
  Forall wf σ'.
Proof.
  intros Hσ Hthis Hc Hother Hd Hrest. apply Forall_lookup_2.
  intros k v Hk. destruct (decide (k = this)) as [->|?]; [congruence|].
  destruct (decide (k = other)) as [->|?].
  - rewrite Hother in Hk by done. congruence.
  - rewrite Hrest in Hk by done. by eapply Forall_lookup_1.
Qed.
End either_header.

(** ** Values that are elements of the vector, and positions that an
    [int] does not hold *)

Section reference_facts.
Context `{Element T}.
Implicit Types (v : SimpleVector T) (x y : T) (h : header) (o : overload).
Implicit Types (d : ArrayPtr.t T) (value : reference T).

Lemma store_length d i x d' :
  ArrayPtr.store d i x = Ok d' →
  length (ArrayPtr.slots d') = length (ArrayPtr.slots d).
Proof.
  destruct d as [b|]; [|done]. unfold ArrayPtr.store.
  case_decide; [|done]. intros [= <-]. simpl. by rewrite length_insert.
Qed.

Lemma assign_length o deleted d i value d' :
  assign o deleted d i value = Ok d' →
  length (ArrayPtr.slots d') = length (ArrayPtr.slots d).
Proof.
  unfold assign. destruct (deref deleted d value) as [x| |]; [|done..].
  cbn [mbind res_bind].
  destruct (ArrayPtr.store d i x) as [d1| |] eqn:Hd1; [|done..].
  cbn [mbind res_bind]. apply store_length in Hd1.
  destruct o, value; try (intros [= <-]; done).
  intros Hd'%store_length. congruence.
Qed.

Lemma std_move_length n : ∀ d first d_first d',
  std_move d first n d_first = Ok d' →
  length (ArrayPtr.slots d') = length (ArrayPtr.slots d).
Proof.
  induction n as [|n IH]; intros d first d_first d'; cbn [std_move].
  - by intros [= <-].
  - destruct (ArrayPtr.load d first) as [x| |]; [|done..].
    cbn [mbind res_bind].
    destruct (ArrayPtr.store d d_first x) as [d1| |] eqn:H1; [|done..].
    cbn [mbind res_bind].
    destruct (ArrayPtr.store d1 first _) as [d2| |] eqn:H2; [|done..].
    cbn [mbind res_bind]. intros Hrec%IH.
    apply store_length in H1, H2. congruence.
Qed.

Lemma std_move_backward_length n : ∀ d last d_last d',
  std_move_backward d n last d_last = Ok d' →
  length (ArrayPtr.slots d') = length (ArrayPtr.slots d).
Proof.
  induction n as [|n IH]; intros d last d_last d';
    cbn [std_move_backward].
  - by intros [= <-].
  - destruct last as [|last], d_last as [|d_last]; [done..|].
    destruct (ArrayPtr.load d last) as [x| |]; [|done..].
    cbn [mbind res_bind].
    destruct (ArrayPtr.store d d_last x) as [d1| |] eqn:H1; [|done..].
    cbn [mbind res_bind].
    destruct (ArrayPtr.store d1 last _) as [d2| |] eqn:H2; [|done..].
    cbn [mbind res_bind]. intros Hrec%IH.
    apply store_length in H1, H2. congruence.
Qed.

(** Assigning from a reference that can be read. *)
Lemma assign_returns o d i value :
  i < length (ArrayPtr.slots d) →
  (∀ source, value = Slot source → source < length (ArrayPtr.slots d)) →
  ∃ d', assign o false d i value = Ok d'.
Proof.
  intros Hi Hvalue. destruct d as [b|]; [|simpl in Hi; lia].
  simpl in Hi, Hvalue. destruct value as [x|source].
  - rewrite assign_Outside, store_Some by done. eauto.
  - specialize (Hvalue source eq_refl).
    destruct (lookup_lt_is_Some_2 b source Hvalue) as [x Hx].
    unfold assign. cbn [deref]. rewrite (load_Some _ _ _ Hx).
    cbn [mbind res_bind]. rewrite store_Some by done.
    cbn [mbind res_bind]. destruct o; [eauto|].
    rewrite store_Some by (by rewrite length_insert). eauto.
Qed.

(** The shift of [Insert] in a block with room, slot by slot. *)
Lemma shift_right v p :
  wf v → size_ v < capacity_ v → p ≤ size_ v →
  ∃ b b', data_ v = Some b
    ∧ std_move_backward (data_ v) (size_ v - p) (size_ v) (S (size_ v))
      = Ok (Some b')
    ∧ length b' = capacity_ v
    ∧ (∀ i, i < p → b' !! i = b !! i)
    ∧ (∀ i, p ≤ i < size_ v → b' !! S i = b !! i).
Proof.
  intros Hwf Hlt Hp. destruct (data_ v) as [b|] eqn:Hd.
  2:{ destruct (wf_null _ Hwf Hd). lia. }
  pose proof (wf_block _ _ Hwf Hd) as Hb.
  destruct (std_move_backward_right (size_ v - p) b (size_ v))
    as (b' & Hrun & Hl & Hlo & Hmid & _); [lia..|].
  exists b, b'. split_and!; [done|done|lia|..].
  - intros i Hi. apply Hlo. lia.
  - intros i Hi. apply Hmid. lia.
Qed.

(** *** [PushBack] *)

Lemma PushBack_returns h o v value :
  wf v → stays_valid v value →
  ∃ v', Call.PushBack h o v value = Ok v' ∧ wf v'
    ∧ size_ v' = S (size_ v)
    ∧ capacity_ v' = (if decide (size_ v = capacity_ v)
                      then 1 `max` (capacity_ v * 2) else capacity_ v).
Proof.
  intros Hwf Hvalue. destruct value as [x|source].
  { destruct (PushBack_spec h o v x Hwf) as (v' & ? & ? & _ & ? & ?).
    by exists v'. }
  destruct Hvalue as [Hlt Hsource]. pose proof Hwf as [_ Hlen].
  destruct (assign_returns o (data_ v) (size_ v) (Slot source))
    as [d' Hd']; [lia| |].
  { intros ? [= <-]. lia. }
  exists {| data_ := d'; size_ := S (size_ v); capacity_ := capacity_ v |}.
  split.
  - destruct h; cbn [Call.PushBack];
      unfold simple_vector_h.PushBack, part_000.PushBack;
      rewrite decide_False by lia; cbn [mbind res_bind];
      by rewrite Hd'.
  - rewrite decide_False by lia. split_and!; [|done..].
    split; simpl; [lia|]. by rewrite (assign_length _ _ _ _ _ _ Hd').
Qed.

Lemma PushBack_wf h o v value v' :
  wf v → Call.PushBack h o v value = Ok v' →
  wf v' ∧ size_ v' = S (size_ v).
Proof.
  intros Hwf.
  destruct h; cbn [Call.PushBack];
    unfold simple_vector_h.PushBack, part_000.PushBack;
    [destruct (sv_room v Hwf) as (v1 & -> & Hwf1 & Hs & _ & Hlt & _)
    |destruct (p0_room v Hwf) as (v1 & -> & Hwf1 & Hs & _ & Hlt & _)];
    cbn [mbind res_bind];
    (destruct (assign _ _ _ _ _) as [d'| |] eqn:Hd'; [|done..]);
    cbn [mbind res_bind]; intros [= <-]; simpl;
    (split; [|lia]); (split; simpl; [lia|]);
    rewrite (assign_length _ _ _ _ _ _ Hd'); apply Hwf1.
Qed.

(** An element passed by const reference to a vector with room is read
    before anything is written. *)
Lemma PushBack_within h v i x :
  size_ v ≠ capacity_ v → elements v !! i = Some x →
  Call.PushBack h by_const_ref v (Slot i)
  = Call.PushBack h by_const_ref v (Outside x).
Proof.
  intros Hroom Hx. unfold elements in Hx.
  apply lookup_take_Some in Hx as [Hx _].
  assert (ArrayPtr.load (data_ v) i = Ok x) as Hload.
  { destruct (data_ v) as [b|]; [|done]. by apply load_Some. }
  destruct h; cbn [Call.PushBack];
    unfold simple_vector_h.PushBack, part_000.PushBack;
    rewrite decide_False by done; cbn [mbind res_bind];
    by rewrite assign_Outside, (assign_Slot _ _ _ x Hload).
Qed.

(** An element passed as an rvalue to a vector with room is left
    moved-from where it was. *)
Lemma PushBack_moves h v i x :
  wf v → size_ v < capacity_ v → elements v !! i = Some x →
  ∃ v', Call.PushBack h by_rvalue_ref v (Slot i) = Ok v'
    ∧ elements v' = <[i:=moved_from x]> (elements v) ++ [x]
    ∧ size_ v' = S (size_ v)
    ∧ capacity_ v' = capacity_ v.
Proof.
  intros Hwf Hroom Hx. unfold elements in Hx.
  apply lookup_take_Some in Hx as [Hx Hi].
  destruct (data_ v) as [b|] eqn:Hd; [|done]. simpl in Hx.
  pose proof (wf_block _ _ Hwf Hd) as Hb.
  exists {| data_ := Some (<[i:=moved_from x]> (<[size_ v:=x]> b));
            size_ := S (size_ v); capacity_ := capacity_ v |}.
  split_and!; [|simpl|done..].
  - destruct h; cbn [Call.PushBack];
      unfold simple_vector_h.PushBack, part_000.PushBack;
      rewrite decide_False by lia; cbn [mbind res_bind];
      unfold assign; cbn [deref]; rewrite Hd, (load_Some _ _ _ Hx);
      cbn [mbind res_bind]; rewrite store_Some by lia;
      cbn [mbind res_bind];
      by rewrite store_Some by (rewrite length_insert; lia).
  - unfold elements. simpl. rewrite Hd. simpl.
    rewrite take_insert_lt by lia.
    rewrite (take_S_r _ _ x) by (apply list_lookup_insert_eq; lia).
    rewrite take_insert_ge by lia.
    by rewrite insert_app_l by (rewrite length_take; lia).
Qed.

(** In a full vector the block is replaced before the value is read. *)
Lemma PushBack_dangles h o v i :
  wf v → size_ v = capacity_ v →
  Call.PushBack h o v (Slot i) = Undefined.
Proof.
  intros Hwf Hfull.
  destruct h; cbn [Call.PushBack];
    unfold simple_vector_h.PushBack, part_000.PushBack;
    [destruct (sv_room v Hwf) as (v1 & -> & _)
    |destruct (p0_room v Hwf) as (v1 & -> & _)];
    by rewrite bool_decide_eq_true_2.
Qed.

(** *** [Insert] *)

Lemma Insert_returns h o v p value :
  wf v → p ≤ size_ v → (Z.of_nat p ≤ INT_MAX)%Z →
  stays_valid v value →
  ∃ v', Call.Insert h o v p value = Ok (v', p) ∧ wf v'
    ∧ size_ v' = S (size_ v)
    ∧ capacity_ v' = (if decide (size_ v = capacity_ v)
                      then 1 `max` (capacity_ v * 2) else capacity_ v).
Proof.
  intros Hwf Hp Hint Hvalue. destruct value as [x|source].
  { destruct (Insert_spec h o v p x Hwf Hp Hint)
      as (v' & ? & ? & _ & ? & ?).
    by exists v'. }
  destruct Hvalue as [Hlt Hsource].
  destruct (shift_right v p Hwf Hlt Hp) as (b & b' & Hb & Hrun & Hl & _).
  destruct (assign_returns o (Some b') p (Slot source))
    as [d' Hd']; [simpl; lia| |].
  { intros ? [= <-]. simpl. lia. }
  pose proof (advance_in_int v p Hint) as Hadv.
  exists {| data_ := d'; size_ := S (size_ v); capacity_ := capacity_ v |}.
  split.
  - destruct h; cbn [Call.Insert];
      unfold simple_vector_h.Insert, part_000.Insert, std_copy_backward_mi;
      rewrite Hadv; cbn [mbind res_bind];
      rewrite decide_False by lia; cbn [mbind res_bind];
      unfold end_, distance; rewrite Nat.add_1_r;
      rewrite decide_True by lia; cbn [mbind res_bind];
      rewrite Hrun; cbn [mbind res_bind]; rewrite Hd';
      cbn [mbind res_bind]; by rewrite ?Hadv.
  - rewrite decide_False by lia. split_and!; [|done..].
    split; simpl; [lia|]. rewrite (assign_length _ _ _ _ _ _ Hd').
    simpl. lia.
Qed.

Lemma Insert_wf h o v pos value v' p :
  wf v → Call.Insert h o v pos value = Ok (v', p) →
  wf v' ∧ size_ v' = S (size_ v).
Proof.
  intros Hwf.
  destruct h; cbn [Call.Insert];
    unfold simple_vector_h.Insert, part_000.Insert, std_copy_backward_mi;
    (destruct (advance (begin v) _) as [q| |] eqn:Hadv; [|done..]);
    cbn [mbind res_bind];
    [destruct (sv_room_at v _ q Hwf Hadv)
       as (v1 & -> & Hwf1 & Hs & _ & Hlt & _)
    |destruct (p0_room_at v _ q Hwf Hadv)
       as (v1 & -> & Hwf1 & Hs & _ & Hlt & _)];
    cbn [mbind res_bind];
    (destruct (distance _ _) as [n| |]; [|done..]);
    cbn [mbind res_bind];
    (destruct (std_move_backward _ _ _ _) as [d1| |] eqn:Hd1; [|done..]);
    cbn [mbind res_bind];
    (destruct (assign _ _ _ _ _) as [d'| |] eqn:Hd'; [|done..]);
    cbn [mbind res_bind];
    try (destruct (advance _ _) as [q'| |]; [|done..]);
    cbn [mbind res_bind]; intros [= <- <-]; simpl;
    (split; [|lia]); (split; simpl; [lia|]);
    rewrite (assign_length _ _ _ _ _ _ Hd');
    rewrite (std_move_backward_length _ _ _ _ _ Hd1); apply Hwf1.
Qed.

(** An element passed by const reference to a vector with room is read
    after the shift: what is inserted is what the slot holds then. *)
Lemma Insert_within h v p i :
  wf v → size_ v < capacity_ v →
  p ≤ size_ v → (Z.of_nat p ≤ INT_MAX)%Z → i < capacity_ v →
  ∃ y, Call.Insert h by_const_ref v p (Slot i)
       = Call.Insert h by_const_ref v p (Outside y)
    ∧ (i < p → elements v !! i = Some y)
    ∧ (p < i ≤ size_ v → elements v !! (i - 1) = Some y).
Proof.
  intros Hwf Hlt Hp Hint Hi.
  destruct (shift_right v p Hwf Hlt Hp)
    as (b & b' & Hb & Hrun & Hl & Hlo & Hmid).
  destruct (lookup_lt_is_Some_2 b' i) as [y Hy]; [lia|].
  pose proof (load_Some _ _ _ Hy) as Hload.
  pose proof (advance_in_int v p Hint) as Hadv.
  exists y. split_and!.
  - destruct h; cbn [Call.Insert];
      unfold simple_vector_h.Insert, part_000.Insert, std_copy_backward_mi;
      rewrite Hadv; cbn [mbind res_bind];
      rewrite decide_False by lia; cbn [mbind res_bind];
      unfold end_, distance; rewrite Nat.add_1_r;
      rewrite decide_True by lia; cbn [mbind res_bind];
      rewrite Hrun; cbn [mbind res_bind];
      by rewrite assign_Outside, (assign_Slot _ _ _ y Hload).
  - intros Hip. unfold elements. rewrite Hb. simpl.
    rewrite lookup_take_lt by lia. by rewrite <- Hlo.
  - intros Hip. unfold elements. rewrite Hb. simpl.
    rewrite lookup_take_lt by lia. rewrite <- Hmid by lia.
    by replace (S (i - 1)) with i by lia.
Qed.

(** Passed as an rvalue, the element is inserted as it is when passed
    by const reference, and the slot it was read from is left
    moved-from. *)
Lemma Insert_moves h v p i :
  wf v → size_ v < capacity_ v →
  p ≤ size_ v → (Z.of_nat p ≤ INT_MAX)%Z → i < capacity_ v →
  ∃ v1 y d, Call.Insert h by_const_ref v p (Slot i) = Ok (v1, p)
    ∧ ArrayPtr.load (data_ v1) p = Ok y
    ∧ ArrayPtr.store (data_ v1) i (moved_from y) = Ok d
    ∧ Call.Insert h by_rvalue_ref v p (Slot i)
      = Ok ({| data_ := d; size_ := size_ v1; capacity_ := capacity_ v1 |},
            p).
Proof.
  intros Hwf Hlt Hp Hint Hi.
  destruct (shift_right v p Hwf Hlt Hp) as (b & b' & Hb & Hrun & Hl & _).
  destruct (lookup_lt_is_Some_2 b' i) as [y Hy]; [lia|].
  pose proof (load_Some _ _ _ Hy) as Hload.
  pose proof (advance_in_int v p Hint) as Hadv.
  exists {| data_ := Some (<[p:=y]> b'); size_ := S (size_ v);
            capacity_ := capacity_ v |}, y,
    (Some (<[i:=moved_from y]> (<[p:=y]> b'))).
  split_and!.
  - destruct h; cbn [Call.Insert];
      unfold simple_vector_h.Insert, part_000.Insert, std_copy_backward_mi;
      rewrite Hadv; cbn [mbind res_bind];
      rewrite decide_False by lia; cbn [mbind res_bind];
      unfold end_, distance; rewrite Nat.add_1_r;
      rewrite decide_True by lia; cbn [mbind res_bind];
      rewrite Hrun; cbn [mbind res_bind];
      rewrite (assign_Slot _ _ _ y Hload), store_Some by lia;
      cbn [mbind res_bind]; by rewrite ?Hadv.
  - simpl. apply load_Some, list_lookup_insert_eq. lia.
  - simpl. apply store_Some. rewrite length_insert. lia.
  - destruct h; cbn [Call.Insert];
      unfold simple_vector_h.Insert, part_000.Insert, std_copy_backward_mi;
      rewrite Hadv; cbn [mbind res_bind];
      rewrite decide_False by lia; cbn [mbind res_bind];
      unfold end_, distance; rewrite Nat.add_1_r;
      rewrite decide_True by lia; cbn [mbind res_bind];
      rewrite Hrun; cbn [mbind res_bind];
      unfold assign; cbn [deref]; rewrite Hload; cbn [mbind res_bind];
      rewrite store_Some by lia; cbn [mbind res_bind];
      rewrite store_Some by (rewrite length_insert; lia);
      cbn [mbind res_bind]; by rewrite ?Hadv.
Qed.

Lemma Insert_dangles h o v p i :
  wf v → size_ v = capacity_ v →
  p ≤ size_ v → (Z.of_nat p ≤ INT_MAX)%Z →
  Call.Insert h o v p (Slot i) = Undefined.
Proof.
  intros Hwf Hfull Hp Hint.
  pose proof (advance_in_int v p Hint) as Hadv.
  destruct h; cbn [Call.Insert];
    unfold simple_vector_h.Insert, part_000.Insert, std_copy_backward_mi;
    rewrite Hadv; cbn [mbind res_bind];
    [destruct (sv_room_at v _ p Hwf Hadv)
       as (v1 & -> & Hwf1 & Hs & _ & Hlt & _)
    |destruct (p0_room_at v _ p Hwf Hadv)
       as (v1 & -> & Hwf1 & Hs & _ & Hlt & _)];
    cbn [mbind res_bind]; rewrite bool_decide_eq_true_2 by done;
    unfold end_, distance; rewrite Nat.add_1_r;
    rewrite decide_True by lia; cbn [mbind res_bind];
    (destruct (shift_right v1 p Hwf1 Hlt) as (b & b' & _ & Hrun & _);
     [lia|]);
    by rewrite Hs, Hrun in *.
Qed.

Lemma Insert_past_int h o v p value :
  (INT_MAX < Z.of_nat p < 2 ^ 32)%Z →
  Call.Insert h o v p value = Undefined.
Proof.
  intros Hp.
  destruct h; cbn [Call.Insert];
    unfold simple_vector_h.Insert, part_000.Insert;
    by rewrite (advance_past_int v p Hp).
Qed.

(** *** [Erase] *)

Lemma Erase_wf h v pos v' p :
  wf v → Call.Erase h v pos = Ok (v', p) →
  wf v' ∧ size_ v' = size_ v - 1.
Proof.
  intros Hwf. pose proof Hwf as [Hle Hlen].
  destruct h; cbn [Call.Erase];
    unfold simple_vector_h.Erase, part_000.Erase, std_copy_mi;
    (destruct (advance (begin v) _) as [q| |]; [|done..]);
    cbn [mbind res_bind];
    (destruct (distance _ _) as [n| |]; [|done..]);
    cbn [mbind res_bind];
    (destruct (std_move _ _ _ _) as [d1| |] eqn:Hd1; [|done..]);
    cbn [mbind res_bind]; intros [= <- <-]; simpl;
    (split; [|lia]); (split; simpl; [lia|]);
    by rewrite (std_move_length _ _ _ _ _ Hd1).
Qed.

Lemma Erase_past_int h v p :
  (INT_MAX < Z.of_nat p < 2 ^ 32)%Z → Call.Erase h v p = Undefined.
Proof.
  intros Hp.
  destruct h; cbn [Call.Erase];
    unfold simple_vector_h.Erase, part_000.Erase;
    by rewrite (advance_past_int v p Hp).
Qed.
End reference_facts.

(** ** The two headers side by side *)

Section relational.
Context `{Element T}.
Implicit Types (p q : ArrayPtr.t T) (a b : SimpleVector T) (x : T).
Implicit Types (o : overload).

Lemma res_rel_bind {A B A' B'} (R : A → B → Prop) (S : A' → B' → Prop)
    (m1 : res A) (m2 : res B) (f : A → res A') (g : B → res B') :
  res_rel R m1 m2 →
  (∀ u w, R u w → res_rel S (f u) (g w)) →
  res_rel S (m1 ≫= f) (m2 ≫= g).
Proof. destruct m1, m2; simpl; try done. auto. Qed.

Lemma load_slots p i :
  ArrayPtr.load p i
  = match ArrayPtr.slots p !! i with Some x => Ok x | None => Undefined end.
Proof. by destruct p. Qed.

Lemma store_slots p i x :
  res_rel same_slots (ArrayPtr.store p i x)
    (if decide (i < length (ArrayPtr.slots p))
     then Ok (Some (<[i:=x]> (ArrayPtr.slots p))) else Undefined).
Proof.
  destruct p as [b|]; unfold ArrayPtr.store, ArrayPtr.slots; simpl.
  - case_decide; simpl; done.
  - done.
Qed.

Lemma load_same p q i : same_slots p q → ArrayPtr.load p i = ArrayPtr.load q i.
Proof. intros Hpq. by rewrite !load_slots, Hpq. Qed.

Lemma store_same p q i x :
  same_slots p q →
  res_rel same_slots (ArrayPtr.store p i x) (ArrayPtr.store q i x).
Proof.
  intros Hpq. pose proof (store_slots p i x) as Hp.
  pose proof (store_slots q i x) as Hq. rewrite <- Hpq in Hq.
  destruct (ArrayPtr.store p i x), (ArrayPtr.store q i x);
    case_decide; simpl in *; try done.
  unfold same_slots in *. congruence.
Qed.

Lemma fill_same n : ∀ p q first x,
  same_slots p q →
  res_rel same_slots (ArrayPtr.fill p first n x) (ArrayPtr.fill q first n x).
Proof.
  induction n as [|n IH]; intros p q first x Hpq; cbn [ArrayPtr.fill].
  - done.
  - eapply res_rel_bind; [by apply store_same|]. intros. by apply IH.
Qed.

Lemma std_move_same n : ∀ p q first d_first,
  same_slots p q →
  res_rel same_slots (std_move p first n d_first)
    (std_move q first n d_first).
Proof.
  induction n as [|n IH]; intros p q first d_first Hpq; cbn [std_move].
  - done.
  - rewrite (load_same p q) by done.
    destruct (ArrayPtr.load q first) as [x| |]; [|done..].
    cbn [mbind res_bind].
    eapply res_rel_bind; [by apply store_same|]. intros p1 q1 H1.
    eapply res_rel_bind; [by apply store_same|]. intros. by apply IH.
Qed.

Lemma std_move_backward_same n : ∀ p q last d_last,
  same_slots p q →
  res_rel same_slots (std_move_backward p n last d_last)
    (std_move_backward q n last d_last).
Proof.
  induction n as [|n IH]; intros p q last d_last Hpq;
    cbn [std_move_backward].
  - done.
  - destruct last as [|last], d_last as [|d_last]; try done.
    rewrite (load_same p q) by done.
    destruct (ArrayPtr.load q last) as [x| |]; [|done..].
    cbn [mbind res_bind].
    eapply res_rel_bind; [by apply store_same|]. intros p1 q1 H1.
    eapply res_rel_bind; [by apply store_same|]. intros. by apply IH.
Qed.

Lemma sync_refl a : sync a a.
Proof. by split_and!. Qed.

Lemma sync_elements a b : sync a b → elements a = elements b.
Proof. intros (Hs & _ & Hd). unfold elements. by rewrite Hs, Hd. Qed.

Lemma sim_size a b : sim a b → size_ a = size_ b.
Proof. intros (_ & _ & [(? & _)|(-> & ? & _)]); [done|by simpl]. Qed.

Lemma sim_elements a b : sim a b → elements a = elements b.
Proof.
  intros (_ & _ & [?|(-> & Hs & _)]); [by apply sync_elements|].
  unfold elements. by rewrite Hs.
Qed.

(** A vector with no spare capacity: all its slots are elements. *)
Lemma slots_full a :
  wf a → size_ a = capacity_ a → ArrayPtr.slots (data_ a) = elements a.
Proof.
  intros [_ Hlen] Hfull. unfold elements. rewrite take_ge; [done|lia].
Qed.

Lemma sync_full a b :
  wf a → wf b → size_ a = capacity_ a → size_ b = capacity_ b →
  elements a = elements b → sync a b.
Proof.
  intros Ha Hb Hfa Hfb He.
  pose proof (length_elements a Ha) as Hla.
  pose proof (length_elements b Hb) as Hlb. rewrite He in Hla.
  split_and!; [congruence..|].
  unfold same_slots. by rewrite !slots_full.
Qed.

Lemma wf_sync_r a b : wf a → sync a b → wf b.
Proof.
  intros [Hle Hlen] (Hs & Hc & Hd). unfold same_slots in Hd.
  split; [lia|congruence].
Qed.

(** Making room leaves the two in step, also when one was ahead. *)
Lemma room_sim a b :
  sim a b →
  res_rel (λ a' b', sync a' b' ∧ wf a' ∧ size_ a' < capacity_ a')
    (if decide (size_ a = capacity_ a)
     then simple_vector_h.Reserve a (capacity_ a * 2) else Ok a)
    (if decide (size_ b = capacity_ b)
     then part_000.Expand b (capacity_ b * 2) else Ok b).
Proof.
  intros (Ha & Hb & [Hsync|(-> & Hs & Hc)]).
  - pose proof Hsync as (Hs & Hc & Hd).
    pose proof (sync_elements _ _ Hsync) as He.
    rewrite <- Hs, <- Hc. case_decide as Hfull.
    + unfold part_000.Expand.
      rewrite sv_Reserve_grow by (done || lia).
      rewrite p0_Reserve_grow by (done || case_decide; lia).
      simpl. rewrite <- He, <- Hs.
      replace (if decide (0 < capacity_ a * 2) then capacity_ a * 2 else 1)
        with ((capacity_ a * 2) `max` 1) by (case_decide; lia).
      split_and!; [apply sync_refl| |simpl; lia].
      apply wf_reallocated; [done|lia].
    + simpl. destruct Ha. split_and!; [done|done|lia].
  - simpl. rewrite Hs, Hc. rewrite decide_True by done.
    unfold part_000.Expand. simpl.
    rewrite p0_Reserve_grow by (done || lia).
    simpl. unfold elements. rewrite Hs. simpl.
    split_and!; [apply sync_refl|done|lia].
Qed.

Lemma push_back_tail_sim a b x :
  sync a b → wf a → size_ a < capacity_ a →
  res_rel sim
    (d ← ArrayPtr.store (data_ a) (size_ a) x;
     Ok {| data_ := d; size_ := S (size_ a); capacity_ := capacity_ a |})
    (d ← ArrayPtr.store (data_ b) (size_ b) x;
     Ok {| data_ := d; size_ := S (size_ b); capacity_ := capacity_ b |}).
Proof.
  intros Hsync Ha Hlt. pose proof (wf_sync_r _ _ Ha Hsync) as Hb.
  pose proof Hsync as (Hs & Hc & Hd).
  destruct (push_back_tail a x Ha Hlt) as (da & Hda & Hwa & _).
  destruct (push_back_tail b x Hb) as (db & Hdb & Hwb & _); [lia|].
  pose proof (store_same _ _ (size_ a) x Hd) as Hrel.
  rewrite Hs in Hrel at 2. rewrite Hda, Hdb in *. simpl in *.
  split_and!; [done..|]. left. split_and!; simpl; congruence.
Qed.

Lemma PushBack_sim o a b x :
  sim a b →
  res_rel sim (Call.PushBack simple_vector o a (Outside x))
    (Call.PushBack second_header o b (Outside x)).
Proof.
  intros Hsim. cbn [Call.PushBack].
  rewrite sv_PushBack_Outside, p0_PushBack_Outside.
  eapply res_rel_bind; [by apply room_sim|].
  intros a' b' (? & ? & ?). by apply push_back_tail_sim.
Qed.

Lemma res_rel_sim (ma mb : res (SimpleVector T)) :
  (∃ a', ma = Ok a' ∧ wf a') → (∃ b', mb = Ok b' ∧ wf b') →
  res_rel (λ a' b', sync a' b' ∨ ahead a' b') ma mb →
  res_rel sim ma mb.
Proof. intros (a' & -> & ?) (b' & -> & ?) ?. by split_and!. Qed.

Lemma elements_no_size a : size_ a = 0 → elements a = [].
Proof. intros Hs. unfold elements. by rewrite Hs. Qed.

Lemma Reserve_sim a b n :
  sim a b →
  res_rel sim (Call.Reserve simple_vector a n)
    (Call.Reserve second_header b n).
Proof.
  intros (Ha & Hb & Hrel). apply res_rel_sim.
  { destruct (Reserve_spec simple_vector a n Ha) as (a' & ? & ? & _).
    eauto. }
  { destruct (Reserve_spec second_header b n Hb) as (b' & ? & ? & _).
    eauto. }
  cbn [Call.Reserve]. pose proof Ha as [Hlea _].
  destruct Hrel as [Hsync|(-> & Hs & Hc)].
  - pose proof Hsync as (Hs & Hc & Hd).
    pose proof (sync_elements _ _ Hsync) as He.
    destruct (decide (n ≤ capacity_ a)) as [Hn|Hn].
    + rewrite (p0_Reserve_keep b) by lia.
      destruct (decide (capacity_ a = 0)) as [Hc0|Hc0].
      * rewrite sv_Reserve_grow by (done || lia). simpl. right.
        rewrite elements_no_size by lia.
        replace (n `max` 1 - size_ a) with 1 by lia.
        split_and!; [|lia..]. f_equal; (done || lia).
      * rewrite sv_Reserve_keep by done. simpl. by left.
    + rewrite sv_Reserve_grow by (done || lia).
      rewrite p0_Reserve_grow by (done || lia). simpl. left.
      rewrite <- He, <- Hs. replace (n `max` 1) with n by lia.
      apply sync_refl.
  - destruct (decide (n ≤ 1)) as [Hn|Hn].
    + rewrite sv_Reserve_keep by (simpl; lia).
      destruct (decide (n = 0)) as [->|Hn0].
      * rewrite p0_Reserve_keep by lia. simpl. by right.
      * rewrite p0_Reserve_grow by (done || lia). simpl. left.
        rewrite elements_no_size, Hs by done.
        replace n with 1 by lia. apply sync_refl.
    + rewrite sv_Reserve_grow by (done || simpl; lia).
      rewrite p0_Reserve_grow by (done || lia). simpl. left.
      rewrite (elements_no_size b), Hs by done.
      replace (n `max` 1) with n by lia. apply sync_refl.
Qed.

Lemma Resize_sim a b n :
  sim a b →
  res_rel sim (Call.Resize simple_vector a n)
    (Call.Resize second_header b n).
Proof.
  intros (Ha & Hb & Hrel). apply res_rel_sim.
  { destruct (Resize_spec simple_vector a n Ha) as (a' & ? & ? & _).
    eauto. }
  { destruct (Resize_spec second_header b n Hb) as (b' & ? & ? & _).
    eauto. }
  cbn [Call.Resize]. pose proof Ha as [Hlea _].
  unfold simple_vector_h.Resize, part_000.Resize, part_000.Expand.
  destruct Hrel as [Hsync|(-> & Hs & Hc)].
  - pose proof Hsync as (Hs & Hc & Hd).
    pose proof (sync_elements _ _ Hsync) as He.
    rewrite <- Hs, <- Hc.
    destruct (decide (n ≤ size_ a)) as [Hn|Hn].
    + rewrite decide_False by lia. simpl.
      destruct (decide (capacity_ a = 0)) as [Hc0|Hc0].
      * rewrite sv_Reserve_grow by (done || lia). simpl. right.
        rewrite elements_no_size by lia.
        replace (n `max` 1 - size_ a) with 1 by lia.
        split_and!; simpl; [|lia..]. f_equal; (done || lia).
      * rewrite sv_Reserve_keep by (done || lia). simpl. left.
        by split_and!.
    + destruct (decide (n ≤ capacity_ a)) as [Hnc|Hnc].
      * rewrite decide_True by lia. unfold begin, end_, distance.
        cbn [Nat.add]. rewrite <- Hs, decide_True by lia.
        cbn [mbind res_bind].
        eapply res_rel_bind; [by apply fill_same|].
        intros da db Hdab. simpl. left. by split_and!.
      * rewrite decide_False by lia. rewrite decide_True by lia.
        rewrite sv_Reserve_grow by (done || lia).
        rewrite p0_Reserve_grow by (done || lia). simpl. left.
        rewrite <- He, <- Hs. replace (n `max` 1) with n by lia.
        apply sync_refl.
  - fold (part_000.Expand b n). fold (part_000.Resize b n).
    fold (simple_vector_h.Resize
            {| data_ := Some [value_init]; size_ := 0; capacity_ := 1 |} n).
    assert (part_000.Resize b n
            = Ok (if decide (n = 0)
                  then {| data_ := data_ b; size_ := 0; capacity_ := 0 |}
                  else {| data_ := Some (replicate n value_init);
                          size_ := n; capacity_ := n |})) as ->.
    { unfold part_000.Resize, part_000.Expand. rewrite Hs, Hc.
      destruct (decide (n = 0)) as [->|Hn0].
      - by rewrite decide_True by lia.
      - rewrite !decide_False by lia. rewrite decide_True by lia.
        rewrite p0_Reserve_grow by (done || lia). simpl.
        by rewrite elements_no_size, Hs, Nat.sub_0_r by done. }
    destruct n as [|[|n]].
    + simpl. by right.
    + simpl. left. apply sync_refl.
    + unfold simple_vector_h.Resize. rewrite decide_False by (simpl; lia).
      rewrite sv_Reserve_grow by (done || simpl; lia).
      cbn [mbind res_bind data_ size_ capacity_].
      rewrite decide_False by lia. left.
      rewrite Nat.max_l by lia. apply sync_refl.
Qed.

Lemma Insert_sim o a b position x :
  sim a b →
  res_rel (λ r1 r2, sim r1.1 r2.1 ∧ r1.2 = r2.2)
    (Call.Insert simple_vector o a position (Outside x))
    (Call.Insert second_header o b position (Outside x)).
Proof.
  intros Hsim. cbn [Call.Insert].
  rewrite sv_Insert_Outside, p0_Insert_Outside.
  unfold std_copy_backward_mi. change (begin b) with (begin a).
  destruct (advance (begin a) _) as [pos| |]; [|done..].
  cbn [mbind res_bind].
  eapply res_rel_bind; [by apply room_sim|].
  intros a' b' (Hsync & Ha' & Hlt).
  pose proof (wf_sync_r _ _ Ha' Hsync) as Hb'.
  pose proof Hsync as (Hs & Hc & Hd).
  unfold begin, end_, distance. rewrite !Nat.add_1_r.
  rewrite <- Hs.
  case_decide as Hp; [|done]. cbn [mbind res_bind].
  destruct (insert_tail a' pos x Ha' Hlt Hp)
    as (d1a & da & Hma & Hsa & Hwa & _).
  destruct (insert_tail b' pos x Hb') as (d1b & db & Hmb & Hsb & Hwb & _);
    [lia..|].
  rewrite <- Hs in Hmb.
  pose proof (std_move_backward_same (size_ a' - pos) _ _ (size_ a')
                (S (size_ a')) Hd) as Hrel1.
  rewrite Hma, Hmb in *. cbn [mbind res_bind]. simpl in Hrel1.
  pose proof (store_same _ _ pos x Hrel1) as Hrel2.
  rewrite Hsa, Hsb in *. simpl in *. rewrite <- Hs in Hwb.
  split; [|done]. split_and!; [done..|]. left.
  split_and!; simpl; congruence.
Qed.

Lemma Erase_sim a b position :
  sim a b →
  res_rel (λ r1 r2, sim r1.1 r2.1 ∧ r1.2 = r2.2)
    (Call.Erase simple_vector a position)
    (Call.Erase second_header b position).
Proof.
  intros (Ha & Hb & Hrel). cbn [Call.Erase].
  rewrite sv_Erase_at, p0_Erase_at.
  unfold std_copy_mi. change (begin b) with (begin a).
  destruct (advance (begin a) _) as [pos| |]; [|done..].
  cbn [mbind res_bind].
  unfold begin, end_, distance. rewrite !Nat.add_1_r.
  destruct Hrel as [Hsync|(-> & Hs & Hc)].
  - pose proof Hsync as (Hs & Hc & Hd). rewrite <- Hs.
    case_decide as Hp; [|done]. cbn [mbind res_bind].
    destruct (erase_tail a pos Ha) as (da & Hma & Hwa & _); [lia|].
    destruct (erase_tail b pos Hb) as (db & Hmb & Hwb & _); [lia|].
    rewrite <- Hs in Hmb.
    pose proof (std_move_same (size_ a - S pos) _ _ (S pos) pos Hd)
      as Hrel1.
    rewrite Hma, Hmb in *. simpl in *. rewrite <- Hs in Hwb.
    split; [|done]. split_and!; [done..|]. left.
    split_and!; simpl; congruence.
  - simpl. rewrite Hs. by rewrite decide_False by lia.
Qed.

Lemma sim_empty : sim (empty (T:=T)) empty.
Proof. split_and!; [apply wf_empty..|]. left. apply sync_refl. Qed.

Lemma sim_of_size n : sim (of_size (T:=T) n) (of_size n).
Proof. split_and!; [apply wf_of_size..|]. left. apply sync_refl. Qed.

Lemma of_reserve_sim r :
  res_rel sim (Call.of_reserve simple_vector r)
    (Call.of_reserve second_header r).
Proof.
  destruct r as [n]. cbn [Call.of_reserve].
  unfold simple_vector_h.of_reserve, part_000.of_reserve. simpl.
  case_decide; [apply sim_empty|].
  apply (Reserve_sim empty empty n), sim_empty.
Qed.

Lemma of_fill_sim n x :
  res_rel sim (Call.of_fill simple_vector n x)
    (Call.of_fill second_header n x).
Proof.
  destruct (of_fill_spec simple_vector n x) as (a & -> & ? & ? & ? & ?).
  destruct (of_fill_spec second_header n x) as (b & -> & ? & ? & ? & ?).
  split_and!; [done..|]. left. apply sync_full; congruence.
Qed.

Lemma of_list_sim (init : list T) :
  res_rel sim (Call.of_list simple_vector init)
    (Call.of_list second_header init).
Proof.
  destruct (of_list_spec simple_vector init) as (a & -> & ? & ? & ? & ?).
  destruct (of_list_spec second_header init) as (b & -> & ? & ? & ? & ?).
  split_and!; [done..|]. left. apply sync_full; congruence.
Qed.

Lemma At_sim a b i : sim a b → At a i = At b i.
Proof.
  intros (_ & _ & [(Hs & _ & Hd)|(-> & Hs & _)]); unfold At.
  - rewrite Hs. case_decide; [done|]. by apply load_same.
  - simpl. rewrite Hs. by rewrite !decide_True by lia.
Qed.

Lemma compare_sim c a1 b1 a2 b2 :
  sim a1 b1 → sim a2 b2 → compare c a1 a2 = compare c b1 b2.
Proof.
  intros H1%sim_elements H2%sim_elements.
  destruct c; unfold compare, ne_op, le_op, ge_op, gt_op, eq_op, lt_op;
    by rewrite H1, H2.
Qed.

Lemma IsEmpty_sim a b : sim a b → IsEmpty a = IsEmpty b.
Proof. intros Hs%sim_size. unfold IsEmpty. by rewrite Hs. Qed.

Lemma observe_sim a b : sim a b → same_but_capacity (observe a) (observe b).
Proof.
  intros Hsim. split_and!; simpl.
  - by apply sim_size.
  - by apply sim_elements.
  - destruct Hsim as (_ & _ & [(_ & ? & _)|(-> & _ & ?)]); [by left|].
    right. by simpl.
Qed.
End relational.

(** ** Stores side by side *)

Section stores.
Context `{Element T}.
Implicit Types (a b c d : SimpleVector T) (σa σb : list (SimpleVector T)).

Lemma get_None σa name : σa !! name = None → get name σa = Undefined.
Proof. intros Hn. unfold get. by rewrite Hn. Qed.

Lemma set_data_None σa name p :
  σa !! name = None → set_data_ name p σa = Undefined.
Proof. intros Hn. unfold set_data_. by rewrite get_None. Qed.

Lemma get_sim σa σb name :
  Forall2 sim σa σb → res_rel sim (get name σa) (get name σb).
Proof.
  intros Hσ. apply Forall2_lookup with (i := name) in Hσ.
  unfold get. by destruct Hσ.
Qed.

(** Two stores changed alike in at most two places. *)
Lemma Forall2_sim_two σa σb σa' σb' this other ca cb da db :
  Forall2 sim σa σb →
  length σa' = length σa → length σb' = length σb →
  σa' !! this = Some ca → σb' !! this = Some cb → sim ca cb →
  (this ≠ other → σa' !! other = Some da ∧ σb' !! other = Some db) →
  sim da db →
  (∀ k, k ≠ this → k ≠ other → σa' !! k = σa !! k) →
  (∀ k, k ≠ this → k ≠ other → σb' !! k = σb !! k) →
  Forall2 sim σa' σb'.
Proof.
  intros Hσ Hla Hlb Hta Htb Hc Hother Hd Hra Hrb.
  apply Forall2_same_length_lookup_2.
  { rewrite Hla, Hlb. by eapply Forall2_length. }
  intros k x y Hx Hy.
  destruct (decide (k = this)) as [->|?]; [congruence|].
  destruct (decide (k = other)) as [->|?].
  - destruct Hother as [? ?]; [done|]. congruence.
  - rewrite Hra in Hx by done. rewrite Hrb in Hy by done.
    by eapply Forall2_lookup_lr.
Qed.

Lemma lookup_sim σa σb name :
  Forall2 sim σa σb →
  (σa !! name = None ∧ σb !! name = None)
  ∨ (∃ a b, σa !! name = Some a ∧ σb !! name = Some b ∧ sim a b).
Proof.
  intros Hσ. apply Forall2_lookup with (i := name) in Hσ.
  destruct (σa !! name), (σb !! name); inversion Hσ; eauto 6.
Qed.

Lemma CopyAndSwap_sim this other σa σb :
  Forall2 sim σa σb →
  res_rel (Forall2 sim) (CopyAndSwap this other σa)
    (CopyAndSwap this other σb).
Proof.
  intros Hσ.
  destruct (lookup_sim σa σb other Hσ)
    as [[Hao Hbo]|(ao & bo & Hao & Hbo & Hsimo)].
  { unfold CopyAndSwap. by rewrite (get_None _ _ Hao), (get_None _ _ Hbo). }
  pose proof Hsimo as (Hwao & Hwbo & _).
  destruct (lookup_sim σa σb this Hσ)
    as [[Hat Hbt]|(at_ & bt & Hat & Hbt & Hsimt)].
  { unfold CopyAndSwap.
    rewrite (get_Some _ _ _ Hao), (get_Some _ _ _ Hbo).
    cbn [mbind res_bind]. rewrite !copy_of by done.
    cbn [mbind res_bind].
    by rewrite (get_None _ _ Hat), (get_None _ _ Hbt). }
  destruct (CopyAndSwap_spec this other σa at_ ao Hat Hao Hwao)
    as (σa' & ca & -> & Hla & Hta & Hwca & Heca & Hsca & Hcca & Hoa & Hra).
  destruct (CopyAndSwap_spec this other σb bt bo Hbt Hbo Hwbo)
    as (σb' & cb & -> & Hlb & Htb & Hwcb & Hecb & Hscb & Hccb & Hob & Hrb).
  simpl.
  eapply (Forall2_sim_two σa σb σa' σb' this other ca cb ao bo);
    try done; [|by auto].
  split_and!; [done..|]. left.
  apply sync_full; try done; try congruence.
  rewrite Heca, Hecb. by apply sim_elements.
Qed.

Lemma MoveFrom_sim this other σa σb :
  Forall2 sim σa σb →
  res_rel (Forall2 sim) (MoveFrom this other σa) (MoveFrom this other σb).
Proof.
  intros Hσ.
  destruct (lookup_sim σa σb other Hσ)
    as [[Hao Hbo]|(ao & bo & Hao & Hbo & Hsimo)].
  { unfold MoveFrom. by rewrite (get_None _ _ Hao), (get_None _ _ Hbo). }
  destruct (lookup_sim σa σb this Hσ)
    as [[Hat Hbt]|(at_ & bt & Hat & Hbt & Hsimt)].
  { unfold MoveFrom.
    rewrite (get_Some _ _ _ Hao), (get_Some _ _ _ Hbo).
    cbn [mbind res_bind].
    rewrite (set_data_Some _ _ _ _ Hao), (set_data_Some _ _ _ _ Hbo).
    cbn [mbind res_bind].
    rewrite !set_data_None; [done|..];
      apply lookup_ge_None_2; rewrite length_insert;
      by apply lookup_ge_None_1. }
  destruct (MoveFrom_spec this other σa at_ ao Hat Hao)
    as (σa' & -> & Hla & Hta & Hoa & Hra).
  destruct (MoveFrom_spec this other σb bt bo Hbt Hbo)
    as (σb' & -> & Hlb & Htb & Hob & Hrb).
  simpl.
  eapply (Forall2_sim_two σa σb σa' σb' this other ao bo empty empty);
    try done; [by auto|apply sim_empty].
Qed.

Lemma swap_sim this other σa σb :
  Forall2 sim σa σb →
  res_rel (Forall2 sim) (swap this other σa) (swap this other σb).
Proof.
  intros Hσ.
  destruct (lookup_sim σa σb this Hσ)
    as [[Hat Hbt]|(at_ & bt & Hat & Hbt & Hsimt)].
  { unfold swap. by rewrite (get_None _ _ Hat), (get_None _ _ Hbt). }
  destruct (lookup_sim σa σb other Hσ)
    as [[Hao Hbo]|(ao & bo & Hao & Hbo & Hsimo)].
  { unfold swap.
    rewrite (get_Some _ _ _ Hat), (get_Some _ _ _ Hbt).
    cbn [mbind res_bind].
    by rewrite (get_None _ _ Hao), (get_None _ _ Hbo). }
  destruct (swap_spec this other σa at_ ao Hat Hao)
    as (σa' & -> & Hla & Hta & Hoa & Hra).
  destruct (swap_spec this other σb bt bo Hbt Hbo)
    as (σb' & -> & Hlb & Htb & Hob & Hrb).
  simpl.
  by eapply (Forall2_sim_two σa σb σa' σb' this other ao bo at_ bt).
Qed.

(** What one statement leaves: related stores and the same outcome. *)
Local Abbreviation same_after :=
  (λ ra rb : list (SimpleVector T) * outcome T,
     Forall2 sim ra.1 rb.1 ∧ ra.2 = rb.2).

Lemma declare_sim (va vb : res (SimpleVector T)) σa σb :
  res_rel sim va vb → Forall2 sim σa σb →
  res_rel same_after (declare va σa) (declare vb σb).
Proof.
  intros Hv Hσ. unfold declare.
  eapply res_rel_bind; [done|]. intros a b Hab. simpl.
  split; [|done]. apply Forall2_app; [done|]. by constructor.
Qed.

Lemma call_void_sim this (f g : SimpleVector T → res (SimpleVector T))
    σa σb :
  (∀ a b, sim a b → res_rel sim (f a) (g b)) → Forall2 sim σa σb →
  res_rel same_after (call_void this f σa) (call_void this g σb).
Proof.
  intros Hfg Hσ. unfold call_void, call.
  eapply res_rel_bind with (R := Forall2 sim); [|by intros].
  eapply res_rel_bind; [by apply get_sim|]. intros a b Hab.
  eapply res_rel_bind; [by apply Hfg|]. intros a' b' Hab'. simpl.
  by apply Forall2_insert.
Qed.

Lemma call_iterator_sim this
    (f g : SimpleVector T → res (SimpleVector T * nat)) σa σb :
  (∀ a b, sim a b →
     res_rel (λ r1 r2, sim r1.1 r2.1 ∧ r1.2 = r2.2) (f a) (g b)) →
  Forall2 sim σa σb →
  res_rel same_after (call_iterator this f σa) (call_iterator this g σb).
Proof.
  intros Hfg Hσ. unfold call_iterator.
  eapply res_rel_bind; [by apply get_sim|]. intros a b Hab.
  eapply res_rel_bind; [by apply Hfg|].
  intros [a' i] [b' j] [Hab' Hij]. simpl in *. subst.
  split; [|done]. by apply Forall2_insert.
Qed.

Lemma exec_sim st σa σb :
  Forall2 sim σa σb → is_subscript st = false →
  res_rel same_after (exec simple_vector st σa) (exec second_header st σb).
Proof.
  intros Hσ Hst.
  assert (length σa = length σb) as Hlen by (by eapply Forall2_length).
  assert (Forall2 sim (σa ++ [empty]) (σb ++ [empty])) as Hσ'.
  { apply Forall2_app; [done|]. constructor; [apply sim_empty|done]. }
  destruct st; try discriminate Hst; cbn [exec].
  - apply declare_sim; [apply sim_empty|done].
  - apply declare_sim; [apply of_reserve_sim|done].
  - apply declare_sim; [apply sim_of_size|done].
  - apply declare_sim; [apply of_fill_sim|done].
  - apply declare_sim; [apply of_list_sim|done].
  - unfold copy_construct. rewrite Hlen.
    pose proof (CopyAndSwap_sim (length σb) other _ _ Hσ') as Hrel.
    destruct (CopyAndSwap _ _ (σa ++ _)), (CopyAndSwap _ _ (σb ++ _));
      done.
  - unfold move_construct. rewrite Hlen.
    pose proof (MoveFrom_sim (length σb) other _ _ Hσ') as Hrel.
    destruct (MoveFrom _ _ (σa ++ _)), (MoveFrom _ _ (σb ++ _)); done.
  - eapply res_rel_bind; [by apply CopyAndSwap_sim|]. by intros.
  - eapply res_rel_bind; [by apply MoveFrom_sim|]. by intros.
  - eapply res_rel_bind; [by apply swap_sim|]. by intros.
  - apply call_void_sim; [|done]. intros. by apply Reserve_sim.
  - apply call_void_sim; [|done]. intros. by apply Resize_sim.
  - apply call_void_sim; [|done]. intros. by apply PushBack_sim.
  - apply call_iterator_sim; [|done]. intros. by apply Insert_sim.
  - apply call_iterator_sim; [|done]. intros. by apply Erase_sim.
  - apply call_void_sim; [|done]. intros a b (Ha & Hb & Hab). simpl.
    split_and!; [by apply wf_Clear..|].
    destruct Hab as [(? & ? & ?)|(-> & ? & ?)]; [left|right]; done.
  - apply call_void_sim; [|done]. intros a b (Ha & Hb & Hab). simpl.
    split_and!; [by apply wf_PopBack..|].
    destruct Hab as [(Hs & ? & ?)|(-> & Hs & ?)]; [left|right].
    + split_and!; simpl; [by rewrite Hs|done..].
    + split_and!; simpl; [done|by rewrite Hs|done].
  - eapply res_rel_bind; [by apply get_sim|]. intros a b Hab.
    rewrite (At_sim a b) by done. unfold read.
    by destruct (At b index).
  - eapply res_rel_bind; [by apply get_sim|]. intros a b Hab. simpl.
    split; [done|]. f_equal. by apply IsEmpty_sim.
  - eapply res_rel_bind; [by apply get_sim|]. intros a1 b1 H1.
    eapply res_rel_bind; [by apply get_sim|]. intros a2 b2 H2. simpl.
    split; [done|]. f_equal. by apply compare_sim.
Qed.

(** [operator[]]: defined under the second header, it is defined under
    simple_vector.h and reads the same. *)
Lemma exec_subscript_sim this index σa σb rb :
  Forall2 sim σa σb →
  exec second_header (DoSubscript this index) σb = Ok rb →
  ∃ ra, exec simple_vector (DoSubscript this index) σa = Ok ra
    ∧ Forall2 sim ra.1 rb.1 ∧ ra.2 = rb.2.
Proof.
  intros Hσ. cbn [exec].
  destruct (lookup_sim σa σb this Hσ)
    as [[Ha Hb]|(a & b & Ha & Hb & Hab)].
  { by rewrite (get_None _ _ Hb). }
  rewrite (get_Some _ _ _ Ha), (get_Some _ _ _ Hb). cbn [mbind res_bind].
  unfold subscript. destruct Hab as (Hwa & Hwb & [(_ & _ & Hd)|(-> & Hs & Hc)]).
  - rewrite (load_same _ _ index Hd).
    destruct (ArrayPtr.load (data_ b) index); simpl; try done;
      intros [= <-]; eauto.
  - destruct Hwb as [_ Hlen]. rewrite load_slots.
    rewrite lookup_ge_None_2 by lia. done.
Qed.

Lemma exec_forward st σa σb rb :
  Forall2 sim σa σb →
  exec second_header st σb = Ok rb →
  ∃ ra, exec simple_vector st σa = Ok ra
    ∧ Forall2 sim ra.1 rb.1 ∧ ra.2 = rb.2.
Proof.
  intros Hσ Hb. destruct (is_subscript st) eqn:Hst.
  - destruct st; try discriminate Hst. by eapply exec_subscript_sim.
  - pose proof (exec_sim st σa σb Hσ Hst) as Hrel. rewrite Hb in Hrel.
    destruct (exec simple_vector st σa) as [ra| |]; [|done..]. eauto.
Qed.

Lemma observe_all_sim σa σb :
  Forall2 sim σa σb →
  Forall2 same_but_capacity (observe <$> σa) (observe <$> σb).
Proof.
  induction 1 as [|a b σa σb Hab _ IH]; simpl; constructor;
    [by apply observe_sim|done].
Qed.

Lemma run_forward prog : ∀ σa σb tb,
  Forall2 sim σa σb →
  run second_header prog σb = Ok tb →
  ∃ ta, run simple_vector prog σa = Ok ta ∧ Forall2 same_step ta tb.
Proof.
  induction prog as [|st prog IH]; intros σa σb tb Hσ; cbn [run].
  - intros [= <-]. by exists [].
  - destruct (exec second_header st σb) as [[σb' ob]| |] eqn:Hb;
      [|done..].
    destruct (exec_forward st σa σb _ Hσ Hb) as ([σa' oa] & -> & Hσ' & Ho).
    simpl in Hσ', Ho. subst oa. cbn [mbind res_bind].
    destruct (run second_header prog σb') as [tb'| |] eqn:Hrun;
      [|done..].
    destruct (IH σa' σb' tb' Hσ' Hrun) as (ta' & -> & Ht).
    cbn [mbind res_bind]. intros [= <-]. eexists; split; [done|].
    constructor; [|done]. split; [done|]. by apply observe_all_sim.
Qed.

Lemma run_backward prog : ∀ σa σb ta,
  Forall2 sim σa σb →
  Forall (λ st, is_subscript st = false) prog →
  run simple_vector prog σa = Ok ta →
  ∃ tb, run second_header prog σb = Ok tb ∧ Forall2 same_step ta tb.
Proof.
  induction prog as [|st prog IH]; intros σa σb ta Hσ Hprog; cbn [run].
  - intros [= <-]. by exists [].
  - inversion Hprog as [|? ? Hst Hprog']; subst.
    pose proof (exec_sim st σa σb Hσ Hst) as Hrel.
    destruct (exec simple_vector st σa) as [[σa' oa]| |]; [|done..].
    destruct (exec second_header st σb) as [[σb' ob]| |]; [|done..].
    destruct Hrel as [Hσ' Ho]. simpl in Hσ', Ho. subst ob.
    cbn [mbind res_bind].
    destruct (run simple_vector prog σa') as [ta'| |] eqn:Hrun;
      [|done..].
    destruct (IH σa' σb' ta' Hσ' Hprog' Hrun) as (tb' & -> & Ht).
    cbn [mbind res_bind]. intros [= <-]. eexists; split; [done|].
    constructor; [|done]. split; [done|]. by apply observe_all_sim.
Qed.
End stores.


(** ** The scenarios of the specification, run under both headers *)

Section scenarios.
Variable h : header.
Local Open Scope Z_scope.

(** the vector [1, 2, 3] as three pushes leave it *)
Lemma scenario_push :
  Call.push_back_each h empty [1; 2; 3] = Ok v123.
Proof. by destruct h. Qed.

Lemma scenario_reserve :
  ∃ v, Call.Reserve h v123 10 = Ok v
    ∧ GetCapacity v = 10%nat ∧ GetSize v = 3%nat ∧ elements v = [1; 2; 3].
Proof. destruct h; eexists; by split_and!. Qed.

Lemma scenario_resize :
  ∃ v, Call.Resize h v123 5 = Ok v
    ∧ GetSize v = 5%nat ∧ elements v = [1; 2; 3; 0; 0].
Proof. destruct h; eexists; by split_and!. Qed.

Lemma scenario_erase_insert :
  ∃ v v', Call.Erase h v123 1 = Ok (v, 1%nat)
    ∧ GetSize v = 2%nat ∧ elements v = [1; 3]
    ∧ At v 5 = OutOfRange
    ∧ Call.Insert h by_const_ref v 0 (Outside 9) = Ok (v', 0%nat)
    ∧ GetSize v' = 3%nat ∧ elements v' = [9; 1; 3].
Proof. destruct h; do 2 eexists; by split_and!. Qed.
End scenarios.

(** * The specification, claim by claim *)

Section claims.
Context `{Element T}.
Implicit Types (v : SimpleVector T) (x : T) (h : header)
  (σ : list (SimpleVector T)).

(** C1.  [At(i)] throws [std::out_of_range] exactly when [i >= size],
    whatever the capacity; for [i < size] it returns the element at
    index [i], the same that [operator[]] returns.  [At] reads the same
    in both headers. *)
Theorem At_checked v i :
  (At v i = OutOfRange ↔ size_ v ≤ i)
  ∧ (wf v → i < size_ v →
     ∃ x, elements v !! i = Some x ∧ At v i = Ok x ∧ subscript v i = Ok x).
Proof.
  unfold At, subscript. split.
  - case_decide as Hi; [done|]. split; [|lia].
    unfold ArrayPtr.load. by repeat case_match.
  - intros Hwf Hi. rewrite decide_False by lia.
    destruct (lookup_lt_is_Some_2 (elements v) i) as [x Hx];
      [by rewrite length_elements|].
    exists x. split; [done|].
    rewrite elements_lookup in Hx by done.
    destruct (data_ v) as [b|]; [|done].
    simpl in Hx. by rewrite (load_Some _ _ _ Hx).
Qed.

(** C2, amended.  [PushBack(value)] with a value that is not an
    element of the vector, in either overload, grows exactly when
    [size == capacity], to [max(1, capacity * 2)]; afterwards the value
    is the element at the old size, the size is one more and the earlier
    elements are as they were.  An element of the vector passed by const
    reference is pushed like any other value as long as the vector has
    room; passed as an rvalue, it is pushed and left moved-from where it
    was.  When the vector is full, the block that holds the element is
    deleted before [value] is read, and the call has no defined
    behaviour.  From a default-constructed vector, [n] pushes leave the
    capacities [0, 1, 2, 4, 8, ...]: [0] for [n = 0], else the least
    power of two that is at least [n].  Under either header. *)
Theorem PushBack_doubles h :
  (∀ o v x,
     wf v →
     ∃ v', Call.PushBack h o v (Outside x) = Ok v'
       ∧ elements v' = elements v ++ [x]
       ∧ elements v' !! size_ v = Some x
       ∧ size_ v' = S (size_ v)
       ∧ capacity_ v' = (if decide (size_ v = capacity_ v)
                         then 1 `max` (capacity_ v * 2)
                         else capacity_ v))
  ∧ (∀ v i x,
       size_ v < capacity_ v → elements v !! i = Some x →
       Call.PushBack h by_const_ref v (Slot i)
       = Call.PushBack h by_const_ref v (Outside x))
  ∧ (∀ v i x,
       wf v → size_ v < capacity_ v → elements v !! i = Some x →
       ∃ v', Call.PushBack h by_rvalue_ref v (Slot i) = Ok v'
         ∧ elements v' = <[i:=moved_from x]> (elements v) ++ [x]
         ∧ size_ v' = S (size_ v)
         ∧ capacity_ v' = capacity_ v)
  ∧ (∀ o v i,
       wf v → size_ v = capacity_ v →
       Call.PushBack h o v (Slot i) = Undefined)
  ∧ (∀ xs,
       ∃ v', Call.push_back_each h empty xs = Ok v'
         ∧ elements v' = xs
         ∧ size_ v' = length xs
         ∧ capacity_ v' = (if decide (length xs = 0) then 0
                           else 2 ^ Nat.log2_up (length xs))).
Proof.
  split_and!.
  - intros o v x Hwf.
    destruct (PushBack_spec h o v x Hwf) as (v' & Hrun & _ & He & Hs & Hc).
    exists v'. split_and!; try done.
    rewrite He. rewrite lookup_app_r by (by rewrite length_elements).
    by rewrite length_elements, Nat.sub_diag.
  - intros v i x Hroom Hx. apply PushBack_within; [lia|done].
  - intros v i x Hwf Hroom Hx. by apply PushBack_moves.
  - intros o v i Hwf Hfull. by apply PushBack_dangles.
  - intros xs.
    destruct (push_back_each_spec h xs empty)
      as (v' & Hrun & _ & He & Hs & Hc); [apply wf_empty|done|].
    exists v'. by split_and!.
Qed.

(** C3, amended.  [Reserve(newCapacity)] with [newCapacity <= capacity]
    changes nothing, except that under simple_vector.h a vector of
    capacity 0 asked for 0 gets a block of one slot and capacity 1.
    With [newCapacity > capacity] it allocates exactly [newCapacity]
    slots, the first [size] of them the elements in order, and sets
    [capacity = newCapacity].  In every case the size is unchanged, the
    capacity does not decrease and is at least [newCapacity]
    afterwards, and the elements are as they were. *)
Theorem Reserve_reserves h v n :
  wf v →
  ∃ v', Call.Reserve h v n = Ok v'
    ∧ (n ≤ capacity_ v → h = second_header ∨ capacity_ v ≠ 0 → v' = v)
    ∧ (n ≤ capacity_ v → h = simple_vector → capacity_ v = 0 →
       data_ v' = Some [value_init] ∧ capacity_ v' = 1)
    ∧ (capacity_ v < n →
       data_ v'
       = Some (elements v ++ replicate (n - size_ v) value_init)
       ∧ length (ArrayPtr.slots (data_ v')) = n
       ∧ capacity_ v' = n)
    ∧ size_ v' = size_ v
    ∧ capacity_ v ≤ capacity_ v'
    ∧ n ≤ capacity_ v'
    ∧ elements v' = elements v.
Proof.
  intros Hwf.
  destruct (Reserve_spec h v n Hwf) as (v' & Hrun & Hwf' & Hs & He & Hc).
  exists v'. split; [done|]. split_and!; try done.
  - intros Hn Hh. destruct h; cbn [Call.Reserve] in Hrun.
    + destruct Hh as [?|?]; [done|].
      rewrite sv_Reserve_keep in Hrun by done. congruence.
    + rewrite p0_Reserve_keep in Hrun by done. congruence.
  - intros Hn -> Hc0. cbn [Call.Reserve] in Hrun.
    rewrite sv_Reserve_grow in Hrun by (done || lia).
    destruct Hwf as [Hle _]. assert (n = 0) as -> by lia.
    assert (size_ v = 0) as Hs0 by lia. injection Hrun as <-. simpl.
    unfold elements. by rewrite Hs0.
  - intros Hn. destruct Hwf' as [_ Hlen]. rewrite decide_False in Hc by lia.
    split_and!; [|congruence..].
    destruct h; cbn [Call.Reserve] in Hrun.
    + rewrite sv_Reserve_grow in Hrun by (done || lia).
      injection Hrun as <-. simpl.
      by replace (n `max` 1) with n by lia.
    + rewrite p0_Reserve_grow in Hrun by (done || lia).
      by injection Hrun as <-.
  - rewrite Hc. repeat case_decide; lia.
  - rewrite Hc. repeat case_decide; lia.
Qed.

(** C4, amended.  [Resize(newSize)], by cases.  [newSize <= size]:
    only the size changes, the buffer and the capacity are the same --
    except that under simple_vector.h a vector of capacity 0 (so
    [newSize = 0]) gets capacity 1.  [size < newSize <= capacity]: the
    slots [size .. newSize) are set to [Type{}], the other slots and the
    capacity are the same.  [newSize > capacity]: the buffer grows to
    capacity [newSize], the first [size] elements are kept in order and
    the tail is [Type{}].  The size is [newSize] in every case. *)
Theorem Resize_cases h v n :
  wf v →
  ∃ v', Call.Resize h v n = Ok v'
    ∧ size_ v' = n
    ∧ (n ≤ size_ v →
       elements v' = take n (elements v)
       ∧ (h = second_header ∨ capacity_ v ≠ 0 →
          data_ v' = data_ v ∧ capacity_ v' = capacity_ v)
       ∧ (h = simple_vector → capacity_ v = 0 → capacity_ v' = 1))
    ∧ (size_ v < n ≤ capacity_ v →
       elements v' = elements v ++ replicate (n - size_ v) value_init
       ∧ drop n (ArrayPtr.slots (data_ v'))
         = drop n (ArrayPtr.slots (data_ v))
       ∧ capacity_ v' = capacity_ v)
    ∧ (capacity_ v < n →
       elements v' = elements v ++ replicate (n - size_ v) value_init
       ∧ capacity_ v' = n ∧ n ≤ capacity_ v').
Proof.
  intros Hwf. pose proof Hwf as [Hle _].
  destruct (Resize_spec h v n Hwf)
    as (v' & Hrun & Hwf' & Hs & He & Hc & Hdrop & Hkeep).
  exists v'. split; [done|]. split; [done|].
  assert (size_ v ≤ n → take n (elements v) = elements v) as Hall.
  { intros. by rewrite take_ge by (by rewrite length_elements). }
  split_and!.
  - intros Hn. split_and!.
    + rewrite He. replace (n - size_ v) with 0 by lia.
      apply app_nil_r.
    + intros Hh. split; [by apply Hkeep|].
      rewrite Hc. repeat case_decide; intuition (congruence || lia).
    + intros -> Hc0. rewrite Hc.
      repeat case_decide; intuition (congruence || lia).
  - intros Hn. split_and!.
    + rewrite He, Hall by lia. done.
    + apply Hdrop; [lia|]. right. lia.
    + rewrite Hc. repeat case_decide; intuition (congruence || lia).
  - intros Hn. rewrite He, Hall, Hc by lia.
    rewrite decide_False by lia. done.
Qed.

(** C5, amended.  [Insert(pos, value)] at a position [p] in
    [[0, size]] that an [int] holds ([p <= INT_MAX]), with a value that
    is not an element of the vector, in either overload, leaves
    [old[0..p), value, old[p..size)]; the size is one more and the
    returned iterator is at [p], where the value is.  At full capacity
    the vector grows as [PushBack] does, and the elements are the same
    as without growth.  An element of the vector passed by const
    reference is read after the shift: as long as the vector has room,
    what is inserted is what its slot holds then, which is the element
    itself when it lies before [p] and the element before it when it
    lies after [p]; passed as an rvalue, it is inserted in the same way
    and the slot it was read from is left moved-from.  When the vector
    is full, the block that holds the element is deleted before [value]
    is read, and the call has no defined behaviour.  Under either
    header. *)
Theorem Insert_shifts h o v p x :
  wf v → p ≤ size_ v → (Z.of_nat p ≤ INT_MAX)%Z →
  (∃ v', Call.Insert h o v p (Outside x) = Ok (v', p)
     ∧ elements v' = take p (elements v) ++ x :: drop p (elements v)
     ∧ (∀ i, i < p → elements v' !! i = elements v !! i)
     ∧ elements v' !! p = Some x
     ∧ (∀ i, p ≤ i → elements v' !! S i = elements v !! i)
     ∧ size_ v' = S (size_ v)
     ∧ capacity_ v' = (if decide (size_ v = capacity_ v)
                       then 1 `max` (capacity_ v * 2)
                       else capacity_ v))
  ∧ (∀ i,
       size_ v < capacity_ v → i < capacity_ v →
       ∃ y, Call.Insert h by_const_ref v p (Slot i)
            = Call.Insert h by_const_ref v p (Outside y)
         ∧ (i < p → elements v !! i = Some y)
         ∧ (p < i ≤ size_ v → elements v !! (i - 1) = Some y))
  ∧ (∀ i,
       size_ v < capacity_ v → i < capacity_ v →
       ∃ v1 y d, Call.Insert h by_const_ref v p (Slot i) = Ok (v1, p)
         ∧ ArrayPtr.load (data_ v1) p = Ok y
         ∧ ArrayPtr.store (data_ v1) i (moved_from y) = Ok d
         ∧ Call.Insert h by_rvalue_ref v p (Slot i)
           = Ok ({| data_ := d; size_ := size_ v1;
                    capacity_ := capacity_ v1 |}, p))
  ∧ (∀ i,
       size_ v = capacity_ v →
       Call.Insert h o v p (Slot i) = Undefined).
Proof.
  intros Hwf Hp Hint. split_and!.
  - destruct (Insert_spec h o v p x Hwf Hp Hint)
      as (v' & Hrun & _ & He & Hs & Hc).
    pose proof (length_elements v Hwf) as Hlen.
    assert (length (take p (elements v)) = p) as Hlp
      by (rewrite length_take; lia).
    exists v'. split_and!; try done.
    + intros i Hi. rewrite He, lookup_app_l by lia.
      by rewrite lookup_take_lt.
    + rewrite He, lookup_app_r by lia. by rewrite Hlp, Nat.sub_diag.
    + intros i Hi. rewrite He, lookup_app_r by lia. rewrite Hlp.
      replace (S i - p) with (S (i - p)) by lia. simpl.
      rewrite lookup_drop. f_equal. lia.
  - intros i Hroom Hi. by apply Insert_within.
  - intros i Hroom Hi. by apply Insert_moves.
  - intros i Hfull. by apply Insert_dangles.
Qed.

(** C6, amended.  At a position [p] in [[0, size]] that an [int] holds
    ([p <= INT_MAX]), [Insert(p, value)] followed by [Erase] at [p]
    gives back the elements the vector had: the result compares equal
    with [operator==] to the vector before the insert.  So it is for a
    value that is not an element of the vector, in either overload, and
    for an element of the vector passed by const reference as long as
    the vector has room; in a full vector the insertion of one of its
    elements has no defined behaviour.  [Erase(p)] removes the element
    at [p], shifting the later ones left, and takes one off the size.
    Under either header. *)
Theorem Erase_undoes_Insert h o v p x :
  wf v → p ≤ size_ v → (Z.of_nat p ≤ INT_MAX)%Z →
  (∃ v1 v2, Call.Insert h o v p (Outside x) = Ok (v1, p)
     ∧ Call.Erase h v1 p = Ok (v2, p)
     ∧ eq_op v2 v = true
     ∧ elements v2 = elements v
     ∧ size_ v2 = size_ v)
  ∧ (∀ i,
       size_ v < capacity_ v → i < capacity_ v →
       ∃ v1 v2, Call.Insert h by_const_ref v p (Slot i) = Ok (v1, p)
         ∧ Call.Erase h v1 p = Ok (v2, p)
         ∧ eq_op v2 v = true
         ∧ elements v2 = elements v
         ∧ size_ v2 = size_ v)
  ∧ (∀ i,
       size_ v = capacity_ v →
       Call.Insert h o v p (Slot i) = Undefined)
  ∧ (p < size_ v →
     ∃ v', Call.Erase h v p = Ok (v', p)
       ∧ elements v' = delete p (elements v)
       ∧ size_ v' = size_ v - 1).
Proof.
  intros Hwf Hp Hint.
  assert (∀ o' y, ∃ v1 v2,
    Call.Insert h o' v p (Outside y) = Ok (v1, p)
    ∧ Call.Erase h v1 p = Ok (v2, p)
    ∧ eq_op v2 v = true
    ∧ elements v2 = elements v
    ∧ size_ v2 = size_ v) as Hback.
  { intros o' y.
    destruct (Insert_spec h o' v p y Hwf Hp Hint)
      as (v1 & Hins & Hwf1 & He1 & Hs1 & _).
    destruct (Erase_spec h v1 p Hwf1) as (v2 & Hers & _ & He2 & Hs2 & _);
      [lia|done|].
    assert (elements v2 = elements v) as He.
    { rewrite He2, He1.
      rewrite <- (take_drop p (elements v)) at 3.
      pose proof (delete_middle (take p (elements v))
                    (drop p (elements v)) y) as Hdel.
      rewrite length_take, length_elements in Hdel by done.
      by replace (p `min` size_ v) with p in Hdel by lia. }
    exists v1, v2. split_and!; try done; [|lia].
    unfold eq_op, std_equal. by rewrite bool_decide_eq_true. }
  split_and!.
  - apply Hback.
  - intros i Hroom Hi.
    destruct (Insert_within h v p i Hwf Hroom Hp Hint Hi) as (y & -> & _).
    apply Hback.
  - intros i Hfull. by apply Insert_dangles.
  - intros Hlt.
    destruct (Erase_spec h v p Hwf Hlt Hint) as (v' & ? & _ & ? & ? & _).
    by exists v'.
Qed.

(** C7.  Move construction and move assignment from a vector leave the
    destination with the buffer, size and capacity the source had, and
    the source, an object other than the destination, with size 0,
    capacity 0 and a null buffer.  (Moving a vector into itself is the
    case of C10.) *)
Theorem move_empties_source σ other b :
  σ !! other = Some b →
  (∃ σ', move_construct other σ = Ok (σ', length σ)
     ∧ σ' !! length σ = Some b
     ∧ σ' !! other
       = Some {| data_ := None; size_ := 0; capacity_ := 0 |})
  ∧ (∀ this a,
       σ !! this = Some a →
       ∃ σ', move_assign this other σ = Ok σ'
         ∧ σ' !! this = Some b
         ∧ (this ≠ other →
            σ' !! other
            = Some {| data_ := None; size_ := 0; capacity_ := 0 |})).
Proof.
  intros Hb. split.
  - destruct (move_construct_spec other σ b Hb)
      as (σ' & ? & _ & ? & ? & _).
    by exists σ'.
  - intros this a Ha.
    destruct (MoveFrom_spec this other σ a b Ha Hb)
      as (σ' & ? & _ & ? & Hother & _).
    by exists σ'.
Qed.

(** C8, amended.  The same program under the two headers.  Whenever its
    behaviour is defined under the second header it is defined under
    simple_vector.h, and after every statement the two runs agree on
    what the call returned or threw and, for every vector, on
    [GetSize] and on the elements; [GetCapacity] is the same, or 1
    under simple_vector.h against 0 under the second header.  For
    programs without [operator[]] the converse holds too. *)
Theorem headers_agree (prog : list (statement T)) :
  (∀ tb,
     run second_header prog [] = Ok tb →
     ∃ ta, run simple_vector prog [] = Ok ta ∧ Forall2 same_step ta tb)
  ∧ (Forall (λ st, is_subscript st = false) prog →
     ∀ ta,
       run simple_vector prog [] = Ok ta →
       ∃ tb, run second_header prog [] = Ok tb ∧ Forall2 same_step ta tb).
Proof.
  split.
  - intros tb. by apply run_forward.
  - intros Hprog ta. by apply run_backward.
Qed.

(** C9, amended.  Every constructor makes a vector with
    [size <= capacity] whose buffer has exactly [capacity] slots, and
    every call of a member function that has defined behaviour keeps it
    so: [PushBack], [Insert], [Erase], [PopBack], [Clear], [Resize],
    [Reserve], copy, move and [swap].  The behaviour is defined, and the
    call returns: always, for the members that take no value and no
    position; for [PushBack] and [Insert], when the value is not an
    element of the vector or the vector has room; for [Insert] and
    [Erase], at the positions of the vector that an [int] holds
    ([p <= INT_MAX]).  Under either header. *)
Theorem invariant_kept h :
  (wf (empty (T:=T))
   ∧ (∀ n, ∃ v, Call.of_reserve h (Reserve_proxy n) = Ok v ∧ wf v)
   ∧ (∀ n, wf (of_size (T:=T) n))
   ∧ (∀ n x, ∃ v, Call.of_fill h n x = Ok v ∧ wf v)
   ∧ (∀ init, ∃ v, Call.of_list h init = Ok v ∧ wf v))
  ∧ (∀ v,
       wf v →
       (∀ o value,
          stays_valid v value →
          ∃ v', Call.PushBack h o v value = Ok v' ∧ wf v')
       ∧ (∀ o value v', Call.PushBack h o v value = Ok v' → wf v')
       ∧ (∀ o p value,
            p ≤ size_ v → (Z.of_nat p ≤ INT_MAX)%Z →
            stays_valid v value →
            ∃ v', Call.Insert h o v p value = Ok (v', p) ∧ wf v')
       ∧ (∀ o pos value v' p,
            Call.Insert h o v pos value = Ok (v', p) → wf v')
       ∧ (∀ p,
            p < size_ v → (Z.of_nat p ≤ INT_MAX)%Z →
            ∃ v', Call.Erase h v p = Ok (v', p) ∧ wf v')
       ∧ (∀ pos v' p, Call.Erase h v pos = Ok (v', p) → wf v')
       ∧ wf (PopBack v)
       ∧ wf (Clear v)
       ∧ (∀ n, ∃ v', Call.Resize h v n = Ok v' ∧ wf v')
       ∧ (∀ n, ∃ v', Call.Reserve h v n = Ok v' ∧ wf v'))
  ∧ (∀ σ,
       Forall wf σ →
       (∀ other, other < length σ →
          (∃ σ', copy_construct other σ = Ok (σ', length σ)
             ∧ Forall wf σ')
          ∧ (∃ σ', move_construct other σ = Ok (σ', length σ)
               ∧ Forall wf σ'))
       ∧ (∀ this other, this < length σ → other < length σ →
            (∃ σ', copy_assign this other σ = Ok σ' ∧ Forall wf σ')
            ∧ (∃ σ', move_assign this other σ = Ok σ' ∧ Forall wf σ')
            ∧ (∃ σ', swap this other σ = Ok σ' ∧ Forall wf σ'))).
Proof.
  split_and!.
  - apply wf_empty.
  - intros n. destruct (of_reserve_spec h n) as (v & ? & ? & _). eauto.
  - apply wf_of_size.
  - intros n x. destruct (of_fill_spec h n x) as (v & ? & ? & _). eauto.
  - intros l. destruct (of_list_spec h l) as (v & ? & ? & _). eauto.
  - intros v Hwf. split_and!.
    + intros o value Hvalue.
      destruct (PushBack_returns h o v value Hwf Hvalue)
        as (v' & ? & ? & _).
      eauto.
    + intros o value v' Hrun.
      by destruct (PushBack_wf h o v value v' Hwf Hrun).
    + intros o p value Hp Hint Hvalue.
      destruct (Insert_returns h o v p value Hwf Hp Hint Hvalue)
        as (v' & ? & ? & _).
      eauto.
    + intros o pos value v' p Hrun.
      by destruct (Insert_wf h o v pos value v' p Hwf Hrun).
    + intros p Hp Hint.
      destruct (Erase_spec h v p Hwf Hp Hint) as (v' & ? & ? & _). eauto.
    + intros pos v' p Hrun.
      by destruct (Erase_wf h v pos v' p Hwf Hrun).
    + by apply wf_PopBack.
    + by apply wf_Clear.
    + intros n. destruct (Resize_spec h v n Hwf) as (v' & ? & ? & _).
      eauto.
    + intros n. destruct (Reserve_spec h v n Hwf) as (v' & ? & ? & _).
      eauto.
  - intros σ Hσ. split.
    + intros other Ho.
      destruct (lookup_lt_is_Some_2 σ other Ho) as [b Hb].
      pose proof (Forall_lookup_1 _ _ _ _ Hσ Hb) as Hwfb. split.
      * destruct (copy_construct_spec other σ b Hb Hwfb)
          as (σ' & c & ? & _ & Hc & ? & _ & _ & _ & Hob & Hrest).
        exists σ'. split; [done|].
        by eapply (Forall_wf_two σ σ' (length σ) other c b).
      * destruct (move_construct_spec other σ b Hb)
          as (σ' & ? & _ & Hc & Hoe & Hrest).
        exists σ'. split; [done|].
        eapply (Forall_wf_two σ σ' (length σ) other b empty);
          eauto using wf_empty.
    + intros this other Ht Ho.
      destruct (lookup_lt_is_Some_2 σ this Ht) as [a Ha].
      destruct (lookup_lt_is_Some_2 σ other Ho) as [b Hb].
      pose proof (Forall_lookup_1 _ _ _ _ Hσ Ha) as Hwfa.
      pose proof (Forall_lookup_1 _ _ _ _ Hσ Hb) as Hwfb. split_and!.
      * destruct (CopyAndSwap_spec this other σ a b Ha Hb Hwfb)
          as (σ' & c & ? & _ & Hc & ? & _ & _ & _ & Hob & Hrest).
        exists σ'. split; [done|].
        by eapply (Forall_wf_two σ σ' this other c b).
      * destruct (MoveFrom_spec this other σ a b Ha Hb)
          as (σ' & ? & _ & Hc & Hoe & Hrest).
        exists σ'. split; [done|].
        eapply (Forall_wf_two σ σ' this other b empty);
          eauto using wf_empty.
      * destruct (swap_spec this other σ a b Ha Hb)
          as (σ' & ? & _ & Hc & Hoa & Hrest).
        exists σ'. split; [done|].
        eapply (Forall_wf_two σ σ' this other b a); eauto.
Qed.

(** C10.  Assigning a vector to itself.  After [v = v] it has the size
    and the elements it had, and its capacity is its size.  After
    [v = std::move(v)] nothing in the store has changed: same buffer,
    size and capacity. *)
Theorem self_assignment_safe σ this v :
  σ !! this = Some v → wf v →
  (∃ σ' v', copy_assign this this σ = Ok σ'
     ∧ σ' !! this = Some v'
     ∧ size_ v' = size_ v
     ∧ elements v' = elements v
     ∧ wf v'
     ∧ (∀ k, k ≠ this → σ' !! k = σ !! k))
  ∧ move_assign this this σ = Ok σ.
Proof.
  intros Hv Hwf. split.
  - destruct (CopyAndSwap_spec this this σ v v Hv Hv Hwf)
      as (σ' & c & ? & _ & ? & ? & ? & ? & _ & _ & Hrest).
    exists σ', c. split_and!; try done. intros k ?. by apply Hrest.
  - unfold move_assign.
    destruct (MoveFrom_spec this this σ v v Hv Hv)
      as (σ' & -> & _ & Hthis & _ & Hrest).
    f_equal. apply list_eq. intros k.
    destruct (decide (k = this)) as [->|?]; [congruence|].
    by apply Hrest.
Qed.
End claims.

(** ** The claims at sample objects *)

(** C1 inside the vector *)
Lemma At_checked_witness :
  ∃ x, elements v123 !! 1 = Some x ∧ At v123 1 = Ok x
    ∧ subscript v123 1 = Ok x.
Proof.
  apply (proj2 (At_checked v123 1)).
  - split; [simpl; lia|reflexivity].
  - simpl. lia.
Defined.

(** and between size and capacity: index 3 of a vector of size 3 and
    capacity 4 is out of range *)
Example At_beyond_size : At v123 3 = OutOfRange.
Proof. reflexivity. Qed.

(** C2 as stated fails: [v.PushBack(v[0])] on a full vector.  The
    value is [1], an element of the vector; [Reserve], or [Expand],
    deletes the block that holds it before the assignment reads it. *)
Lemma PushBack_of_own_element :
  wf v12
  ∧ size_ v12 = capacity_ v12
  ∧ elements v12 !! 0 = Some 1%Z
  ∧ Call.PushBack simple_vector by_const_ref v12 (Slot 0) = Undefined
  ∧ Call.PushBack second_header by_const_ref v12 (Slot 0) = Undefined.
Proof. split_and!; [split; [simpl; lia|reflexivity]|reflexivity..]. Qed.

(** C2 on a full vector of capacity 2 *)
Lemma PushBack_doubles_witness :
  ∃ v', Call.PushBack simple_vector by_const_ref v12 (Outside 3%Z) = Ok v'
    ∧ elements v' = elements v12 ++ [3%Z]
    ∧ elements v' !! size_ v12 = Some 3%Z
    ∧ size_ v' = S (size_ v12)
    ∧ capacity_ v' = (if decide (size_ v12 = capacity_ v12)
                      then 1 `max` (capacity_ v12 * 2)
                      else capacity_ v12).
Proof.
  apply (proj1 (PushBack_doubles simple_vector) by_const_ref v12 3%Z).
  split; [simpl; lia|reflexivity].
Defined.

(** C3 as stated fails under simple_vector.h: [Reserve(0)] on a
    default-constructed vector is asked for no more than the capacity,
    and yet allocates a slot and raises the capacity to 1. *)
Lemma Reserve_zero_allocates :
  wf (empty (T:=Z))
  ∧ 0 ≤ capacity_ (empty (T:=Z))
  ∧ simple_vector_h.Reserve (empty (T:=Z)) 0
    = Ok {| data_ := Some [0%Z]; size_ := 0; capacity_ := 1 |}
  ∧ simple_vector_h.Reserve (empty (T:=Z)) 0 ≠ Ok empty.
Proof. split_and!; [by split|done|reflexivity|discriminate]. Qed.

Lemma Reserve_reserves_witness :
  ∃ v', Call.Reserve simple_vector v123 10 = Ok v'
    ∧ (10 ≤ capacity_ v123 →
       simple_vector = second_header ∨ capacity_ v123 ≠ 0 → v' = v123)
    ∧ (10 ≤ capacity_ v123 → simple_vector = simple_vector →
       capacity_ v123 = 0 →
       data_ v' = Some [value_init] ∧ capacity_ v' = 1)
    ∧ (capacity_ v123 < 10 →
       data_ v'
       = Some (elements v123 ++ replicate (10 - size_ v123) value_init)
       ∧ length (ArrayPtr.slots (data_ v')) = 10
       ∧ capacity_ v' = 10)
    ∧ size_ v' = size_ v123
    ∧ capacity_ v123 ≤ capacity_ v'
    ∧ 10 ≤ capacity_ v'
    ∧ elements v' = elements v123.
Proof.
  apply (Reserve_reserves simple_vector v123 10).
  split; [simpl; lia|reflexivity].
Defined.

(** C4 as stated fails under simple_vector.h: [Resize(0)] on a
    default-constructed vector has [newSize <= size], and yet allocates a
    slot and raises the capacity to 1. *)
Lemma Resize_zero_allocates :
  wf (empty (T:=Z))
  ∧ 0 ≤ size_ (empty (T:=Z))
  ∧ simple_vector_h.Resize (empty (T:=Z)) 0
    = Ok {| data_ := Some [0%Z]; size_ := 0; capacity_ := 1 |}
  ∧ capacity_ (empty (T:=Z)) ≠ 1.
Proof. split_and!; [by split|done|reflexivity|discriminate]. Qed.

Lemma Resize_cases_witness :
  ∃ v', Call.Resize second_header v123 5 = Ok v'
    ∧ size_ v' = 5
    ∧ (5 ≤ size_ v123 →
       elements v' = take 5 (elements v123)
       ∧ (second_header = second_header ∨ capacity_ v123 ≠ 0 →
          data_ v' = data_ v123 ∧ capacity_ v' = capacity_ v123)
       ∧ (second_header = simple_vector → capacity_ v123 = 0 →
          capacity_ v' = 1))
    ∧ (size_ v123 < 5 ≤ capacity_ v123 →
       elements v' = elements v123 ++ replicate (5 - size_ v123) value_init
       ∧ drop 5 (ArrayPtr.slots (data_ v'))
         = drop 5 (ArrayPtr.slots (data_ v123))
       ∧ capacity_ v' = capacity_ v123)
    ∧ (capacity_ v123 < 5 →
       elements v' = elements v123 ++ replicate (5 - size_ v123) value_init
       ∧ capacity_ v' = 5 ∧ 5 ≤ capacity_ v').
Proof.
  apply (Resize_cases second_header v123 5).
  split; [simpl; lia|reflexivity].
Defined.

(** Positions in the long vector. *)
Lemma far_position_in_range :
  far_position ≤ size_ long_vector
  ∧ far_position < size_ long_vector
  ∧ (INT_MAX < Z.of_nat far_position < 2 ^ 32)%Z.
Proof.
  unfold far_position, long_vector, of_size, INT_MAX. cbn [size_].
  rewrite Nat2Z.inj_add, Nat2Z.inj_pow. lia.
Qed.

(** C5 as stated fails.  [v.Insert(v.begin(), v[2])] on [1, 2, 3], a
    vector with room: the value is [3] when the call is made, and the
    shift has put [2] into its slot when it is read, so the vector is
    [2, 1, 2, 3] and not [3, 1, 2, 3].  And in a vector of [2^31 + 6]
    elements the position [2^31 + 5] is no [int]: the offset is
    negative, and the iterator [begin() + offset] lies before the
    block. *)
Lemma Insert_reads_after_the_shift :
  (wf v123
   ∧ 0 ≤ size_ v123
   ∧ elements v123 !! 2 = Some 3%Z
   ∧ Call.Insert simple_vector by_const_ref v123 0 (Slot 2) = Ok (v2123, 0)
   ∧ Call.Insert second_header by_const_ref v123 0 (Slot 2) = Ok (v2123, 0)
   ∧ elements v2123 = [2; 1; 2; 3]%Z
   ∧ elements v2123 ≠ [3; 1; 2; 3]%Z)
  ∧ (wf long_vector
     ∧ far_position ≤ size_ long_vector
     ∧ Call.Insert simple_vector by_const_ref long_vector far_position
         (Outside 0%Z) = Undefined
     ∧ Call.Insert second_header by_const_ref long_vector far_position
         (Outside 0%Z) = Undefined).
Proof.
  split.
  - split_and!; [split; [simpl; lia|reflexivity]|simpl; lia
                |reflexivity..|discriminate].
  - destruct far_position_in_range as (Hle & _ & Hint).
    split_and!; [apply wf_of_size|done|by apply Insert_past_int..].
Qed.

(** C5 at full capacity *)
Lemma Insert_shifts_witness :
  (∃ v', Call.Insert second_header by_const_ref v12 1 (Outside 9%Z)
         = Ok (v', 1)
     ∧ elements v' = take 1 (elements v12) ++ 9%Z :: drop 1 (elements v12)
     ∧ (∀ i, i < 1 → elements v' !! i = elements v12 !! i)
     ∧ elements v' !! 1 = Some 9%Z
     ∧ (∀ i, 1 ≤ i → elements v' !! S i = elements v12 !! i)
     ∧ size_ v' = S (size_ v12)
     ∧ capacity_ v' = (if decide (size_ v12 = capacity_ v12)
                       then 1 `max` (capacity_ v12 * 2)
                       else capacity_ v12))
  ∧ (∀ i,
       size_ v12 < capacity_ v12 → i < capacity_ v12 →
       ∃ y, Call.Insert second_header by_const_ref v12 1 (Slot i)
            = Call.Insert second_header by_const_ref v12 1 (Outside y)
         ∧ (i < 1 → elements v12 !! i = Some y)
         ∧ (1 < i ≤ size_ v12 → elements v12 !! (i - 1) = Some y))
  ∧ (∀ i,
       size_ v12 < capacity_ v12 → i < capacity_ v12 →
       ∃ v1 y d, Call.Insert second_header by_const_ref v12 1 (Slot i)
                 = Ok (v1, 1)
         ∧ ArrayPtr.load (data_ v1) 1 = Ok y
         ∧ ArrayPtr.store (data_ v1) i (moved_from y) = Ok d
         ∧ Call.Insert second_header by_rvalue_ref v12 1 (Slot i)
           = Ok ({| data_ := d; size_ := size_ v1;
                    capacity_ := capacity_ v1 |}, 1))
  ∧ (∀ i,
       size_ v12 = capacity_ v12 →
       Call.Insert second_header by_const_ref v12 1 (Slot i) = Undefined).
Proof.
  apply (Insert_shifts second_header by_const_ref v12 1 9%Z).
  - split; [simpl; lia|reflexivity].
  - simpl. lia.
  - unfold INT_MAX. lia.
Defined.

(** C6 as stated fails.  [v.Insert(v.begin() + 1, v[0])] on a full
    vector reads the value in a block that has been deleted, so there
    is no vector to erase from.  And in a vector of [2^31 + 6] elements
    the position [2^31 + 5] is no [int], for [Insert] as for [Erase]. *)
Lemma Insert_at_capacity_dangles :
  (wf v12
   ∧ 1 ≤ size_ v12
   ∧ size_ v12 = capacity_ v12
   ∧ elements v12 !! 0 = Some 1%Z
   ∧ Call.Insert simple_vector by_const_ref v12 1 (Slot 0) = Undefined
   ∧ Call.Insert second_header by_const_ref v12 1 (Slot 0) = Undefined)
  ∧ (wf long_vector
     ∧ far_position < size_ long_vector
     ∧ Call.Insert simple_vector by_rvalue_ref long_vector far_position
         (Outside 7%Z) = Undefined
     ∧ Call.Insert second_header by_rvalue_ref long_vector far_position
         (Outside 7%Z) = Undefined
     ∧ Call.Erase simple_vector long_vector far_position = Undefined
     ∧ Call.Erase second_header long_vector far_position = Undefined).
Proof.
  split.
  - split_and!; [split; [simpl; lia|reflexivity]|simpl; lia
                |reflexivity..].
  - destruct far_position_in_range as (_ & Hlt & Hint).
    split_and!;
      [apply wf_of_size|done
      |by apply Insert_past_int|by apply Insert_past_int
      |by apply Erase_past_int|by apply Erase_past_int].
Qed.

Lemma Erase_undoes_Insert_witness :
  (∃ v1 v2, Call.Insert simple_vector by_const_ref v123 1 (Outside 9%Z)
            = Ok (v1, 1)
     ∧ Call.Erase simple_vector v1 1 = Ok (v2, 1)
     ∧ eq_op v2 v123 = true
     ∧ elements v2 = elements v123
     ∧ size_ v2 = size_ v123)
  ∧ (∀ i,
       size_ v123 < capacity_ v123 → i < capacity_ v123 →
       ∃ v1 v2, Call.Insert simple_vector by_const_ref v123 1 (Slot i)
                = Ok (v1, 1)
         ∧ Call.Erase simple_vector v1 1 = Ok (v2, 1)
         ∧ eq_op v2 v123 = true
         ∧ elements v2 = elements v123
         ∧ size_ v2 = size_ v123)
  ∧ (∀ i,
       size_ v123 = capacity_ v123 →
       Call.Insert simple_vector by_const_ref v123 1 (Slot i) = Undefined)
  ∧ (1 < size_ v123 →
     ∃ v', Call.Erase simple_vector v123 1 = Ok (v', 1)
       ∧ elements v' = delete 1 (elements v123)
       ∧ size_ v' = size_ v123 - 1).
Proof.
  apply (Erase_undoes_Insert simple_vector by_const_ref v123 1 9%Z).
  - split; [simpl; lia|reflexivity].
  - simpl. lia.
  - unfold INT_MAX. lia.
Defined.

Lemma move_empties_source_witness :
  (∃ σ', move_construct 0 [v123; v12] = Ok (σ', length [v123; v12])
     ∧ σ' !! length [v123; v12] = Some v123
     ∧ σ' !! 0 = Some {| data_ := None; size_ := 0; capacity_ := 0 |})
  ∧ (∀ this a,
       [v123; v12] !! this = Some a →
       ∃ σ', move_assign this 0 [v123; v12] = Ok σ'
         ∧ σ' !! this = Some v123
         ∧ (this ≠ 0 →
            σ' !! 0
            = Some {| data_ := None; size_ := 0; capacity_ := 0 |})).
Proof. apply (move_empties_source [v123; v12] 0 v123). reflexivity. Defined.

(** C8 as stated fails: after [Reserve(0)] on a default-constructed vector
    [GetCapacity] is 1 under simple_vector.h and 0 under the second
    header. *)
Lemma headers_differ_in_capacity :
  run simple_vector [New; DoReserve (T:=Z) 0 0] []
  = Ok [(Returned, [{| seen_size := 0; seen_capacity := 0;
                       seen_elements := [] |}]);
        (Returned, [{| seen_size := 0; seen_capacity := 1;
                       seen_elements := [] |}])]
  ∧ run second_header [New; DoReserve (T:=Z) 0 0] []
    = Ok [(Returned, [{| seen_size := 0; seen_capacity := 0;
                         seen_elements := [] |}]);
          (Returned, [{| seen_size := 0; seen_capacity := 0;
                         seen_elements := [] |}])]
  ∧ run simple_vector [New; DoReserve (T:=Z) 0 0] []
    ≠ run second_header [New; DoReserve (T:=Z) 0 0] [].
Proof. split_and!; [reflexivity..|discriminate]. Qed.

Lemma headers_agree_witness :
  ∃ ta, run simple_vector sample_program [] = Ok ta
    ∧ Forall2 same_step ta sample_trace.
Proof.
  apply (proj1 (headers_agree sample_program) sample_trace).
  reflexivity.
Defined.

(** C9 as stated fails.  [v.PushBack(std::move(v[1]))] on a full vector
    reads the value in a block that has been deleted, and
    [Erase(begin() + 2^31 + 5)] on a vector of [2^31 + 6] elements
    shifts from an address before the block: neither call leaves a
    vector of which the invariant could hold. *)
Lemma calls_without_defined_behaviour :
  (wf v12
   ∧ elements v12 !! 1 = Some 2%Z
   ∧ Call.PushBack simple_vector by_rvalue_ref v12 (Slot 1) = Undefined
   ∧ Call.PushBack second_header by_rvalue_ref v12 (Slot 1) = Undefined)
  ∧ (wf long_vector
     ∧ far_position < size_ long_vector
     ∧ Call.Erase simple_vector long_vector far_position = Undefined
     ∧ Call.Erase second_header long_vector far_position = Undefined).
Proof.
  split.
  - split_and!; [split; [simpl; lia|reflexivity]|reflexivity..].
  - destruct far_position_in_range as (_ & Hlt & Hint).
    split_and!; [apply wf_of_size|done|by apply Erase_past_int..].
Qed.

Lemma invariant_kept_witness :
  (∀ o value,
     stays_valid v12 value →
     ∃ v', Call.PushBack second_header o v12 value = Ok v' ∧ wf v')
  ∧ (∀ o value v',
       Call.PushBack second_header o v12 value = Ok v' → wf v')
  ∧ (∀ o p value,
       p ≤ size_ v12 → (Z.of_nat p ≤ INT_MAX)%Z →
       stays_valid v12 value →
       ∃ v', Call.Insert second_header o v12 p value = Ok (v', p) ∧ wf v')
  ∧ (∀ o pos value v' p,
       Call.Insert second_header o v12 pos value = Ok (v', p) → wf v')
  ∧ (∀ p,
       p < size_ v12 → (Z.of_nat p ≤ INT_MAX)%Z →
       ∃ v', Call.Erase second_header v12 p = Ok (v', p) ∧ wf v')
  ∧ (∀ pos v' p, Call.Erase second_header v12 pos = Ok (v', p) → wf v')
  ∧ wf (PopBack v12)
  ∧ wf (Clear v12)
  ∧ (∀ n, ∃ v', Call.Resize second_header v12 n = Ok v' ∧ wf v')
  ∧ (∀ n, ∃ v', Call.Reserve second_header v12 n = Ok v' ∧ wf v').
Proof.
  apply (proj1 (proj2 (invariant_kept second_header)) v12).
  split; [simpl; lia|reflexivity].
Defined.

Lemma self_assignment_safe_witness :
  (∃ σ' v', copy_assign 0 0 [v123] = Ok σ'
     ∧ σ' !! 0 = Some v'
     ∧ size_ v' = size_ v123
     ∧ elements v' = elements v123
     ∧ wf v'
     ∧ (∀ k, k ≠ 0 → σ' !! k = [v123] !! k))
  ∧ move_assign 0 0 [v123] = Ok [v123].
Proof.
  apply (self_assignment_safe [v123] 0 v123).
  - reflexivity.
  - split; [simpl; lia|reflexivity].
Defined.

(** * Further properties of the code *)

(** ** Members of one vector *)

Section more_members.
Context `{Element T}.
Implicit Types (v : SimpleVector T) (x : T) (h : header).

(** Pushing into spare capacity does not move the elements. *)
Lemma push_back_each_within h xs : ∀ v,
  wf v → size_ v + length xs ≤ capacity_ v →
  ∃ v', Call.push_back_each h v xs = Ok v' ∧ wf v'
    ∧ elements v' = elements v ++ xs
    ∧ size_ v' = size_ v + length xs
    ∧ capacity_ v' = capacity_ v.
Proof.
  induction xs as [|x xs IH]; intros v Hwf Hroom;
    cbn [Call.push_back_each].
  - exists v. rewrite app_nil_r, Nat.add_0_r. by split_and!.
  - cbn [length] in Hroom.
    destruct (PushBack_spec h by_const_ref v x Hwf)
      as (v1 & -> & Hwf1 & He1 & Hs1 & Hc1).
    rewrite decide_False in Hc1 by lia. cbn [mbind res_bind].
    destruct (IH v1 Hwf1) as (v' & -> & Hwf' & He' & Hs' & Hc'); [lia|].
    exists v'. split_and!; try done.
    + by rewrite He', He1, <- app_assoc.
    + cbn [length]. lia.
    + congruence.
Qed.

(** Pushing, whatever the capacity. *)
Lemma push_back_each_bound h xs : ∀ v,
  wf v →
  ∃ v', Call.push_back_each h v xs = Ok v' ∧ wf v'
    ∧ elements v' = elements v ++ xs
    ∧ size_ v' = size_ v + length xs
    ∧ capacity_ v ≤ capacity_ v'
    ∧ capacity_ v' ≤ capacity_ v `max` (1 `max` (2 * (size_ v' - 1))).
Proof.
  induction xs as [|x xs IH]; intros v Hwf; cbn [Call.push_back_each].
  - exists v. rewrite app_nil_r, Nat.add_0_r. split_and!; try done; lia.
  - destruct (PushBack_spec h by_const_ref v x Hwf)
      as (v1 & -> & Hwf1 & He1 & Hs1 & Hc1).
    cbn [mbind res_bind].
    destruct (IH v1 Hwf1) as (v' & -> & Hwf' & He' & Hs' & Hlo & Hhi).
    exists v'. split_and!; try done.
    + by rewrite He', He1, <- app_assoc.
    + cbn [length]. lia.
    + case_decide; lia.
    + case_decide; lia.
Qed.

(** [Reserve] and [Expand] leave [size_] as it is, when they return. *)
Lemma Reserve_size h v n v' : Call.Reserve h v n = Ok v' → size_ v' = size_ v.
Proof.
  destruct h; cbn [Call.Reserve];
    unfold simple_vector_h.Reserve, part_000.Reserve;
    (case_decide; [by intros [= <-]|]);
    destruct (std_copy_move _ _ _ _ _) as [[? ?]| |]; simpl;
    by intros [= <-].
Qed.

Lemma Expand_size v n v' : part_000.Expand v n = Ok v' → size_ v' = size_ v.
Proof. apply (Reserve_size second_header). Qed.

(** X1.  The constructors that take a size, a size and a value, and an
    initializer list make a vector of exactly that many elements: [n]
    value-initialised elements, [n] copies of the value, the elements of
    the list in their order.  Size and capacity are both that number.
    Under either header. *)
Theorem constructed_contents h :
  (∀ n, elements (of_size (T:=T) n) = replicate n value_init
        ∧ GetSize (of_size (T:=T) n) = n
        ∧ GetCapacity (of_size (T:=T) n) = n)
  ∧ (∀ n x, ∃ v, Call.of_fill h n x = Ok v
        ∧ elements v = replicate n x
        ∧ GetSize v = n ∧ GetCapacity v = n)
  ∧ (∀ init, ∃ v, Call.of_list h init = Ok v
        ∧ elements v = init
        ∧ GetSize v = length init ∧ GetCapacity v = length init).
Proof.
  split_and!.
  - intros n. split_and!; [|done..].
    unfold elements, of_size, ArrayPtr.make. simpl.
    case_decide; simpl; [by subst|].
    by rewrite take_ge by (by rewrite length_replicate).
  - intros n x. destruct (of_fill_spec h n x) as (v & ? & _ & ? & ? & ?).
    by exists v.
  - intros l. destruct (of_list_spec h l) as (v & ? & _ & ? & ? & ?).
    by exists v.
Qed.

(** X2.  [SimpleVector v(Reserve(n))] makes an empty vector of capacity
    exactly [n], and the first [n] calls of [PushBack] on it keep that
    capacity: the elements pushed are its elements, in the order of the
    calls. *)
Theorem reserved_on_construction h n (xs : list T) :
  length xs ≤ n →
  ∃ v v', Call.of_reserve h (Reserve_proxy n) = Ok v
    ∧ GetSize v = 0 ∧ GetCapacity v = n ∧ IsEmpty v = true
    ∧ elements v = []
    ∧ Call.push_back_each h v xs = Ok v'
    ∧ elements v' = xs ∧ GetCapacity v' = n.
Proof.
  intros Hn. destruct (of_reserve_spec h n) as (v & Hv & Hwf & Hs & Hc).
  destruct (push_back_each_within h xs v Hwf) as (v' & ? & _ & He & _ & ?);
    [lia|].
  assert (elements v = []) as Hnil by (unfold elements; by rewrite Hs).
  exists v, v'. unfold GetSize, GetCapacity, IsEmpty.
  split_and!; try done; try congruence.
  - by rewrite Hs.
  - by rewrite He, Hnil.
Qed.

(** X3.  After [Reserve(n)], as many calls of [PushBack] as bring the
    size to at most [n] do not change the capacity again; the elements
    are the old ones followed by the ones pushed. *)
Theorem Reserve_then_PushBack h v n (xs : list T) :
  wf v → size_ v + length xs ≤ n →
  ∃ v1 v2, Call.Reserve h v n = Ok v1
    ∧ Call.push_back_each h v1 xs = Ok v2
    ∧ elements v2 = elements v ++ xs
    ∧ GetCapacity v2 = GetCapacity v1.
Proof.
  intros Hwf Hn.
  destruct (Reserve_spec h v n Hwf) as (v1 & ? & Hwf1 & Hs1 & He1 & Hc1).
  destruct (push_back_each_within h xs v1 Hwf1)
    as (v2 & ? & _ & He2 & _ & ?).
  { rewrite Hs1, Hc1. destruct Hwf. repeat case_decide; lia. }
  exists v1, v2. split_and!; try done. by rewrite He2, He1.
Qed.

(** X4.  [Clear()] leaves no element and keeps the buffer and the
    capacity: the vector is empty, [data_] and [GetCapacity()] are as
    before, and pushing again up to the old capacity does not
    reallocate. *)
Theorem Clear_keeps_storage h v (xs : list T) :
  wf v → length xs ≤ capacity_ v →
  elements (Clear v) = [] ∧ IsEmpty (Clear v) = true
  ∧ GetCapacity (Clear v) = GetCapacity v
  ∧ data_ (Clear v) = data_ v
  ∧ ∃ v', Call.push_back_each h (Clear v) xs = Ok v'
      ∧ elements v' = xs ∧ GetCapacity v' = GetCapacity v.
Proof.
  intros Hwf Hn. split_and!; try done.
  destruct (push_back_each_within h xs (Clear v))
    as (v' & ? & _ & He & _ & ?); [by apply wf_Clear|simpl; lia|].
  exists v'. split_and!; try done.
Qed.
(** X5.  [PopBack()] drops the last element and nothing else; on an
    empty vector it changes nothing, the size staying 0.  It undoes
    [PushBack]: after [PushBack(x)], in either overload, of a value that
    is not an element of the vector, and [PopBack()], the vector has its
    old size and elements and compares equal to what it was, whether
    the push reallocated or not. *)
Theorem PopBack_takes_the_last h o v x :
  wf v →
  elements (PopBack v) = take (size_ v - 1) (elements v)
  ∧ (IsEmpty v = true → PopBack v = v)
  ∧ ∃ v', Call.PushBack h o v (Outside x) = Ok v'
      ∧ elements (PopBack v') = elements v
      ∧ GetSize (PopBack v') = GetSize v
      ∧ eq_op (PopBack v') v = true.
Proof.
  intros Hwf. split_and!.
  - unfold elements, PopBack. simpl. rewrite take_take.
    case_decide; f_equal; lia.
  - unfold IsEmpty. intros Hs%bool_decide_eq_true. destruct v as [d s c].
    simpl in *. subst. done.
  - destruct (PushBack_spec h o v x Hwf) as (v' & ? & Hwf' & He & Hs & _).
    exists v'. split; [done|].
    assert (elements (PopBack v') = elements v) as Hpop.
    { unfold elements at 1, PopBack. simpl. rewrite Hs.
      rewrite decide_True by lia.
      replace (S (size_ v) - 1) with (size_ v) by lia.
      replace (take (size_ v) (ArrayPtr.slots (data_ v')))
        with (take (size_ v) (elements v')).
      - rewrite He. by rewrite take_app_length' by (by rewrite length_elements).
      - unfold elements. rewrite take_take, Hs. f_equal. lia. }
    split_and!; [done| |].
    + unfold GetSize, PopBack. simpl. rewrite Hs. case_decide; lia.
    + unfold eq_op, std_equal. by rewrite Hpop, bool_decide_eq_true.
Qed.

(** X6.  On a vector whose size an [int] holds, [Insert(end(), value)]
    is [PushBack(value)], in either overload and whatever [value]
    refers to: the same vector results, or the same failure, the
    iterator returned being the old [end()].  Under either header. *)
Theorem Insert_at_end_is_PushBack h o v (value : reference T) :
  (Z.of_nat (end_ v) ≤ INT_MAX)%Z →
  Call.Insert h o v (end_ v) value
  = (v' ← Call.PushBack h o v value; Ok (v', end_ v)).
Proof.
  intros Hint. pose proof (advance_in_int v (end_ v) Hint) as Hadv.
  assert (∀ deleted v1,
    size_ v1 = size_ v →
    (n ← distance (end_ v) (end_ v1);
     d ← std_move_backward (data_ v1) n (end_ v1) (end_ v1 + 1);
     assign o deleted d (end_ v) value)
    = assign o deleted (data_ v1) (size_ v1) value) as Hstep.
  { intros deleted v1 Hs. unfold end_, distance.
    rewrite Hs, decide_True, Nat.sub_diag by lia. done. }
  destruct h; cbn [Call.Insert Call.PushBack];
    unfold simple_vector_h.Insert, simple_vector_h.PushBack,
      part_000.Insert, part_000.PushBack, std_copy_backward_mi;
    rewrite Hadv; cbn [mbind res_bind]; case_decide.
  - destruct (simple_vector_h.Reserve v _) as [v1| |] eqn:Hv1; [|done..].
    apply (Reserve_size simple_vector) in Hv1.
    cbn [mbind res_bind]. change (begin v1) with (begin v).
    rewrite Hadv. cbn [mbind res_bind].
    rewrite <- (Hstep _ v1 Hv1).
    destruct (distance _ _) as [n| |]; [|done..]. cbn [mbind res_bind].
    destruct (std_move_backward _ _ _ _) as [d| |]; [|done..].
    cbn [mbind res_bind].
    by destruct (assign _ _ _ _ _).
  - cbn [mbind res_bind]. rewrite <- (Hstep _ v eq_refl).
    destruct (distance _ _) as [n| |]; [|done..]. cbn [mbind res_bind].
    destruct (std_move_backward _ _ _ _) as [d| |]; [|done..].
    cbn [mbind res_bind].
    by destruct (assign _ _ _ _ _).
  - destruct (part_000.Expand v _) as [v1| |] eqn:Hv1; [|done..].
    apply Expand_size in Hv1.
    cbn [mbind res_bind]. change (begin v1) with (begin v).
    rewrite Hadv. cbn [mbind res_bind].
    rewrite <- (Hstep _ v1 Hv1).
    destruct (distance _ _) as [n| |]; [|done..]. cbn [mbind res_bind].
    destruct (std_move_backward _ _ _ _) as [d| |]; [|done..].
    cbn [mbind res_bind].
    destruct (assign _ _ _ _ _) as [d'| |]; [|done..].
    cbn [mbind res_bind]. change (begin v1) with (begin v).
    by rewrite ?Hadv.
  - cbn [mbind res_bind]. rewrite <- (Hstep _ v eq_refl).
    destruct (distance _ _) as [n| |]; [|done..]. cbn [mbind res_bind].
    destruct (std_move_backward _ _ _ _) as [d| |]; [|done..].
    cbn [mbind res_bind].
    destruct (assign _ _ _ _ _) as [d'| |]; [|done..].
    cbn [mbind res_bind]. by rewrite ?Hadv.
Qed.

(** X7.  On a vector that is not empty and whose last position an
    [int] holds, [Erase(end() - 1)] is [PopBack()]: nothing is shifted,
    and the iterator returned is the new [end()]. *)
Theorem Erase_at_last_is_PopBack h v :
  IsEmpty v = false → (Z.of_nat (end_ v - 1) ≤ INT_MAX)%Z →
  Call.Erase h v (end_ v - 1) = Ok (PopBack v, end_ v - 1).
Proof.
  unfold IsEmpty. intros Hs%bool_decide_eq_false Hint.
  pose proof (advance_in_int v (end_ v - 1) Hint) as Hadv.
  destruct h; cbn [Call.Erase];
    unfold simple_vector_h.Erase, part_000.Erase, std_copy_mi, PopBack;
    rewrite Hadv; cbn [mbind res_bind]; unfold end_, distance;
    rewrite decide_True by lia;
    replace (size_ v - (size_ v - 1 + 1)) with 0 by lia;
    cbn [mbind res_bind std_move]; rewrite ?Hadv;
    cbn [mbind res_bind]; rewrite decide_True by lia; done.
Qed.

(** X8.  Erasing the element at a position that an [int] holds and
    inserting a copy of it, kept outside the vector, at that position
    gives the elements, the size and the capacity back: the insertion
    finds the room the erasure left, so nothing is reallocated, and the
    vector compares equal to what it was.  In either overload of
    [Insert]. *)
Theorem Insert_undoes_Erase h o v p x :
  wf v → elements v !! p = Some x → (Z.of_nat p ≤ INT_MAX)%Z →
  ∃ v1 v2, Call.Erase h v p = Ok (v1, p)
    ∧ Call.Insert h o v1 p (Outside x) = Ok (v2, p)
    ∧ elements v2 = elements v
    ∧ GetSize v2 = GetSize v
    ∧ GetCapacity v2 = GetCapacity v
    ∧ eq_op v2 v = true.
Proof.
  intros Hwf Hx Hint. pose proof (lookup_lt_Some _ _ _ Hx) as Hp.
  rewrite length_elements in Hp by done.
  destruct (Erase_spec h v p Hwf Hp Hint)
    as (v1 & ? & Hwf1 & He1 & Hs1 & Hc1).
  destruct (Insert_spec h o v1 p x Hwf1) as (v2 & ? & _ & He2 & Hs2 & Hc2);
    [lia|done|].
  assert (elements v2 = elements v) as He.
  { rewrite He2, He1, delete_take_drop.
    rewrite take_app_length', drop_app_length'
      by (rewrite length_take, length_elements by done; lia).
    by apply take_drop_middle. }
  exists v1, v2. unfold GetSize, GetCapacity. split_and!; try done.
  - lia.
  - rewrite Hc2, decide_False; [done|]. destruct Hwf. lia.
  - unfold eq_op, std_equal. by rewrite He, bool_decide_eq_true.
Qed.

(** X9.  [Resize(n)] followed by [Resize] to the old size: growing and
    shrinking back gives the elements back; shrinking and growing back
    keeps the first [n] and value-initialises the rest, so what was cut
    off is lost. *)
Theorem Resize_and_back h v n :
  wf v →
  ∃ v1 v2, Call.Resize h v n = Ok v1
    ∧ Call.Resize h v1 (size_ v) = Ok v2
    ∧ GetSize v2 = GetSize v
    ∧ elements v2
      = take n (elements v) ++ replicate (size_ v - n) value_init
    ∧ (size_ v ≤ n → elements v2 = elements v).
Proof.
  intros Hwf.
  destruct (Resize_spec h v n Hwf) as (v1 & ? & Hwf1 & Hs1 & He1 & _).
  destruct (Resize_spec h v1 (size_ v) Hwf1)
    as (v2 & ? & _ & Hs2 & He2 & _).
  pose proof (length_elements v Hwf) as Hlen.
  assert (elements v2
    = take n (elements v) ++ replicate (size_ v - n) value_init) as He.
  { rewrite He2, He1, Hs1. destruct (decide (size_ v ≤ n)).
    - rewrite (take_ge (elements v) n) by lia.
      rewrite take_app_length' by done.
      by replace (size_ v - n) with 0 by lia.
    - replace (n - size_ v) with 0 by lia. cbn [replicate].
      rewrite app_nil_r, take_take. do 2 f_equal. lia. }
  exists v1, v2. split_and!; try done.
  intros Hn. rewrite He, take_ge by lia.
  replace (size_ v - n) with 0 by lia. by rewrite app_nil_r.
Qed.
(** X10.  Any number of [PushBack]s on a vector, of values that are not
    elements of it: the capacity never shrinks, and it ends no larger
    than the capacity the vector had or twice the number of elements
    before the last push (or 1), whichever is larger.  The elements are
    the old ones followed by the ones pushed. *)
Theorem PushBack_growth_is_bounded h v (xs : list T) :
  wf v →
  ∃ v', Call.push_back_each h v xs = Ok v'
    ∧ elements v' = elements v ++ xs
    ∧ GetSize v' = GetSize v + length xs
    ∧ GetSize v' ≤ GetCapacity v'
    ∧ GetCapacity v ≤ GetCapacity v'
    ∧ GetCapacity v' ≤ GetCapacity v `max` (1 `max` (2 * (GetSize v' - 1))).
Proof.
  intros Hwf.
  destruct (push_back_each_bound h xs v Hwf)
    as (v' & ? & [? _] & ? & ? & ? & ?).
  exists v'. unfold GetSize, GetCapacity. by split_and!.
Qed.
End more_members.

(** ** Copies and swaps *)

Section more_objects.
Context `{Element T}.
Implicit Types (v a b c : SimpleVector T) (σ : list (SimpleVector T)).

(** X11.  Copy assignment and copy construction make a vector that
    compares equal ([operator==]) to the source and has the source's
    size as its size and as its capacity, so spare capacity is not
    copied.  The source, when it is another object, is as it was, and
    construction leaves every object there was as it was. *)
Theorem copy_is_equal_and_fits this other σ a b :
  σ !! this = Some a → σ !! other = Some b → wf b →
  (∃ σ' c, copy_assign this other σ = Ok σ'
     ∧ σ' !! this = Some c
     ∧ eq_op c b = true ∧ GetSize c = GetSize b ∧ GetCapacity c = GetSize b
     ∧ (this ≠ other → σ' !! other = Some b))
  ∧ (∃ σ' c, copy_construct other σ = Ok (σ', length σ)
     ∧ σ' !! length σ = Some c
     ∧ eq_op c b = true ∧ GetSize c = GetSize b ∧ GetCapacity c = GetSize b
     ∧ take (length σ) σ' = σ).
Proof.
  intros Ha Hb Hwf. split.
  - destruct (CopyAndSwap_spec this other σ a b Ha Hb Hwf)
      as (σ' & c & ? & _ & ? & _ & He & ? & ? & ? & _).
    exists σ', c. unfold eq_op, std_equal, GetSize, GetCapacity.
    split_and!; try done. by rewrite He, bool_decide_eq_true.
  - destruct (copy_construct_spec other σ b Hb Hwf)
      as (σ' & c & ? & Hlen & ? & _ & He & ? & ? & Hother & Hrest).
    exists σ', c. unfold eq_op, std_equal, GetSize, GetCapacity.
    split_and!; try done; [by rewrite He, bool_decide_eq_true|].
    apply list_eq. intros k.
    destruct (decide (k < length σ)) as [Hk|Hk].
    + rewrite lookup_take_lt by done.
      destruct (decide (k = other)) as [->|?]; [congruence|].
      apply Hrest; [lia|done].
    + rewrite lookup_take_ge by lia. symmetry. apply lookup_ge_None_2. lia.
Qed.

(** X12.  [swap] exchanges the two vectors, buffer, size and capacity,
    and touches no other object; swapping again restores the store, and
    swapping a vector with itself changes nothing. *)
Theorem swap_exchanges_and_undoes this other σ a b :
  σ !! this = Some a → σ !! other = Some b →
  ∃ σ', swap this other σ = Ok σ'
    ∧ σ' !! this = Some b ∧ σ' !! other = Some a
    ∧ (∀ k, k ≠ this → k ≠ other → σ' !! k = σ !! k)
    ∧ swap this other σ' = Ok σ
    ∧ (this = other → σ' = σ).
Proof.
  intros Ha Hb.
  destruct (swap_spec this other σ a b Ha Hb)
    as (σ' & Hrun & Hlen & Ha' & Hb' & Hrest).
  destruct (swap_spec this other σ' b a Ha' Hb')
    as (σ'' & Hrun' & Hlen' & Ha'' & Hb'' & Hrest').
  assert (∀ τ, length τ = length σ → τ !! this = σ !! this →
    τ !! other = σ !! other →
    (∀ k, k ≠ this → k ≠ other → τ !! k = σ !! k) → τ = σ) as Hext.
  { intros τ _ Hthis Hother Hk. apply list_eq. intros k.
    destruct (decide (k = this)) as [->|?]; [done|].
    destruct (decide (k = other)) as [->|?]; [done|]. by apply Hk. }
  exists σ'. split_and!; try done.
  - rewrite Hrun'. f_equal. apply Hext; [congruence..|].
    intros k ? ?. by rewrite Hrest', Hrest.
  - intros ->. apply Hext; [congruence..|done].
Qed.
End more_objects.

(** ** Two vectors compared *)

Lemma int_strict_total_order : strict_total_order Z.
Proof.
  split; simpl; intros *; rewrite ?Z.ltb_lt, ?Z.ltb_ge; lia.
Qed.

Section lexicographic.
Context `{Element T}.
Implicit Types (l k : list T).

Lemma lex_irrefl l :
  (∀ x : T, elem_lt x x = false) → std_lexicographical_compare l l = false.
Proof.
  intros Hirr. induction l as [|x l IH]; [done|].
  cbn [std_lexicographical_compare]. by rewrite Hirr.
Qed.

Lemma lex_prefix l k :
  (∀ x : T, elem_lt x x = false) → k ≠ [] →
  std_lexicographical_compare l (l ++ k) = true.
Proof.
  intros Hirr Hk. induction l as [|x l IH].
  - by destruct k.
  - cbn [std_lexicographical_compare app]. by rewrite Hirr.
Qed.

Lemma lex_asym l : ∀ k,
  (∀ x y : T, elem_lt x y = true → elem_lt y x = false) →
  std_lexicographical_compare l k = true →
  std_lexicographical_compare k l = false.
Proof.
  intros k Hasym. revert k.
  induction l as [|x l IH]; intros [|y k]; cbn [std_lexicographical_compare];
    try done.
  destruct (elem_lt x y) eqn:Hxy.
  - by rewrite (Hasym _ _ Hxy).
  - destruct (elem_lt y x); [done|]. apply IH.
Qed.

Lemma lex_connex l : ∀ k,
  (∀ x y : T, elem_lt x y = false → elem_lt y x = false → x = y) →
  std_lexicographical_compare l k = false →
  std_lexicographical_compare k l = false → l = k.
Proof.
  intros k Hconn. revert k.
  induction l as [|x l IH]; intros [|y k]; cbn [std_lexicographical_compare];
    try done.
  destruct (elem_lt x y) eqn:Hxy; [done|].
  destruct (elem_lt y x) eqn:Hyx; [done|].
  intros ? ?. f_equal; [by apply Hconn|by apply IH].
Qed.

Lemma lex_trans l : ∀ k m,
  strict_total_order T →
  std_lexicographical_compare l k = true →
  std_lexicographical_compare k m = true →
  std_lexicographical_compare l m = true.
Proof.
  intros k m [Hasym Htrans Hconn]. revert k m.
  induction l as [|x l IH]; intros [|y k] [|z m];
    cbn [std_lexicographical_compare]; try done.
  destruct (elem_lt x y) eqn:Hxy.
  - intros _. destruct (elem_lt y z) eqn:Hyz.
    + intros _. by rewrite (Htrans _ _ _ Hxy Hyz).
    + destruct (elem_lt z y) eqn:Hzy; [done|].
      assert (y = z) as <- by by apply Hconn. by rewrite Hxy.
  - destruct (elem_lt y x) eqn:Hyx; [done|].
    assert (x = y) as <- by by apply Hconn.
    destruct (elem_lt x z) eqn:Hxz; [done|].
    destruct (elem_lt z x) eqn:Hzx; [done|]. apply IH.
Qed.
End lexicographic.

Section comparisons.
Context `{Element T}.
Implicit Types (a b c v : SimpleVector T) (h : header).

(** X13.  [operator==] holds of two vectors exactly when [GetSize()]
    agrees and [At(i)] reads the same in both at every index below the
    size; the capacities and the slots beyond the size play no part. *)
Theorem eq_op_by_index a b :
  wf a → wf b →
  eq_op a b = true
  ↔ GetSize a = GetSize b ∧ ∀ i, i < GetSize a → At a i = At b i.
Proof.
  intros Ha Hb. unfold eq_op, std_equal, GetSize.
  rewrite bool_decide_eq_true. split.
  - intros He. assert (size_ a = size_ b) as Hs.
    { by rewrite <- (length_elements a), <- (length_elements b), He. }
    split; [done|]. intros i Hi. unfold At.
    rewrite !decide_False by lia. unfold ArrayPtr.load.
    pose proof (elements_lookup a i Hi) as Hai.
    pose proof (elements_lookup b i ltac:(lia)) as Hbi.
    rewrite He, Hbi in Hai. unfold ArrayPtr.slots in Hai.
    destruct (data_ a) as [ba|] eqn:Hda, (data_ b) as [bb|] eqn:Hdb;
      simpl in Hai.
    + by rewrite Hai.
    + destruct (wf_null _ Hb Hdb). lia.
    + destruct (wf_null _ Ha Hda). lia.
    + done.
  - intros [Hs Hat]. apply list_eq. intros i.
    destruct (decide (i < size_ a)) as [Hi|Hi].
    + specialize (Hat i Hi). unfold At in Hat.
      rewrite !decide_False in Hat by lia.
      rewrite !elements_lookup by lia. unfold ArrayPtr.load in Hat.
      destruct (data_ a) as [ba|] eqn:Hda.
      2:{ destruct (wf_null _ Ha Hda). lia. }
      destruct (data_ b) as [bb|] eqn:Hdb.
      2:{ destruct (wf_null _ Hb Hdb). lia. }
      simpl.
      pose proof (wf_block _ _ Ha Hda). pose proof (wf_block _ _ Hb Hdb).
      destruct Ha as [? _], Hb as [? _].
      destruct (lookup_lt_is_Some_2 ba i ltac:(lia)) as [xa Hxa].
      destruct (lookup_lt_is_Some_2 bb i ltac:(lia)) as [xb Hxb].
      rewrite Hxa, Hxb in Hat |- *. congruence.
    + rewrite !lookup_ge_None_2; [done|..];
        rewrite length_elements by done; lia.
Qed.

(** X14.  For an element type whose [operator<] is a strict total
    order, [operator<] on vectors is irreflexive, asymmetric and
    transitive, and the other operators are what their names say:
    [a <= b] is [a < b] or [a == b], [a >= b] is [a > b] or [a == b],
    and [a != b] is [a < b] or [a > b]. *)
Theorem comparisons_are_a_strict_total_order a b c :
  strict_total_order T →
  lt_op a a = false
  ∧ (lt_op a b = true → lt_op b a = false)
  ∧ (lt_op a b = true → lt_op b c = true → lt_op a c = true)
  ∧ le_op a b = lt_op a b || eq_op a b
  ∧ ge_op a b = gt_op a b || eq_op a b
  ∧ ne_op a b = lt_op a b || gt_op a b.
Proof.
  intros Hord. pose proof Hord as [Hasym Htrans Hconn].
  assert (∀ x : T, elem_lt x x = false) as Hirr.
  { intros x. destruct (elem_lt x x) eqn:Hx; [|done].
    by rewrite (Hasym _ _ Hx) in Hx. }
  assert (∀ a b, eq_op a b = true → lt_op a b = false) as Heq.
  { intros a' b'. unfold eq_op, std_equal, lt_op.
    intros ->%bool_decide_eq_true. by apply lex_irrefl. }
  assert (∀ a b, lt_op a b = false → lt_op b a = false →
    eq_op a b = true) as Htot.
  { intros a' b'. unfold eq_op, std_equal, lt_op. intros ? ?.
    apply bool_decide_eq_true. by apply lex_connex. }
  assert (∀ a b, eq_op a b = eq_op b a) as Hsym.
  { intros a' b'. unfold eq_op, std_equal.
    apply bool_decide_ext. naive_solver. }
  assert (∀ a b, lt_op a b = true → lt_op b a = false) as Hanti.
  { intros a' b'. by apply lex_asym. }
  unfold le_op, ge_op, ne_op, gt_op.
  split_and!; [by apply lex_irrefl|apply Hanti|by apply lex_trans|..];
    destruct (lt_op b a) eqn:Hba, (lt_op a b) eqn:Hab,
      (eq_op a b) eqn:He; simpl; try done;
    first [ by rewrite (Hanti _ _ Hab) in Hba
          | by rewrite (Heq _ _ He) in Hab
          | by (rewrite Hsym in He; rewrite (Heq _ _ He) in Hba)
          | by rewrite (Htot _ _ Hab Hba) in He ].
Qed.

(** X15.  A vector is less than the vector that [PushBack]s make of
    it: after one or more pushes, of values that are not elements of
    the vector, the old vector is [<] the new one, the new one is [>]
    and not [<=] the old one, and the two are not [==]. *)
Theorem shorter_prefix_is_less h v (xs : list T) :
  strict_total_order T → wf v → xs ≠ [] →
  ∃ v', Call.push_back_each h v xs = Ok v'
    ∧ lt_op v v' = true ∧ gt_op v' v = true
    ∧ le_op v' v = false ∧ eq_op v v' = false.
Proof.
  intros [Hasym _ _] Hwf Hxs.
  assert (∀ x : T, elem_lt x x = false) as Hirr.
  { intros x. destruct (elem_lt x x) eqn:Hx; [|done].
    by rewrite (Hasym _ _ Hx) in Hx. }
  destruct (push_back_each_bound h xs v Hwf) as (v' & ? & _ & He & _).
  assert (lt_op v v' = true) as Hlt.
  { unfold lt_op. rewrite He. by apply lex_prefix. }
  exists v'. unfold gt_op, le_op, gt_op, eq_op, std_equal.
  rewrite Hlt. split_and!; try done.
  apply bool_decide_eq_false. rewrite He. intros Heq.
  apply (f_equal length) in Heq. rewrite length_app in Heq.
  destruct xs; [done|]. simpl in Heq. lia.
Qed.
End comparisons.

(** ** What the two headers share *)

Section headers_same.
Context `{Element T}.
Implicit Types (v : SimpleVector T) (x : T).

Lemma Reserve_is_Expand_or_Reserve v n :
  simple_vector_h.Reserve v n
  = if decide (capacity_ v = 0) then part_000.Expand v n
    else part_000.Reserve v n.
Proof.
  unfold simple_vector_h.Reserve, part_000.Expand, part_000.Reserve.
  destruct (decide (capacity_ v = 0)) as [Hc|Hc].
  - rewrite (decide_False (P:=_ ∧ _)) by tauto.
    replace (n `max` 1) with (if decide (0 < n) then n else 1)
      by (case_decide; lia).
    rewrite (decide_False (P:=_ ≤ _)); [done|]. case_decide; lia.
  - destruct (decide (n ≤ capacity_ v)).
    + by rewrite decide_True.
    + rewrite decide_False by tauto.
      by replace (n `max` 1) with n by lia.
Qed.

(** Doubling the capacity replaces the block under either header. *)
Lemma replaces_same v :
  simple_vector_h.Reserve_replaces v (capacity_ v * 2) = true
  ∧ part_000.Expand_replaces v (capacity_ v * 2) = true.
Proof.
  unfold part_000.Expand_replaces, simple_vector_h.Reserve_replaces,
    part_000.Reserve_replaces.
  split; apply bool_decide_eq_true_2; [lia|]. case_decide; lia.
Qed.

Lemma room_same v :
  (if decide (size_ v = capacity_ v) then
     v' ← simple_vector_h.Reserve v (capacity_ v * 2);
     Ok (v', simple_vector_h.Reserve_replaces v (capacity_ v * 2))
   else Ok (v, false))
  = (if decide (size_ v = capacity_ v) then
       v' ← part_000.Expand v (capacity_ v * 2);
       Ok (v', part_000.Expand_replaces v (capacity_ v * 2))
     else Ok (v, false)).
Proof.
  case_decide; [|done]. destruct (replaces_same v) as [-> ->].
  rewrite Reserve_is_Expand_or_Reserve.
  case_decide; [done|]. unfold part_000.Expand.
  by rewrite decide_True by lia.
Qed.

Lemma room_at_same v offset p :
  (if decide (size_ v = capacity_ v) then
     v' ← simple_vector_h.Reserve v (capacity_ v * 2);
     true_position ← advance (begin v') offset;
     Ok (v', simple_vector_h.Reserve_replaces v (capacity_ v * 2),
         true_position)
   else Ok (v, false, p))
  = (if decide (size_ v = capacity_ v) then
       v' ← part_000.Expand v (capacity_ v * 2);
       true_position ← advance (begin v') offset;
       Ok (v', part_000.Expand_replaces v (capacity_ v * 2),
           true_position)
     else Ok (v, false, p)).
Proof.
  case_decide; [|done]. destruct (replaces_same v) as [-> ->].
  rewrite Reserve_is_Expand_or_Reserve.
  case_decide; [done|]. unfold part_000.Expand.
  by rewrite decide_True by lia.
Qed.

(** X16.  [PushBack], [Insert], [Erase], the constructor from
    [Reserve(n)] and the constructor from a size and a value are the
    same functions under the two headers, on every vector and argument:
    in either overload, whatever the value refers to, and at every
    position.  [Reserve] of simple_vector.h is [Expand] of the second
    header on a vector of capacity 0 and [Reserve] of the second header
    on any other. *)
Theorem headers_share_members :
  (∀ o v (value : reference T),
     simple_vector_h.PushBack o v value = part_000.PushBack o v value)
  ∧ (∀ o v pos (value : reference T),
       simple_vector_h.Insert o v pos value
       = part_000.Insert o v pos value)
  ∧ (∀ v pos, simple_vector_h.Erase v pos = part_000.Erase v pos)
  ∧ (∀ n, simple_vector_h.of_reserve (T:=T) n = part_000.of_reserve n)
  ∧ (∀ n x, simple_vector_h.of_fill n x = part_000.of_fill n x)
  ∧ (∀ v n, simple_vector_h.Reserve v n
            = if decide (capacity_ v = 0) then part_000.Expand v n
              else part_000.Reserve v n).
Proof.
  split_and!.
  - intros o v value. unfold simple_vector_h.PushBack, part_000.PushBack.
    by rewrite room_same.
  - intros o v pos value.
    unfold simple_vector_h.Insert, part_000.Insert, std_copy_backward_mi.
    destruct (advance (begin v) _) as [p| |] eqn:Hadv; [|done..].
    cbn [mbind res_bind]. rewrite room_at_same.
    destruct (if decide (size_ v = capacity_ v) then _ else _)
      as [[[v1 deleted] q]| |] eqn:Hroom; [|done..].
    assert (q = p) as ->.
    { case_decide; [|congruence].
      destruct (part_000.Expand v _) as [v2| |]; [|done..].
      cbn [mbind res_bind] in Hroom.
      change (begin v2) with (begin v) in Hroom. rewrite Hadv in Hroom. cbn [mbind res_bind] in Hroom. congruence. }
    cbn [mbind res_bind].
    destruct (distance _ _) as [n| |]; [|done..]. cbn [mbind res_bind].
    destruct (std_move_backward _ _ _ _) as [d| |]; [|done..].
    cbn [mbind res_bind].
    destruct (assign _ _ _ _ _) as [d'| |]; [|done..].
    cbn [mbind res_bind]. change (begin v1) with (begin v).
    by rewrite Hadv.
  - intros v pos. by rewrite sv_Erase_at, p0_Erase_at.
  - intros n. unfold simple_vector_h.of_reserve, part_000.of_reserve.
    case_decide; [done|]. rewrite Reserve_is_Expand_or_Reserve.
    simpl. unfold part_000.Expand. by rewrite decide_True by lia.
  - intros n x. unfold simple_vector_h.of_fill, part_000.of_fill,
      ArrayPtr.make_fill, of_size, ArrayPtr.make, begin, end_. simpl.
    rewrite Nat.sub_0_r. case_decide; [by subst|done].
  - apply Reserve_is_Expand_or_Reserve.
Qed.

(** X17.  [Resize(n)] is the same function under the two headers on
    every vector with [size_ <= capacity_], except for [Resize(0)] on a
    vector of capacity 0. *)
Theorem headers_share_Resize v n :
  size_ v ≤ capacity_ v → capacity_ v ≠ 0 ∨ n ≠ 0 →
  simple_vector_h.Resize v n = part_000.Resize v n.
Proof.
  intros Hle Hnz. unfold simple_vector_h.Resize, part_000.Resize.
  rewrite Reserve_is_Expand_or_Reserve.
  destruct (decide (n ≤ size_ v)).
  - rewrite decide_False by lia. rewrite decide_False by lia.
    unfold part_000.Reserve. by rewrite decide_True by lia.
  - destruct (decide (n ≤ capacity_ v)).
    + by rewrite decide_True by lia.
    + rewrite decide_False by lia. case_decide; [done|].
      unfold part_000.Expand. by rewrite decide_True by lia.
Qed.

(** X18.  The constructor from an initializer list gives the same
    vector under the two headers for a list that is not empty.  For the
    empty list both give size 0 and capacity 0, but simple_vector.h
    leaves [data_] null while the second header lets it hold a block of
    no slots, the [new Type[0]] of [ArrayPtr]'s constructor. *)
Theorem headers_differ_on_the_empty_list (init : list T) :
  (init ≠ [] → simple_vector_h.of_list init = part_000.of_list init)
  ∧ simple_vector_h.of_list (T:=T) []
    = Ok {| data_ := None; size_ := 0; capacity_ := 0 |}
  ∧ part_000.of_list (T:=T) []
    = Ok {| data_ := Some []; size_ := 0; capacity_ := 0 |}.
Proof.
  split_and!; [|done..]. intros Hne.
  unfold simple_vector_h.of_list, part_000.of_list, ArrayPtr.make_init,
    of_size, ArrayPtr.make, begin. simpl.
  rewrite decide_False by (by destruct init).
  rewrite std_copy_Some by (rewrite ?length_replicate; lia).
  rewrite assign_from_Some by (rewrite ?length_replicate; simpl; lia).
  simpl. by rewrite !firstn_all.
Qed.
End headers_same.

(** ** The constructors of [ArrayPtr] *)

Section more_array_ptr.
Context `{Element T}.

(** X19.  What the constructors of [ArrayPtr] build.  From a size: a
    null pointer for size 0, else a block of that many value-initialised
    slots.  From a size and a value: a null pointer for size 0, else a
    block of that many copies.  From an initializer list: a block with
    the elements of the list, and never a null pointer, not even for the
    empty list. *)
Theorem ArrayPtr_constructed n (x : T) (init : list T) :
  ArrayPtr.to_bool (ArrayPtr.make (T:=T) n) = bool_decide (n ≠ 0)
  ∧ ArrayPtr.slots (ArrayPtr.make (T:=T) n) = replicate n value_init
  ∧ (∃ p, ArrayPtr.make_fill n x = Ok p
       ∧ ArrayPtr.to_bool p = bool_decide (n ≠ 0)
       ∧ ArrayPtr.slots p = replicate n x)
  ∧ (∃ p, ArrayPtr.make_init init = Ok p
       ∧ ArrayPtr.to_bool p = true
       ∧ ArrayPtr.slots p = init).
Proof.
  split_and!.
  - unfold ArrayPtr.make, ArrayPtr.to_bool.
    destruct (decide (n = 0)) as [->|?]; [done|].
    symmetry. by apply bool_decide_eq_true_2.
  - unfold ArrayPtr.make. by destruct (decide (n = 0)) as [->|?].
  - unfold ArrayPtr.make_fill, ArrayPtr.to_bool.
    destruct (decide (n = 0)) as [->|?]; [by eexists|].
    rewrite fill_Some by (rewrite length_replicate; lia).
    eexists. split; [done|]. simpl.
    rewrite (drop_ge (replicate _ _)) by (rewrite length_replicate; lia).
    rewrite app_nil_r. split; [|done].
    symmetry. by apply bool_decide_eq_true_2.
  - unfold ArrayPtr.make_init.
    rewrite assign_from_Some by (rewrite length_replicate; simpl; lia).
    eexists. split; [done|]. simpl.
    rewrite (drop_ge (replicate _ _)) by (rewrite length_replicate; lia).
    by rewrite app_nil_r.
Qed.
End more_array_ptr.

(** ** Who holds which block *)

Section heap_facts.
Context `{Element T}.
Implicit Types (s : Heap.state T) (m : list (Heap.block T))
  (p : Heap.pointer) (l : list Heap.pointer).

Lemma elem_of_held l a : a ∈ omap id l ↔ ∃ i, l !! i = Some (Some a).
Proof.
  rewrite list_elem_of_omap. split.
  - intros (p & [i Hi]%list_elem_of_lookup & Hp). simpl in Hp. subst.
    by exists i.
  - intros [i Hi]. exists (Some a). split; [|done].
    by eapply list_elem_of_lookup_2.
Qed.

Lemma NoDup_held l :
  NoDup (omap id l)
  ↔ ∀ i j a, l !! i = Some (Some a) → l !! j = Some (Some a) → i = j.
Proof.
  induction l as [|p l IH].
  - split; [by intros _ i j a ?|constructor].
  - destruct p as [a|].
    + change (omap id (Some a :: l)) with (a :: omap id l).
      rewrite list.NoDup_cons, IH, elem_of_held. split.
      * intros [Hnot Huniq] [|i] [|j] b Hi Hj; simplify_eq/=; try done.
        -- destruct Hnot. by exists j.
        -- destruct Hnot. by exists i.
        -- f_equal. by eapply Huniq.
      * intros Huniq. split.
        -- intros [i Hi]. by specialize (Huniq 0 (S i) a eq_refl Hi).
        -- intros i j b Hi Hj.
           by specialize (Huniq (S i) (S j) b Hi Hj) as [= ->].
    + change (omap id (None :: l)) with (omap id l).
      rewrite IH. split.
      * intros Huniq [|i] [|j] b Hi Hj; simplify_eq/=; try done.
        f_equal. by eapply Huniq.
      * intros Huniq i j b Hi Hj.
        by specialize (Huniq (S i) (S j) b Hi Hj) as [= ->].
Qed.

Lemma sound_lookup s :
  Heap.sound s
  ↔ (∀ i j a, Heap.raw_ptr_ s !! i = Some (Some a) →
              Heap.raw_ptr_ s !! j = Some (Some a) → i = j)
    ∧ (∀ i a, Heap.raw_ptr_ s !! i = Some (Some a) →
              Heap.is_live (Heap.blocks s) a = true).
Proof.
  unfold Heap.sound, Heap.owned. rewrite NoDup_held, list.Forall_forall.
  split; intros [Hu Hl]; (split; [done|]).
  - intros i a Hi. apply Hl, elem_of_held. by exists i.
  - intros a [i Hi]%elem_of_held. by eapply Hl.
Qed.

Lemma heap_get_Some s name p :
  Heap.raw_ptr_ s !! name = Some p → Heap.get name s = Ok p.
Proof. intros Hp. unfold Heap.get. by rewrite Hp. Qed.

Lemma heap_set_Some s name p q :
  Heap.raw_ptr_ s !! name = Some q →
  Heap.set name p s
  = Ok {| Heap.blocks := Heap.blocks s;
          Heap.raw_ptr_ := <[name:=p]> (Heap.raw_ptr_ s) |}.
Proof.
  intros Hq%lookup_lt_Some. unfold Heap.set. by rewrite decide_True.
Qed.

Lemma is_live_app m b a :
  Heap.is_live m a = true → Heap.is_live (m ++ [b]) a = true.
Proof.
  unfold Heap.is_live. destruct (m !! a) as [c|] eqn:Hc; [|done].
  by rewrite (lookup_app_l_Some _ _ _ _ Hc).
Qed.

Lemma is_live_lt m a : Heap.is_live m a = true → a < length m.
Proof.
  unfold Heap.is_live. destruct (m !! a) as [c|] eqn:Hc; [|done].
  intros _. by eapply lookup_lt_Some.
Qed.

Lemma sound_declare_null s : Heap.sound s → Heap.sound (Heap.declare None s).
Proof.
  unfold Heap.sound, Heap.owned, Heap.declare. simpl.
  by rewrite omap_app, app_nil_r.
Qed.

Lemma sound_place s (b : ArrayPtr.t T) :
  Heap.sound s → Heap.sound (Heap.place b s).
Proof.
  intros Hs. destruct b as [slots|]; [|by apply sound_declare_null].
  destruct Hs as [Hnd Hlive]. rewrite list.Forall_forall in Hlive.
  unfold Heap.sound, Heap.owned, Heap.place, Heap.declare in *. simpl.
  rewrite omap_app. simpl. split.
  - apply list.NoDup_app. split; [done|]. split; [|apply NoDup_singleton].
    intros a Ha ->%list_elem_of_singleton.
    apply Hlive, is_live_lt in Ha. lia.
  - apply Forall_app. split.
    + apply list.Forall_forall. intros a Ha. by apply is_live_app, Hlive.
    + apply Forall_singleton. unfold Heap.is_live.
      by rewrite lookup_app_r, Nat.sub_diag.
Qed.

Lemma sound_update s l' :
  Heap.sound s →
  (∀ i a, l' !! i = Some (Some a) →
     ∃ j, Heap.raw_ptr_ s !! j = Some (Some a)) →
  (∀ i j a, l' !! i = Some (Some a) → l' !! j = Some (Some a) → i = j) →
  Heap.sound {| Heap.blocks := Heap.blocks s; Heap.raw_ptr_ := l' |}.
Proof.
  intros [_ Hlive]%sound_lookup Hheld Huniq. apply sound_lookup.
  split; [done|]. simpl. intros i a Hi.
  destruct (Hheld i a Hi) as [j Hj]. by eapply Hlive.
Qed.

Lemma heap_MoveFrom_run this other s p q :
  Heap.raw_ptr_ s !! this = Some p → Heap.raw_ptr_ s !! other = Some q →
  Heap.MoveFrom this other s
  = Ok {| Heap.blocks := Heap.blocks s;
          Heap.raw_ptr_ := <[this:=q]> (<[other:=None]> (Heap.raw_ptr_ s)) |}.
Proof.
  intros Hp Hq. pose proof (lookup_lt_Some _ _ _ Hp).
  unfold Heap.MoveFrom. rewrite (heap_get_Some _ _ _ Hq).
  cbn [mbind res_bind]. rewrite (heap_set_Some _ _ _ _ Hq).
  cbn [mbind res_bind]. unfold Heap.set. simpl.
  by rewrite decide_True by (by rewrite length_insert).
Qed.

Lemma heap_swap_run this other s p q :
  Heap.raw_ptr_ s !! this = Some p → Heap.raw_ptr_ s !! other = Some q →
  Heap.swap this other s
  = Ok {| Heap.blocks := Heap.blocks s;
          Heap.raw_ptr_ := <[other:=p]> (<[this:=q]> (Heap.raw_ptr_ s)) |}.
Proof.
  intros Hp Hq. pose proof (lookup_lt_Some _ _ _ Hq).
  unfold Heap.swap.
  rewrite (heap_get_Some _ _ _ Hp), (heap_get_Some _ _ _ Hq).
  cbn [mbind res_bind]. rewrite (heap_set_Some _ _ _ _ Hp).
  cbn [mbind res_bind]. unfold Heap.set. simpl.
  by rewrite decide_True by (by rewrite length_insert).
Qed.

Lemma heap_Release_run this s p :
  Heap.raw_ptr_ s !! this = Some p →
  Heap.Release this s
  = Ok (p, {| Heap.blocks := Heap.blocks s;
              Heap.raw_ptr_ := <[this:=None]> (Heap.raw_ptr_ s) |}).
Proof.
  intros Hp. unfold Heap.Release. rewrite (heap_get_Some _ _ _ Hp).
  cbn [mbind res_bind]. by rewrite (heap_set_Some _ _ _ _ Hp).
Qed.

(** what an object holds after two fields were written *)
Lemma lookup_two_writes l i1 p1 i2 p2 k :
  i1 < length l → i2 < length l →
  <[i2:=p2]> (<[i1:=p1]> l) !! k
  = if decide (k = i2) then Some p2
    else if decide (k = i1) then Some p1 else l !! k.
Proof.
  intros ? ?. destruct (decide (k = i2)) as [->|?].
  - by rewrite list_lookup_insert_eq by (by rewrite length_insert).
  - rewrite list_lookup_insert_ne by done.
    destruct (decide (k = i1)) as [->|?].
    + by rewrite list_lookup_insert_eq.
    + by rewrite list_lookup_insert_ne.
Qed.

Lemma sound_MoveFrom this other s p q :
  Heap.sound s →
  Heap.raw_ptr_ s !! this = Some p → Heap.raw_ptr_ s !! other = Some q →
  Heap.sound
    {| Heap.blocks := Heap.blocks s;
       Heap.raw_ptr_ := <[this:=q]> (<[other:=None]> (Heap.raw_ptr_ s)) |}.
Proof.
  intros Hs Hp Hq. pose proof (lookup_lt_Some _ _ _ Hp).
  pose proof (lookup_lt_Some _ _ _ Hq).
  pose proof Hs as [Huniq _]%sound_lookup.
  apply sound_update; [done|..].
  - intros i a. rewrite lookup_two_writes by done.
    repeat case_decide; intros; simplify_eq; eauto.
  - intros i j a. rewrite !lookup_two_writes by done.
    repeat case_decide; intros; simplify_eq; eauto;
      exfalso; eauto using eq_sym.
Qed.

Lemma sound_swap this other s p q :
  Heap.sound s →
  Heap.raw_ptr_ s !! this = Some p → Heap.raw_ptr_ s !! other = Some q →
  Heap.sound
    {| Heap.blocks := Heap.blocks s;
       Heap.raw_ptr_ := <[other:=p]> (<[this:=q]> (Heap.raw_ptr_ s)) |}.
Proof.
  intros Hs Hp Hq. pose proof (lookup_lt_Some _ _ _ Hp).
  pose proof (lookup_lt_Some _ _ _ Hq).
  pose proof Hs as [Huniq _]%sound_lookup.
  apply sound_update; [done|..].
  - intros i a. rewrite lookup_two_writes by done.
    repeat case_decide; intros; simplify_eq; eauto.
  - intros i j a. rewrite !lookup_two_writes by done.
    repeat case_decide; intros; simplify_eq; eauto;
      exfalso; eauto using eq_sym.
Qed.

Lemma sound_Release this s p :
  Heap.sound s → Heap.raw_ptr_ s !! this = Some p →
  Heap.sound
    {| Heap.blocks := Heap.blocks s;
       Heap.raw_ptr_ := <[this:=None]> (Heap.raw_ptr_ s) |}.
Proof.
  intros Hs Hp. pose proof (lookup_lt_Some _ _ _ Hp).
  pose proof Hs as [Huniq _]%sound_lookup.
  apply sound_update; [done|..].
  - intros i a Hi. destruct (decide (i = this)) as [->|?].
    + by rewrite list_lookup_insert_eq in Hi.
    + rewrite list_lookup_insert_ne in Hi by done. eauto.
  - intros i j a Hi Hj.
    destruct (decide (i = this)) as [->|?];
      [by rewrite list_lookup_insert_eq in Hi|].
    destruct (decide (j = this)) as [->|?];
      [by rewrite list_lookup_insert_eq in Hj|].
    rewrite list_lookup_insert_ne in Hi, Hj by done. eauto.
Qed.

Lemma held_take_S l n p :
  l !! n = Some p →
  omap id (take (S n) l) = omap id (take n l) ++ option_list p.
Proof.
  intros Hp. rewrite (take_S_r _ _ _ Hp), omap_app. by destruct p.
Qed.

Lemma heap_destroy_run s n p :
  Heap.raw_ptr_ s !! n = Some p →
  Heap.destroy n s
  = (m ← Heap.delete_array p (Heap.blocks s);
     Ok {| Heap.blocks := m; Heap.raw_ptr_ := Heap.raw_ptr_ s |}).
Proof. intros Hp. unfold Heap.destroy. by rewrite (heap_get_Some _ _ _ Hp). Qed.

Lemma destroy_first_spec n : ∀ s,
  n ≤ length (Heap.raw_ptr_ s) →
  NoDup (omap id (take n (Heap.raw_ptr_ s))) →
  Forall (λ a, Heap.is_live (Heap.blocks s) a = true)
    (omap id (take n (Heap.raw_ptr_ s))) →
  ∃ m, Heap.destroy_first n s
       = Ok {| Heap.blocks := m; Heap.raw_ptr_ := Heap.raw_ptr_ s |}
    ∧ length m = length (Heap.blocks s)
    ∧ ∀ a, m !! a
           = if decide (a ∈ omap id (take n (Heap.raw_ptr_ s)))
             then Some Heap.Freed else Heap.blocks s !! a.
Proof.
  induction n as [|n IH]; intros [m l]; simpl Heap.raw_ptr_;
    simpl Heap.blocks; intros Hn Hnd Hlive; cbn [Heap.destroy_first].
  - exists m. by split_and!.
  - destruct (lookup_lt_is_Some_2 l n) as [p Hp]; [lia|].
    rewrite (held_take_S _ _ _ Hp) in Hnd, Hlive |- *.
    rewrite (heap_destroy_run _ _ p) by done. simpl Heap.blocks.
    simpl Heap.raw_ptr_. apply list.NoDup_app in Hnd as (Hnd & Hnot & _).
    apply Forall_app in Hlive as [Hlive Hp_live].
    destruct p as [a|]; cbn [Heap.delete_array].
    + change (option_list (Some a)) with [a] in *.
      rewrite Forall_singleton in Hp_live. rewrite Hp_live.
      cbn [mbind res_bind].
      destruct (IH {| Heap.blocks := <[a:=Heap.Freed]> m;
                      Heap.raw_ptr_ := l |})
        as (m' & -> & Hlen & Hm'); simpl; [lia|done| |].
      { apply list.Forall_forall. intros b Hb.
        rewrite list.Forall_forall in Hlive. unfold Heap.is_live.
        rewrite list_lookup_insert_ne; [by apply Hlive|].
        intros <-. apply (Hnot a Hb), list_elem_of_here. }
      simpl in Hlen, Hm'. rewrite length_insert in Hlen.
      exists m'. split; [done|]. split; [done|]. intros b. rewrite Hm'.
      destruct (decide (b = a)) as [->|Hne].
      * rewrite decide_False by (intros Ha; apply (Hnot a Ha), list_elem_of_here).
        rewrite decide_True by (apply elem_of_app; right; apply list_elem_of_here).
        apply list_lookup_insert_eq. by apply is_live_lt.
      * rewrite list_lookup_insert_ne by done. apply decide_ext.
        rewrite elem_of_app, list_elem_of_singleton. intuition congruence.
    + change (option_list None) with (@nil nat) in *.
      cbn [mbind res_bind]. rewrite app_nil_r.
      by apply (IH {| Heap.blocks := m; Heap.raw_ptr_ := l |}); [simpl; lia|..].
Qed.

(** A block that has been deleted is not deleted again without
    undefined behaviour. *)
Lemma destroy_first_dead a n : ∀ s,
  Heap.is_live (Heap.blocks s) a = false →
  ((∃ i, i < n ∧ Heap.raw_ptr_ s !! i = Some (Some a)) →
   Heap.destroy_first n s = Undefined)
  ∧ Heap.destroy_first n s ≠ OutOfRange.
Proof.
  induction n as [|n IH]; intros s Hdead; cbn [Heap.destroy_first].
  - split; [|done]. intros (i & ? & _). lia.
  - unfold Heap.destroy, Heap.get.
    destruct (Heap.raw_ptr_ s !! n) as [p|] eqn:Hp; cbn [mbind res_bind].
    2:{ by split. }
    destruct p as [b|]; cbn [Heap.delete_array].
    + destruct (Heap.is_live (Heap.blocks s) b) eqn:Hb;
        cbn [mbind res_bind]; [|by split].
      assert (a ≠ b) as Hne by congruence.
      destruct (IH {| Heap.blocks := <[b:=Heap.Freed]> (Heap.blocks s);
                      Heap.raw_ptr_ := Heap.raw_ptr_ s |}) as [Hin Hno].
      { simpl. unfold Heap.is_live in *.
        by rewrite list_lookup_insert_ne. }
      split; [|done]. intros (i & Hi & Hia). apply Hin. simpl.
      exists i. split; [|done].
      destruct (decide (i = n)) as [->|?]; [congruence|lia].
    + cbn [mbind res_bind].
      destruct (IH {| Heap.blocks := Heap.blocks s;
                      Heap.raw_ptr_ := Heap.raw_ptr_ s |} Hdead)
        as [Hin Hno].
      split; [|done]. intros (i & Hi & Hia). apply Hin. simpl.
      exists i. split; [|done].
      destruct (decide (i = n)) as [->|?]; [congruence|lia].
Qed.

Lemma leave_scope_spec s :
  Heap.sound s →
  ∃ m, Heap.leave_scope s
       = Ok {| Heap.blocks := m; Heap.raw_ptr_ := Heap.raw_ptr_ s |}
    ∧ length m = length (Heap.blocks s)
    ∧ ∀ a, m !! a = if decide (a ∈ Heap.owned s) then Some Heap.Freed
                    else Heap.blocks s !! a.
Proof.
  intros [Hnd Hlive]. unfold Heap.owned in *.
  destruct (destroy_first_spec (length (Heap.raw_ptr_ s)) s)
    as (m & Hm & Hlen & Hblocks); rewrite ?firstn_all; try done.
  exists m. split_and!; try done. intros a. rewrite Hblocks.
  by rewrite firstn_all.
Qed.
End heap_facts.

Section ownership.
Context `{Element T}.
Implicit Types (s : Heap.state T) (p q : Heap.pointer).

(** X20.  When every block an [ArrayPtr] holds is live and held by that
    object alone, it is so again after a constructor (default, from a
    size, from a size and a value, from an initializer list, by move),
    after move assignment, after [swap] and after [Release()]; each of
    these returns. *)
Theorem ArrayPtr_keeps_sole_ownership this other s n (x : T) init :
  Heap.sound s →
  this < length (Heap.raw_ptr_ s) → other < length (Heap.raw_ptr_ s) →
  Heap.sound (Heap.ArrayPtr_default s)
  ∧ Heap.sound (Heap.ArrayPtr_size n s)
  ∧ (∃ s', Heap.ArrayPtr_fill n x s = Ok s' ∧ Heap.sound s')
  ∧ (∃ s', Heap.ArrayPtr_init init s = Ok s' ∧ Heap.sound s')
  ∧ (∃ s', Heap.move_construct other s = Ok s' ∧ Heap.sound s')
  ∧ (∃ s', Heap.move_assign this other s = Ok s' ∧ Heap.sound s')
  ∧ (∃ s', Heap.swap this other s = Ok s' ∧ Heap.sound s')
  ∧ (∃ p s', Heap.Release this s = Ok (p, s') ∧ Heap.sound s').
Proof.
  intros Hs [p Hp]%lookup_lt_is_Some_2 [q Hq]%lookup_lt_is_Some_2.
  split_and!.
  - by apply sound_declare_null.
  - by apply sound_place.
  - unfold Heap.ArrayPtr_fill, ArrayPtr.make_fill.
    case_decide; [eexists; split; [done|]; by apply sound_place|].
    rewrite fill_Some by (rewrite length_replicate; lia).
    eexists; split; [done|]. by apply sound_place.
  - unfold Heap.ArrayPtr_init, ArrayPtr.make_init.
    rewrite assign_from_Some by (rewrite length_replicate; simpl; lia).
    eexists; split; [done|]. by apply sound_place.
  - unfold Heap.move_construct.
    erewrite (heap_MoveFrom_run _ _ _ None q).
    + eexists; split; [done|].
      apply (sound_MoveFrom _ _ (Heap.declare None s) None q);
        [by apply sound_declare_null|..]; simpl.
      * by rewrite lookup_app_r, Nat.sub_diag.
      * by rewrite (lookup_app_l_Some _ _ _ _ Hq).
    + simpl. by rewrite lookup_app_r, Nat.sub_diag.
    + simpl. by rewrite (lookup_app_l_Some _ _ _ _ Hq).
  - unfold Heap.move_assign. rewrite (heap_MoveFrom_run _ _ _ _ _ Hp Hq).
    eexists; split; [done|]. by eapply sound_MoveFrom.
  - rewrite (heap_swap_run _ _ _ _ _ Hp Hq).
    eexists; split; [done|]. by eapply sound_swap.
  - rewrite (heap_Release_run _ _ _ Hp).
    do 2 eexists; split; [done|]. by eapply sound_Release.
Qed.

(** X21.  When every block an [ArrayPtr] holds is live and held by that
    object alone, the destructors at the end of the scope all run
    without undefined behaviour, end exactly the blocks that were held,
    and leave every other block as it was. *)
Theorem scope_exit_frees_each_block_once s :
  Heap.sound s →
  ∃ s', Heap.leave_scope s = Ok s'
    ∧ length (Heap.blocks s') = length (Heap.blocks s)
    ∧ ∀ a, Heap.blocks s' !! a
           = if decide (a ∈ Heap.owned s) then Some Heap.Freed
             else Heap.blocks s !! a.
Proof.
  intros Hs. destruct (leave_scope_spec s Hs) as (m & ? & ? & ?).
  by eexists.
Qed.

(** X22.  Move assignment [a = std::move(b)] to an [ArrayPtr] that
    holds a block overwrites [raw_ptr_] without a [delete[]]: [a] gets
    what [b] held and [b] becomes null, but the block [a] held is then
    held by no object, and it is still live after every destructor has
    run.  ([SimpleVector]'s move assignment assigns [data_] this way.) *)
Theorem move_assignment_leaks this other s a q :
  Heap.sound s → this ≠ other →
  Heap.raw_ptr_ s !! this = Some (Some a) →
  Heap.raw_ptr_ s !! other = Some q →
  ∃ s' s'', Heap.move_assign this other s = Ok s'
    ∧ Heap.raw_ptr_ s' !! this = Some q
    ∧ Heap.raw_ptr_ s' !! other = Some None
    ∧ Heap.leaked s' a
    ∧ Heap.leave_scope s' = Ok s''
    ∧ Heap.is_live (Heap.blocks s'') a = true.
Proof.
  intros Hs Hne Ha Hq. pose proof (lookup_lt_Some _ _ _ Ha).
  pose proof (lookup_lt_Some _ _ _ Hq).
  pose proof Hs as [Huniq Hlive]%sound_lookup.
  unfold Heap.move_assign. rewrite (heap_MoveFrom_run _ _ _ _ _ Ha Hq).
  pose proof (sound_MoveFrom _ _ _ _ _ Hs Ha Hq) as Hs'.
  destruct (leave_scope_spec _ Hs') as (m & Hm & _ & Hblocks).
  simpl in Hblocks.
  assert (a ∉ Heap.owned
    {| Heap.blocks := Heap.blocks s;
       Heap.raw_ptr_ := <[this:=q]> (<[other:=None]> (Heap.raw_ptr_ s)) |})
    as Hnot.
  { unfold Heap.owned. simpl. intros [i Hi]%elem_of_held.
    rewrite lookup_two_writes in Hi by done.
    repeat case_decide; simplify_eq; eauto using eq_sym. }
  eexists _, _. split; [done|]. simpl. split_and!.
  - by rewrite lookup_two_writes, decide_True by done.
  - rewrite lookup_two_writes by done.
    by rewrite decide_False, decide_True by done.
  - split; [|done]. simpl. by eapply Hlive.
  - exact Hm.
  - simpl. unfold Heap.is_live. rewrite Hblocks, decide_False by done.
    simpl. by eapply Hlive.
Qed.

(** X23.  [Release()] returns the address the object held and leaves
    the object null ([operator bool] is false).  The block stays live and
    no object holds it, so no destructor ends it; an [ArrayPtr]
    constructed from the returned pointer takes it over. *)
Theorem Release_hands_the_block_over this s a :
  Heap.sound s → Heap.raw_ptr_ s !! this = Some (Some a) →
  ∃ s' s'', Heap.Release this s = Ok (Some a, s')
    ∧ Heap.to_bool this s' = Ok false
    ∧ Heap.leaked s' a
    ∧ Heap.leave_scope s' = Ok s''
    ∧ Heap.is_live (Heap.blocks s'') a = true
    ∧ Heap.sound (Heap.ArrayPtr_raw (Some a) s')
    ∧ ¬ Heap.leaked (Heap.ArrayPtr_raw (Some a) s') a.
Proof.
  intros Hs Ha. pose proof (lookup_lt_Some _ _ _ Ha).
  pose proof Hs as [Huniq Hlive]%sound_lookup.
  rewrite (heap_Release_run _ _ _ Ha).
  pose proof (sound_Release _ _ _ Hs Ha) as Hs'.
  destruct (leave_scope_spec _ Hs') as (m & Hm & _ & Hblocks).
  simpl in Hblocks.
  assert (a ∉ Heap.owned
    {| Heap.blocks := Heap.blocks s;
       Heap.raw_ptr_ := <[this:=None]> (Heap.raw_ptr_ s) |}) as Hnot.
  { unfold Heap.owned. simpl. intros [i Hi]%elem_of_held.
    destruct (decide (i = this)) as [->|?].
    - by rewrite list_lookup_insert_eq in Hi.
    - rewrite list_lookup_insert_ne in Hi by done. eauto. }
  assert (Heap.is_live (Heap.blocks s) a = true) as Hal by by eapply Hlive.
  eexists _, _. split; [done|]. split_and!.
  - unfold Heap.to_bool, Heap.get. simpl.
    by rewrite list_lookup_insert_eq by done.
  - by split.
  - exact Hm.
  - simpl. unfold Heap.is_live. by rewrite Hblocks, decide_False by done.
  - destruct Hs' as [Hnd Hl].
    unfold Heap.sound, Heap.owned, Heap.ArrayPtr_raw, Heap.declare in *.
    simpl in *. rewrite omap_app. split.
    + apply list.NoDup_app. split; [done|]. split; [|apply NoDup_singleton].
      by intros b Hb ->%list_elem_of_singleton.
    + apply Forall_app. split; [done|]. by apply Forall_singleton.
  - intros [_ []]. unfold Heap.owned, Heap.ArrayPtr_raw, Heap.declare.
    simpl. rewrite omap_app, elem_of_app. right. apply list_elem_of_here.
Qed.

(** X24.  An [ArrayPtr] constructed from the pointer that [Get()] of
    another returns makes two objects hold the same block, and the
    second destructor then deletes a block that is no longer live:
    leaving the scope is undefined behaviour. *)
Theorem second_owner_frees_twice this s a :
  Heap.sound s → Heap.raw_ptr_ s !! this = Some (Some a) →
  Heap.Get this s = Ok (Some a)
  ∧ ¬ Heap.sound (Heap.ArrayPtr_raw (Some a) s)
  ∧ Heap.leave_scope (Heap.ArrayPtr_raw (Some a) s) = Undefined.
Proof.
  intros Hs Ha. pose proof Hs as [Huniq Hlive]%sound_lookup.
  pose proof (lookup_lt_Some _ _ _ Ha) as Hlt.
  split_and!.
  - by apply heap_get_Some.
  - intros [Hu _]%sound_lookup. simpl in Hu.
    specialize (Hu this (length (Heap.raw_ptr_ s)) a).
    rewrite (lookup_app_l_Some _ _ _ _ Ha) in Hu.
    rewrite lookup_app_r, Nat.sub_diag in Hu by done.
    specialize (Hu eq_refl eq_refl). lia.
  - unfold Heap.leave_scope, Heap.ArrayPtr_raw, Heap.declare. simpl.
    rewrite length_app, Nat.add_1_r. cbn [Heap.destroy_first].
    erewrite heap_destroy_run
      by (simpl; by rewrite lookup_app_r, Nat.sub_diag).
    simpl. rewrite (Hlive _ _ Ha). cbn [mbind res_bind].
    apply (destroy_first_dead a).
    + simpl. unfold Heap.is_live.
      by rewrite list_lookup_insert_eq
        by (apply is_live_lt; by eapply Hlive).
    + simpl. exists this. split; [done|].
      by apply lookup_app_l_Some.
Qed.

(** X25.  [swap] exchanges what two [ArrayPtr]s hold, move construction
    gives the new object what the source held and leaves the source
    null, and moving an object into itself changes nothing.  None of
    them leaves a block without a holder that had one. *)
Theorem swap_and_move_construction_leak_nothing this other s p q :
  Heap.sound s →
  Heap.raw_ptr_ s !! this = Some p → Heap.raw_ptr_ s !! other = Some q →
  ∃ s1 s2, Heap.swap this other s = Ok s1
    ∧ Heap.raw_ptr_ s1 !! this = Some q
    ∧ Heap.raw_ptr_ s1 !! other = Some p
    ∧ Heap.move_construct other s = Ok s2
    ∧ Heap.raw_ptr_ s2 !! length (Heap.raw_ptr_ s) = Some q
    ∧ Heap.raw_ptr_ s2 !! other = Some None
    ∧ Heap.move_assign this this s = Ok s
    ∧ ∀ a, (Heap.leaked s1 a ↔ Heap.leaked s a)
           ∧ (Heap.leaked s2 a ↔ Heap.leaked s a).
Proof.
  intros Hs Hp Hq. pose proof (lookup_lt_Some _ _ _ Hp).
  pose proof (lookup_lt_Some _ _ _ Hq).
  rewrite (heap_swap_run _ _ _ _ _ Hp Hq).
  unfold Heap.move_construct, Heap.move_assign.
  assert (Heap.raw_ptr_ (Heap.declare None s) !! length (Heap.raw_ptr_ s)
    = Some None) as Hnew by (simpl; by rewrite lookup_app_r, Nat.sub_diag).
  assert (Heap.raw_ptr_ (Heap.declare None s) !! other = Some q) as Hq'
    by (simpl; by rewrite (lookup_app_l_Some _ _ _ _ Hq)).
  rewrite (heap_MoveFrom_run _ _ _ _ _ Hnew Hq').
  rewrite (heap_MoveFrom_run _ _ _ _ _ Hp Hp).
  do 2 eexists. split; [done|]. simpl.
  assert (length (Heap.raw_ptr_ s ++ [None]) = S (length (Heap.raw_ptr_ s)))
    as Hlen by (rewrite length_app; simpl; lia).
  split.
  { rewrite lookup_two_writes by done. repeat case_decide; congruence. }
  split; [by rewrite lookup_two_writes, decide_True by done|].
  split; [done|]. simpl. split_and!.
  - rewrite lookup_two_writes by (rewrite length_app; simpl; lia).
    by rewrite decide_True.
  - rewrite lookup_two_writes by (rewrite length_app; simpl; lia).
    by rewrite decide_False, decide_True by lia.
  - f_equal. destruct s as [m l]. simpl in *. f_equal.
    rewrite list_insert_insert_eq. by apply list_insert_id.
  - intros a. unfold Heap.leaked, Heap.owned. simpl.
    rewrite !elem_of_held. split.
    + apply and_iff_compat_l, not_iff_compat. split.
      * intros [i Hi]. rewrite lookup_two_writes in Hi by done.
        repeat case_decide; simplify_eq; eauto.
      * intros [i Hi]. destruct (decide (i = this)) as [->|?].
        -- exists other. rewrite lookup_two_writes by done.
           rewrite decide_True by done. congruence.
        -- destruct (decide (i = other)) as [->|?].
           ++ exists this. rewrite lookup_two_writes by done.
              rewrite decide_False, decide_True by done. congruence.
           ++ exists i. rewrite lookup_two_writes by done.
              by rewrite !decide_False by done.
    + apply and_iff_compat_l, not_iff_compat. split.
      * intros [i Hi].
        rewrite lookup_two_writes in Hi by (rewrite length_app; simpl; lia).
        repeat case_decide; simplify_eq; eauto.
        destruct (decide (i < length (Heap.raw_ptr_ s))).
        -- rewrite lookup_app_l in Hi by done. eauto.
        -- rewrite lookup_ge_None_2 in Hi by lia. done.
      * intros [i Hi]. pose proof (lookup_lt_Some _ _ _ Hi).
        destruct (decide (i = other)) as [->|?].
        -- exists (length (Heap.raw_ptr_ s)).
           rewrite lookup_two_writes by (rewrite length_app; simpl; lia).
           rewrite decide_True by done. congruence.
        -- exists i.
           rewrite lookup_two_writes by (rewrite length_app; simpl; lia).
           rewrite !decide_False by lia. by apply lookup_app_l_Some.
Qed.

(** X26.  The way [Reserve], [CopyAndSwap] and the constructors of the
    vector replace its buffer: a temporary [ArrayPtr] is constructed
    with the new size, [swap] exchanges it with the object, and the
    temporary goes out of scope.  The object then holds the new block
    (null for size 0), the block it held has been deleted, every block
    is still held by one object at most, and no block is left without
    a holder that had one. *)
Theorem swap_with_a_temporary_frees_the_old_block this s p n :
  Heap.sound s → Heap.raw_ptr_ s !! this = Some p →
  ∃ s', (s2 ← Heap.swap this (length (Heap.raw_ptr_ s))
                 (Heap.ArrayPtr_size n s);
         Heap.leave_last s2) = Ok s'
    ∧ Heap.raw_ptr_ s'
      = <[this:=if decide (n = 0) then None
                else Some (length (Heap.blocks s))]> (Heap.raw_ptr_ s)
    ∧ (n ≠ 0 → Heap.blocks s' !! length (Heap.blocks s)
               = Some (Heap.Live (replicate n value_init)))
    ∧ (∀ a, p = Some a → Heap.blocks s' !! a = Some Heap.Freed)
    ∧ Heap.sound s'
    ∧ ∀ a, Heap.leaked s' a ↔ Heap.leaked s a.
Proof.
  intros Hs Hp. pose proof (lookup_lt_Some _ _ _ Hp) as Hlt.
  pose proof Hs as [Huniq Hlive]%sound_lookup.
  destruct s as [m l]. simpl in *.
  set (q := if decide (n = 0) then None else Some (length m)).
  set (m1 := if decide (n = 0) then m
             else m ++ [Heap.Live (replicate n value_init)]).
  assert (Heap.ArrayPtr_size n {| Heap.blocks := m; Heap.raw_ptr_ := l |}
    = {| Heap.blocks := m1; Heap.raw_ptr_ := l ++ [q] |}) as ->.
  { unfold Heap.ArrayPtr_size, ArrayPtr.make, q, m1.
    by destruct (decide (n = 0)). }
  rewrite (heap_swap_run _ _ _ p q)
    by (simpl; by rewrite ?(lookup_app_l_Some _ _ _ _ Hp),
                          ?lookup_app_r, ?Nat.sub_diag).
  cbn [mbind res_bind]. unfold Heap.leave_last. simpl.
  rewrite !length_insert, length_app, Nat.add_1_r. simpl.
  rewrite Nat.sub_0_r.
  rewrite (heap_destroy_run _ _ p)
    by (simpl; apply list_lookup_insert_eq;
        rewrite length_insert, length_app; simpl; lia).
  simpl.
  assert (take (length l) (<[length l:=p]> (<[this:=q]> (l ++ [q])))
    = <[this:=q]> l) as Htake.
  { rewrite take_insert_ge by done.
    rewrite take_insert_lt by done. by rewrite take_app_length. }
  assert (∀ a, Heap.is_live m a = true → Heap.is_live m1 a = true)
    as Hm1.
  { intros a Ha. unfold m1. case_decide; [done|]. by apply is_live_app. }
  assert (∀ a, a < length m → m1 !! a = m !! a) as Hm1_old.
  { intros a Ha. unfold m1. case_decide; [done|]. by apply lookup_app_l. }
  assert (n ≠ 0 → m1 !! length m
    = Some (Heap.Live (replicate n value_init))) as Hnew.
  { intros Hn. unfold m1. rewrite decide_False by done.
    by rewrite lookup_app_r, Nat.sub_diag. }
  assert (∃ m', Heap.delete_array p m1 = Ok m'
    ∧ (∀ a, p = Some a → m' !! a = Some Heap.Freed)
    ∧ (∀ a, p ≠ Some a → m' !! a = m1 !! a)) as (m' & -> & Hold & Hrest).
  { destruct p as [a|]; cbn [Heap.delete_array].
    - rewrite (Hm1 _ (Hlive _ _ Hp)). eexists. split; [done|]. split.
      + intros ? [= <-]. apply list_lookup_insert_eq.
        by apply is_live_lt, Hm1, (Hlive this).
      + intros b Hb. apply list_lookup_insert_ne. congruence.
    - exists m1. by split_and!. }
  cbn [mbind res_bind]. simpl. rewrite Htake.
  eexists. split; [done|]. simpl.
  assert (∀ i a, l !! i = Some (Some a) → a < length m) as Hheld.
  { intros i a Hi. by apply is_live_lt, (Hlive i). }
  assert (∀ i a, i ≠ this → l !! i = Some (Some a) → p ≠ Some a) as Hother.
  { intros i a Hne Hi ->. by specialize (Huniq _ _ _ Hi Hp). }
  split_and!.
  - done.
  - intros Hn. rewrite Hrest; [by apply Hnew|].
    intros ->. specialize (Hheld _ _ Hp). lia.
  - done.
  - apply sound_lookup. simpl. split.
    + intros i j a. destruct (decide (i = this)) as [->|Hi],
        (decide (j = this)) as [->|Hj]; [done|..];
        rewrite ?list_lookup_insert_eq, ?list_lookup_insert_ne by done.
      * unfold q. case_decide; [done|]. intros [= <-] Hj'.
        specialize (Hheld _ _ Hj'). lia.
      * unfold q. intros Hi'. case_decide; [done|]. intros [= <-].
        specialize (Hheld _ _ Hi'). lia.
      * apply Huniq.
    + intros i a. destruct (decide (i = this)) as [->|Hi];
        rewrite ?list_lookup_insert_eq, ?list_lookup_insert_ne by done.
      * unfold q. case_decide as Hn; [done|]. intros [= <-].
        unfold Heap.is_live. rewrite Hrest; [by rewrite Hnew|].
        intros ->. specialize (Hheld _ _ Hp). lia.
      * intros Hi'. unfold Heap.is_live.
        rewrite Hrest by (by eapply Hother).
        rewrite Hm1_old by (by eapply Hheld). by apply (Hlive i).
  - intros a. unfold Heap.leaked, Heap.owned. simpl.
    rewrite !elem_of_held. split.
    + intros [Ha Hno].
      assert (p ≠ Some a) as Hpa.
      { intros ->. unfold Heap.is_live in Ha. by rewrite Hold in Ha. }
      assert (q ≠ Some a) as Hqa.
      { intros Hq. apply Hno. exists this.
        rewrite list_lookup_insert_eq by done. by rewrite Hq. }
      unfold Heap.is_live in Ha. rewrite Hrest in Ha by done.
      assert (a < length m) as Hlen.
      { destruct (m1 !! a) as [[?|]|] eqn:Hma; try done.
        apply lookup_lt_Some in Hma. unfold m1, q in *.
        case_decide; [done|]. rewrite length_app in Hma. simpl in Hma.
        destruct (decide (a = length m)) as [->|?]; [done|lia]. }
      rewrite Hm1_old in Ha by done. split; [done|].
      intros [i Hi]. destruct (decide (i = this)) as [->|?]; [congruence|].
      apply Hno. exists i. by rewrite list_lookup_insert_ne.
    + intros [Ha Hno].
      assert (p ≠ Some a) as Hpa by (intros ->; apply Hno; eauto).
      pose proof (is_live_lt _ _ Ha) as Hlen. split.
      * unfold Heap.is_live. by rewrite Hrest, Hm1_old.
      * intros [i Hi]. destruct (decide (i = this)) as [->|?].
        -- rewrite list_lookup_insert_eq in Hi by done. unfold q in Hi.
           case_decide; [done|]. simplify_eq. lia.
        -- rewrite list_lookup_insert_ne in Hi by done. eauto.
Qed.
End ownership.

(** ** Whole programs *)

Section whole_programs.
Context `{Element T}.
Implicit Types (v : SimpleVector T) (σ : list (SimpleVector T)) (h : header).

Lemma Forall2_sim_diag σ : Forall wf σ → Forall2 sim σ σ.
Proof.
  induction 1 as [|v σ Hv _ IH]; constructor; [|done].
  split_and!; [done..|]. left. apply sync_refl.
Qed.

Lemma sim_wf_l σa σb : Forall2 sim σa σb → Forall wf σa.
Proof. induction 1 as [|a b ? ? [? _]]; by constructor. Qed.

Lemma sim_wf_r σa σb : Forall2 sim σa σb → Forall wf σb.
Proof. induction 1 as [|a b ? ? (_ & ? & _)]; by constructor. Qed.

Lemma exec_keeps_wf h st σ r :
  Forall wf σ → exec h st σ = Ok r → Forall wf r.1.
Proof.
  intros Hσ Hrun. pose proof (Forall2_sim_diag σ Hσ) as Hsim.
  destruct h.
  - destruct (is_subscript st) eqn:Hst.
    + destruct st; try discriminate Hst. cbn [exec] in Hrun.
      destruct (get this σ) as [v| |]; [|done..]. cbn [mbind res_bind] in Hrun.
      unfold read in Hrun.
      destruct (subscript v index); simplify_eq; done.
    + pose proof (exec_sim st σ σ Hsim Hst) as Hrel. rewrite Hrun in Hrel.
      destruct (exec second_header st σ) as [rb| |]; [|done..].
      destruct Hrel as [Hσ' _]. by eapply sim_wf_l.
  - destruct (exec_forward st σ σ r Hsim Hrun) as (ra & _ & Hσ' & _).
    by eapply sim_wf_r.
Qed.

(** X27.  Along every sequence of calls of the public interface whose
    behaviour is defined, under either header, from vectors that satisfy
    the class invariant: after every call every vector shows
    [GetSize() <= GetCapacity()] and exactly [GetSize()] elements between
    [begin()] and [end()]. *)
Theorem run_keeps_the_invariant h prog : ∀ σ t,
  Forall wf σ → run h prog σ = Ok t →
  Forall (λ step : outcome T * list (observation T),
    Forall (λ o, seen_size o ≤ seen_capacity o
                 ∧ length (seen_elements o) = seen_size o) step.2) t.
Proof.
  induction prog as [|st prog IH]; intros σ t Hσ; cbn [run].
  - intros [= <-]. constructor.
  - destruct (exec h st σ) as [[σ' o]| |] eqn:Hst; [|done..].
    cbn [mbind res_bind].
    destruct (run h prog σ') as [t'| |] eqn:Hrun; [|done..].
    cbn [mbind res_bind]. intros [= <-].
    pose proof (exec_keeps_wf h st σ _ Hσ Hst) as Hσ'. simpl in Hσ'.
    constructor; [|by eapply IH]. simpl.
    apply Forall_fmap. eapply list.Forall_impl; [exact Hσ'|].
    intros v Hv. simpl. split; [apply Hv|by apply length_elements].
Qed.

End whole_programs.

(** ** The further properties at sample objects *)

(** a sample vector satisfies the class invariant *)
Ltac sample_wf := split; [simpl; lia|reflexivity].

Lemma three_pointers_sound : Heap.sound three_pointers.
Proof.
  apply (bool_decide_unpack (Heap.sound three_pointers)). by vm_compute.
Qed.

Lemma reserved_on_construction_witness :
  ∃ v v', Call.of_reserve second_header (Reserve_proxy 3) = Ok v
    ∧ GetSize v = 0 ∧ GetCapacity v = 3 ∧ IsEmpty v = true
    ∧ elements v = []
    ∧ Call.push_back_each second_header v [7; 8]%Z = Ok v'
    ∧ elements v' = [7; 8]%Z ∧ GetCapacity v' = 3.
Proof.
  apply (reserved_on_construction second_header 3 [7; 8]%Z). simpl. lia.
Defined.

Lemma Reserve_then_PushBack_witness :
  ∃ v1 v2, Call.Reserve simple_vector v12 4 = Ok v1
    ∧ Call.push_back_each simple_vector v1 [3; 4]%Z = Ok v2
    ∧ elements v2 = elements v12 ++ [3; 4]%Z
    ∧ GetCapacity v2 = GetCapacity v1.
Proof.
  apply (Reserve_then_PushBack simple_vector v12 4 [3; 4]%Z).
  - sample_wf.
  - simpl. lia.
Defined.

Lemma Clear_keeps_storage_witness :
  elements (Clear v123) = [] ∧ IsEmpty (Clear v123) = true
  ∧ GetCapacity (Clear v123) = GetCapacity v123
  ∧ data_ (Clear v123) = data_ v123
  ∧ ∃ v', Call.push_back_each second_header (Clear v123) [9; 8]%Z = Ok v'
      ∧ elements v' = [9; 8]%Z ∧ GetCapacity v' = GetCapacity v123.
Proof.
  apply (Clear_keeps_storage second_header v123 [9; 8]%Z).
  - sample_wf.
  - simpl. lia.
Defined.

Lemma PopBack_takes_the_last_witness :
  elements (PopBack v12) = take (size_ v12 - 1) (elements v12)
  ∧ (IsEmpty v12 = true → PopBack v12 = v12)
  ∧ ∃ v', Call.PushBack simple_vector by_rvalue_ref v12 (Outside 3%Z)
          = Ok v'
      ∧ elements (PopBack v') = elements v12
      ∧ GetSize (PopBack v') = GetSize v12
      ∧ eq_op (PopBack v') v12 = true.
Proof.
  apply (PopBack_takes_the_last simple_vector by_rvalue_ref v12 3%Z).
  sample_wf.
Defined.

(** X6 with an element of the vector as the value *)
Lemma Insert_at_end_is_PushBack_witness :
  Call.Insert simple_vector by_const_ref v123 (end_ v123) (Slot 0)
  = (v' ← Call.PushBack simple_vector by_const_ref v123 (Slot 0);
     Ok (v', end_ v123)).
Proof.
  apply (Insert_at_end_is_PushBack simple_vector by_const_ref v123 (Slot 0)).
  unfold INT_MAX. simpl. lia.
Defined.

Lemma Erase_at_last_is_PopBack_witness :
  Call.Erase second_header v123 (end_ v123 - 1)
  = Ok (PopBack v123, end_ v123 - 1).
Proof.
  apply (Erase_at_last_is_PopBack second_header v123).
  - reflexivity.
  - unfold INT_MAX. simpl. lia.
Defined.

Lemma Insert_undoes_Erase_witness :
  ∃ v1 v2, Call.Erase simple_vector v123 1 = Ok (v1, 1)
    ∧ Call.Insert simple_vector by_const_ref v1 1 (Outside 2%Z)
      = Ok (v2, 1)
    ∧ elements v2 = elements v123
    ∧ GetSize v2 = GetSize v123
    ∧ GetCapacity v2 = GetCapacity v123
    ∧ eq_op v2 v123 = true.
Proof.
  apply (Insert_undoes_Erase simple_vector by_const_ref v123 1 2%Z).
  - sample_wf.
  - reflexivity.
  - unfold INT_MAX. lia.
Defined.

Lemma Resize_and_back_witness :
  ∃ v1 v2, Call.Resize second_header v12 5 = Ok v1
    ∧ Call.Resize second_header v1 (size_ v12) = Ok v2
    ∧ GetSize v2 = GetSize v12
    ∧ elements v2
      = take 5 (elements v12) ++ replicate (size_ v12 - 5) value_init
    ∧ (size_ v12 ≤ 5 → elements v2 = elements v12).
Proof. apply (Resize_and_back second_header v12 5). sample_wf. Defined.

Lemma PushBack_growth_is_bounded_witness :
  ∃ v', Call.push_back_each simple_vector v12 [3; 4; 5]%Z = Ok v'
    ∧ elements v' = elements v12 ++ [3; 4; 5]%Z
    ∧ GetSize v' = GetSize v12 + length [3; 4; 5]%Z
    ∧ GetSize v' ≤ GetCapacity v'
    ∧ GetCapacity v12 ≤ GetCapacity v'
    ∧ GetCapacity v'
      ≤ GetCapacity v12 `max` (1 `max` (2 * (GetSize v' - 1))).
Proof.
  apply (PushBack_growth_is_bounded simple_vector v12 [3; 4; 5]%Z).
  sample_wf.
Defined.

Lemma copy_is_equal_and_fits_witness :
  (∃ σ' c, copy_assign 0 1 [v12; v123] = Ok σ'
     ∧ σ' !! 0 = Some c
     ∧ eq_op c v123 = true ∧ GetSize c = GetSize v123
     ∧ GetCapacity c = GetSize v123
     ∧ (0 ≠ 1 → σ' !! 1 = Some v123))
  ∧ (∃ σ' c, copy_construct 1 [v12; v123] = Ok (σ', length [v12; v123])
     ∧ σ' !! length [v12; v123] = Some c
     ∧ eq_op c v123 = true ∧ GetSize c = GetSize v123
     ∧ GetCapacity c = GetSize v123
     ∧ take (length [v12; v123]) σ' = [v12; v123]).
Proof.
  apply (copy_is_equal_and_fits 0 1 [v12; v123] v12 v123).
  - reflexivity.
  - reflexivity.
  - sample_wf.
Defined.

Lemma swap_exchanges_and_undoes_witness :
  ∃ σ', swap 0 1 [v12; v123] = Ok σ'
    ∧ σ' !! 0 = Some v123 ∧ σ' !! 1 = Some v12
    ∧ (∀ k, k ≠ 0 → k ≠ 1 → σ' !! k = [v12; v123] !! k)
    ∧ swap 0 1 σ' = Ok [v12; v123]
    ∧ (0 = 1 → σ' = [v12; v123]).
Proof.
  apply (swap_exchanges_and_undoes 0 1 [v12; v123] v12 v123); reflexivity.
Defined.

Lemma eq_op_by_index_witness :
  eq_op v123 v123_tight = true
  ↔ GetSize v123 = GetSize v123_tight
    ∧ ∀ i, i < GetSize v123 → At v123 i = At v123_tight i.
Proof. apply (eq_op_by_index v123 v123_tight); sample_wf. Defined.

Lemma comparisons_are_a_strict_total_order_witness :
  lt_op v12 v12 = false
  ∧ (lt_op v12 v123 = true → lt_op v123 v12 = false)
  ∧ (lt_op v12 v123 = true → lt_op v123 v123_tight = true →
     lt_op v12 v123_tight = true)
  ∧ le_op v12 v123 = lt_op v12 v123 || eq_op v12 v123
  ∧ ge_op v12 v123 = gt_op v12 v123 || eq_op v12 v123
  ∧ ne_op v12 v123 = lt_op v12 v123 || gt_op v12 v123.
Proof.
  apply (comparisons_are_a_strict_total_order v12 v123 v123_tight).
  exact int_strict_total_order.
Defined.

Lemma shorter_prefix_is_less_witness :
  ∃ v', Call.push_back_each second_header v12 [5]%Z = Ok v'
    ∧ lt_op v12 v' = true ∧ gt_op v' v12 = true
    ∧ le_op v' v12 = false ∧ eq_op v12 v' = false.
Proof.
  apply (shorter_prefix_is_less second_header v12 [5]%Z).
  - exact int_strict_total_order.
  - sample_wf.
  - discriminate.
Defined.

Lemma headers_share_Resize_witness :
  simple_vector_h.Resize v12 5 = part_000.Resize v12 5.
Proof.
  apply (headers_share_Resize v12 5).
  - simpl. lia.
  - left. simpl. lia.
Defined.

Lemma ArrayPtr_keeps_sole_ownership_witness :
  Heap.sound (Heap.ArrayPtr_default three_pointers)
  ∧ Heap.sound (Heap.ArrayPtr_size 2 three_pointers)
  ∧ (∃ s', Heap.ArrayPtr_fill 2 7%Z three_pointers = Ok s' ∧ Heap.sound s')
  ∧ (∃ s', Heap.ArrayPtr_init [4; 5]%Z three_pointers = Ok s'
       ∧ Heap.sound s')
  ∧ (∃ s', Heap.move_construct 1 three_pointers = Ok s' ∧ Heap.sound s')
  ∧ (∃ s', Heap.move_assign 0 1 three_pointers = Ok s' ∧ Heap.sound s')
  ∧ (∃ s', Heap.swap 0 1 three_pointers = Ok s' ∧ Heap.sound s')
  ∧ (∃ p s', Heap.Release 0 three_pointers = Ok (p, s') ∧ Heap.sound s').
Proof.
  apply (ArrayPtr_keeps_sole_ownership 0 1 three_pointers 2 7%Z [4; 5]%Z).
  - exact three_pointers_sound.
  - simpl. lia.
  - simpl. lia.
Defined.

Lemma scope_exit_frees_each_block_once_witness :
  ∃ s', Heap.leave_scope three_pointers = Ok s'
    ∧ length (Heap.blocks s') = length (Heap.blocks three_pointers)
    ∧ ∀ a, Heap.blocks s' !! a
           = if decide (a ∈ Heap.owned three_pointers)
             then Some Heap.Freed
             else Heap.blocks three_pointers !! a.
Proof.
  apply (scope_exit_frees_each_block_once three_pointers).
  exact three_pointers_sound.
Defined.

Lemma move_assignment_leaks_witness :
  ∃ s' s'', Heap.move_assign 0 1 three_pointers = Ok s'
    ∧ Heap.raw_ptr_ s' !! 0 = Some (Some 1)
    ∧ Heap.raw_ptr_ s' !! 1 = Some None
    ∧ Heap.leaked s' 0
    ∧ Heap.leave_scope s' = Ok s''
    ∧ Heap.is_live (Heap.blocks s'') 0 = true.
Proof.
  apply (move_assignment_leaks 0 1 three_pointers 0 (Some 1)).
  - exact three_pointers_sound.
  - lia.
  - reflexivity.
  - reflexivity.
Defined.

Lemma Release_hands_the_block_over_witness :
  ∃ s' s'', Heap.Release 0 three_pointers = Ok (Some 0, s')
    ∧ Heap.to_bool 0 s' = Ok false
    ∧ Heap.leaked s' 0
    ∧ Heap.leave_scope s' = Ok s''
    ∧ Heap.is_live (Heap.blocks s'') 0 = true
    ∧ Heap.sound (Heap.ArrayPtr_raw (Some 0) s')
    ∧ ¬ Heap.leaked (Heap.ArrayPtr_raw (Some 0) s') 0.
Proof.
  apply (Release_hands_the_block_over 0 three_pointers 0).
  - exact three_pointers_sound.
  - reflexivity.
Defined.

Lemma second_owner_frees_twice_witness :
  Heap.Get 0 three_pointers = Ok (Some 0)
  ∧ ¬ Heap.sound (Heap.ArrayPtr_raw (Some 0) three_pointers)
  ∧ Heap.leave_scope (Heap.ArrayPtr_raw (Some 0) three_pointers)
    = Undefined.
Proof.
  apply (second_owner_frees_twice 0 three_pointers 0).
  - exact three_pointers_sound.
  - reflexivity.
Defined.

Lemma swap_and_move_construction_leak_nothing_witness :
  ∃ s1 s2, Heap.swap 0 1 three_pointers = Ok s1
    ∧ Heap.raw_ptr_ s1 !! 0 = Some (Some 1)
    ∧ Heap.raw_ptr_ s1 !! 1 = Some (Some 0)
    ∧ Heap.move_construct 1 three_pointers = Ok s2
    ∧ Heap.raw_ptr_ s2 !! length (Heap.raw_ptr_ three_pointers)
      = Some (Some 1)
    ∧ Heap.raw_ptr_ s2 !! 1 = Some None
    ∧ Heap.move_assign 0 0 three_pointers = Ok three_pointers
    ∧ ∀ a, (Heap.leaked s1 a ↔ Heap.leaked three_pointers a)
           ∧ (Heap.leaked s2 a ↔ Heap.leaked three_pointers a).
Proof.
  apply (swap_and_move_construction_leak_nothing 0 1 three_pointers
           (Some 0) (Some 1)).
  - exact three_pointers_sound.
  - reflexivity.
  - reflexivity.
Defined.

Lemma swap_with_a_temporary_frees_the_old_block_witness :
  ∃ s', (s2 ← Heap.swap 0 (length (Heap.raw_ptr_ three_pointers))
                 (Heap.ArrayPtr_size 2 three_pointers);
         Heap.leave_last s2) = Ok s'
    ∧ Heap.raw_ptr_ s'
      = <[0:=if decide (2 = 0) then None
             else Some (length (Heap.blocks three_pointers))]>
          (Heap.raw_ptr_ three_pointers)
    ∧ (2 ≠ 0 → Heap.blocks s' !! length (Heap.blocks three_pointers)
               = Some (Heap.Live (replicate 2 value_init)))
    ∧ (∀ a, Some 0 = Some a → Heap.blocks s' !! a = Some Heap.Freed)
    ∧ Heap.sound s'
    ∧ ∀ a, Heap.leaked s' a ↔ Heap.leaked three_pointers a.
Proof.
  apply (swap_with_a_temporary_frees_the_old_block 0 three_pointers
           (Some 0) 2).
  - exact three_pointers_sound.
  - reflexivity.
Defined.

Lemma run_keeps_the_invariant_witness :
  Forall (λ step : outcome Z * list (observation Z),
    Forall (λ o, seen_size o ≤ seen_capacity o
                 ∧ length (seen_elements o) = seen_size o) step.2)
    sample_trace.
Proof.
  apply (run_keeps_the_invariant second_header sample_program []
           sample_trace).
  - constructor.
  - reflexivity.
Defined.
